(** * The N-joint BLMC robot driver: action pipeline, homing, motion primitive,
      error reports and configuration loading

    A shallow embedding of [include/robot_fingers/n_joint_blmc_robot_driver.hxx].

    - C++ [double] is Rocq's primitive binary64 [float] (IEEE 754, round to
      nearest even), so that NaN, signed zeros, infinities and rounding
      behave as they do in the driver.
    - An Eigen fixed-size [Vector] is a [list double] of length [N_JOINTS].
    - The driver object is a record threaded through every method; the
      collaborators it talks to (joint modules, motor boards, clock, files)
      are an abstract world behind an interface record, and every call made
      on them is appended to a trace.
    - The configuration loader runs in a small monad of its own, which
      collects the lines printed and ends either in a value or in the exit
      of the process; the YAML library is behind an interface. *)

From Stdlib Require Import ZArith Lia Bool String Floats Uint63 DecimalString.
From stdpp Require Import base list.

(** ** IEEE 754 binary64 facts used by the driver proofs

    Everything is derived from the specification of the primitive
    operations ([FloatAxioms]) by analysis of [SpecFloat]. *)
Module IEEE.

Local Open Scope float_scope.

Abbreviation double := float.

(** Views of a decoded float. *)
Definition sf_is_nan (x : spec_float) : bool :=
  match x with S754_nan => true | _ => false end.

Definition sf_finite (x : spec_float) : bool :=
  match x with S754_zero _ | S754_finite _ _ _ => true | _ => false end.

(** [sf_sided s x]: [x] is a number that is zero or has sign [s]
    ([s = true] is "at most zero", [s = false] is "at least zero"). *)
Definition sf_sided (s : bool) (x : spec_float) : bool :=
  match x with
  | S754_zero _ => true
  | S754_infinity s' | S754_finite s' _ _ => Bool.eqb s' s
  | S754_nan => false
  end.

(** [sf_signed s x]: [x] is a number whose sign bit is [s]. *)
Definition sf_signed (s : bool) (x : spec_float) : Prop :=
  match x with
  | S754_zero s' | S754_infinity s' | S754_finite s' _ _ => s' = s
  | S754_nan => False
  end.

Lemma sf_signed_sided s x : sf_signed s x -> sf_sided s x = true.
Proof. destruct x; simpl; intros; subst; auto using eqb_reflx; contradiction. Qed.

(** *** Comparison *)

Lemma SFcompare_refl x : sf_is_nan x = false -> SFcompare x x = Some Eq.
Proof.
  destruct x as [s|s| |s m e]; simpl; try discriminate; intros _.
  - reflexivity.
  - now destruct s.
  - rewrite Z.compare_refl, Pos.compare_cont_refl. now destruct s.
Qed.

Lemma SFcompare_antisym x y :
  SFcompare y x = option_map CompOpp (SFcompare x y).
Proof.
  destruct x as [s1|s1| |s1 m1 e1], y as [s2|s2| |s2 m2 e2]; simpl;
    try reflexivity; try (now destruct s1); try (now destruct s2);
    try (now destruct s1, s2).
  rewrite (Z.compare_antisym e1 e2).
  pose proof (Pos.compare_cont_antisym m1 m2 Eq) as Hm. simpl in Hm.
  rewrite <- Hm.
  destruct s1, s2; simpl; try reflexivity;
    destruct (e1 ?= e2)%Z; simpl; try reflexivity;
    now rewrite ?CompOpp_involutive.
Qed.

Lemma SFcompare_some x y :
  sf_is_nan x = false -> sf_is_nan y = false ->
  exists c, SFcompare x y = Some c.
Proof. destruct x, y; simpl; try discriminate; eauto. Qed.

Lemma SFltb_false_SFleb x y :
  sf_is_nan x = false -> sf_is_nan y = false ->
  SFltb x y = false -> SFleb y x = true.
Proof.
  intros Hx Hy. unfold SFltb, SFleb. rewrite (SFcompare_antisym x y).
  destruct (SFcompare_some x y Hx Hy) as [c ->].
  destruct c; simpl; congruence.
Qed.

Lemma SFltb_SFleb x y : SFltb x y = true -> SFleb x y = true.
Proof. unfold SFltb, SFleb. now destruct (SFcompare x y) as [[]|]. Qed.

Lemma SFleb_not_nan x y :
  SFleb x y = true -> sf_is_nan x = false /\ sf_is_nan y = false.
Proof. destruct x, y; simpl; try discriminate; auto. Qed.

Lemma SFleb_zero_r x : SFleb x (S754_zero false) = sf_sided true x.
Proof. destruct x as [s|s| |s m e]; simpl; try reflexivity; now destruct s. Qed.

Lemma SFleb_zero_l x : SFleb (S754_zero false) x = sf_sided false x.
Proof. destruct x as [s|s| |s m e]; simpl; try reflexivity; now destruct s. Qed.

(** *** Rounding keeps the sign bit *)

Lemma shr_1_nonneg mrs : (0 <= shr_m mrs)%Z -> (0 <= shr_m (shr_1 mrs))%Z.
Proof. destruct mrs as [[|[p|p|]|p] r s]; simpl; lia. Qed.

Lemma iter_pos_preserves {A} (P : A -> Prop) (f : A -> A) :
  (forall x, P x -> P (f x)) -> forall n x, P x -> P (SpecFloat.iter_pos f n x).
Proof. intros Hf; induction n; simpl; auto. Qed.

Lemma shr_fexp_nonneg m e l :
  (0 <= m)%Z -> (0 <= shr_m (fst (shr_fexp prec emax m e l)))%Z.
Proof.
  intros Hm. unfold shr_fexp, shr.
  assert (H0 : (0 <= shr_m (shr_record_of_loc m l))%Z)
    by (destruct l as [|[]]; simpl; exact Hm).
  destruct (_ - e)%Z; simpl; auto.
  apply (iter_pos_preserves (fun r => (0 <= shr_m r)%Z)); auto using shr_1_nonneg.
Qed.

Lemma round_nearest_even_nonneg m l :
  (0 <= m)%Z -> (0 <= round_nearest_even m l)%Z.
Proof. destruct l as [|[]]; simpl; try lia. destruct (Z.even m); lia. Qed.

Lemma binary_round_aux_signed s m e l :
  (0 <= m)%Z -> sf_signed s (binary_round_aux prec emax s m e l).
Proof.
  intros Hm. unfold binary_round_aux.
  pose proof (shr_fexp_nonneg m e l Hm) as H1.
  destruct (shr_fexp prec emax m e l) as [mrs' e']. simpl in H1.
  pose proof (shr_fexp_nonneg _ e' loc_Exact
                (round_nearest_even_nonneg _ (loc_of_shr_record mrs') H1)) as H2.
  destruct (shr_fexp prec emax _ e' loc_Exact) as [mrs'' e'']. simpl in H2.
  destruct (shr_m mrs''); simpl; try reflexivity; try lia.
  destruct (_ <=? _)%Z; reflexivity.
Qed.

Lemma binary_round_signed s m e : sf_signed s (binary_round prec emax s m e).
Proof.
  unfold binary_round. destruct (shl_align _ _ _) as [mz ez].
  apply binary_round_aux_signed. lia.
Qed.

(** *** Signs of sums, differences and products *)

Ltac sided_cases :=
  repeat match goal with
         | H : Bool.eqb _ _ = true |- _ => apply eqb_prop in H; subst
         | H : false = true |- _ => discriminate H
         end.

Lemma SFadd_sided s x y :
  sf_sided s x = true -> sf_sided s y = true ->
  sf_sided s (SF64add x y) = true.
Proof.
  destruct x as [sx|sx| |sx mx ex], y as [sy|sy| |sy my ey]; simpl;
    intros Hx Hy; sided_cases; try reflexivity; try discriminate;
    try (destruct s; reflexivity); try (destruct sx, sy; reflexivity).
  apply sf_signed_sided. unfold binary_normalize.
  destruct s; simpl; apply binary_round_signed.
Qed.

Lemma SFsub_sided s x y :
  sf_sided s x = true -> sf_sided (negb s) y = true ->
  sf_sided s (SF64sub x y) = true.
Proof.
  destruct x as [sx|sx| |sx mx ex], y as [sy|sy| |sy my ey]; simpl;
    intros Hx Hy; sided_cases; try reflexivity; try discriminate;
    try (destruct s; reflexivity); try (destruct sx, sy; reflexivity).
  apply sf_signed_sided. unfold binary_normalize.
  destruct s; simpl; apply binary_round_signed.
Qed.

Lemma SFmul_sided s t x y :
  sf_sided s x = true -> sf_sided t y = true ->
  sf_is_nan (SF64mul x y) || sf_sided (xorb s t) (SF64mul x y) = true.
Proof.
  destruct x as [sx|sx| |sx mx ex], y as [sy|sy| |sy my ey]; simpl;
    intros Hx Hy; sided_cases; try reflexivity; try discriminate;
    try (destruct s, t; reflexivity).
  rewrite (sf_signed_sided (xorb s t)); [apply orb_true_r|].
  apply binary_round_aux_signed. lia.
Qed.

Lemma SFmul_finite_not_nan x y :
  sf_finite x = true -> sf_finite y = true -> sf_is_nan (SF64mul x y) = false.
Proof.
  destruct x as [sx|sx| |sx mx ex], y as [sy|sy| |sy my ey]; simpl;
    try discriminate; try reflexivity; intros _ _.
  pose proof (binary_round_aux_signed (xorb sx sy) (Z.pos (mx * my))
                (ex + ey) loc_Exact ltac:(lia)) as H.
  now destruct (binary_round_aux _ _ _ _ _ _).
Qed.

Lemma binary_normalize_not_nan m e sz :
  sf_is_nan (binary_normalize prec emax m e sz) = false.
Proof.
  destruct m as [|p|p]; simpl; try reflexivity.
  - pose proof (binary_round_signed false p e) as H.
    now destruct (binary_round _ _ _ _ _).
  - pose proof (binary_round_signed true p e) as H.
    now destruct (binary_round _ _ _ _ _).
Qed.

Lemma SFadd_finite_not_nan x y :
  sf_finite x = true -> sf_is_nan y = false -> sf_is_nan (SF64add x y) = false.
Proof.
  destruct x as [sx|sx| |sx mx ex], y as [sy|sy| |sy my ey]; simpl;
    try discriminate; try reflexivity; intros _ _;
    try (now destruct sx, sy).
  apply binary_normalize_not_nan.
Qed.

Lemma SFsub_finite_not_nan x y :
  sf_finite x = true -> sf_is_nan y = false -> sf_is_nan (SF64sub x y) = false.
Proof.
  destruct x as [sx|sx| |sx mx ex], y as [sy|sy| |sy my ey]; simpl;
    try discriminate; try reflexivity; intros _ _;
    try (now destruct sx, sy).
  apply binary_normalize_not_nan.
Qed.

(** *** Canonical mantissas and the order *)

Lemma digits2_pos_bounds p :
  (2 ^ (Z.pos (digits2_pos p) - 1) <= Z.pos p < 2 ^ Z.pos (digits2_pos p))%Z.
Proof.
  induction p as [p IH|p IH|]; simpl digits2_pos.
  - rewrite Pos2Z.inj_succ, Z.pow_succ_r by lia.
    replace (Z.succ (Z.pos (digits2_pos p)) - 1)%Z
      with (Z.succ (Z.pos (digits2_pos p) - 1)) by lia.
    rewrite Z.pow_succ_r by lia. lia.
  - rewrite Pos2Z.inj_succ, Z.pow_succ_r by lia.
    replace (Z.succ (Z.pos (digits2_pos p)) - 1)%Z
      with (Z.succ (Z.pos (digits2_pos p) - 1)) by lia.
    rewrite Z.pow_succ_r by lia. lia.
  - simpl. lia.
Qed.

Lemma iter_xO_value m d :
  Z.pos (Pos.iter xO m d) = (Z.pos m * 2 ^ Z.pos d)%Z.
Proof.
  induction d as [|d IH] using Pos.peano_ind.
  - simpl. lia.
  - rewrite Pos.iter_succ, Pos2Z.inj_xO, IH, Pos2Z.inj_succ, Z.pow_succ_r by lia.
    lia.
Qed.

(** A canonical mantissa has at most [prec] digits, and exactly [prec]
    above the smallest exponent. *)
Lemma bounded_digits m e :
  bounded prec emax m e = true ->
  (Z.pos (digits2_pos m) <= 53 /\ -1074 <= e <= 971 /\
   (e = -1074 \/ Z.pos (digits2_pos m) = 53))%Z.
Proof.
  unfold bounded, canonical_mantissa, fexp, SpecFloat.emin, prec, emax.
  intros H. apply andb_prop in H as [H1 H2].
  apply Z.eqb_eq in H1. apply Z.leb_le in H2. lia.
Qed.

Lemma shl_align_le mx ex my ey :
  bounded prec emax mx ex = true -> bounded prec emax my ey = true ->
  (ex < ey \/ (ex = ey /\ Z.pos mx <= Z.pos my))%Z ->
  (Z.pos (fst (shl_align mx ex (Z.min ex ey)))
   <= Z.pos (fst (shl_align my ey (Z.min ex ey))))%Z.
Proof.
  intros Hx Hy Hlt.
  apply bounded_digits in Hx as (Hdx & Hex & _).
  apply bounded_digits in Hy as (_ & Hey & Hdy).
  pose proof (digits2_pos_bounds mx) as Bx.
  pose proof (digits2_pos_bounds my) as By.
  unfold shl_align. destruct Hlt as [Hlt|[-> Hle]].
  - rewrite Z.min_l by lia. rewrite Z.sub_diag. simpl fst.
    destruct (ex - ey)%Z as [|d|d] eqn:Hd; try lia. simpl fst.
    rewrite iter_xO_value.
    destruct Hdy as [->|Hdy]; [lia|]. rewrite Hdy in By.
    assert (Z.pos mx < 2 ^ 53)%Z.
    { eapply Z.lt_le_trans; [apply Bx|]. apply Z.pow_le_mono_r; lia. }
    assert (2 ^ 1 <= 2 ^ Z.pos d)%Z by (apply Z.pow_le_mono_r; lia).
    change (2 ^ (53 - 1))%Z with 4503599627370496%Z in By.
    change (2 ^ 53)%Z with 9007199254740992%Z in *.
    change (2 ^ 1)%Z with 2%Z in *. nia.
  - rewrite Z.min_id, Z.sub_diag. simpl. exact Hle.
Qed.

Lemma binary_normalize_sided (s : bool) (m e : Z) :
  (if s then (m <= 0)%Z else (0 <= m)%Z) ->
  sf_sided s (binary_normalize prec emax m e false) = true.
Proof.
  destruct m as [|p|p]; simpl; try reflexivity; intros H.
  - destruct s; [lia|]. apply sf_signed_sided, binary_round_signed.
  - destruct s; [|lia]. apply sf_signed_sided, binary_round_signed.
Qed.

(** The difference of two numbers has the sign their order predicts. *)
Lemma SFsub_of_lt x y :
  valid_binary x = true -> valid_binary y = true -> SFltb x y = true ->
  sf_sided true (SF64sub x y) = true /\ sf_sided false (SF64sub y x) = true.
Proof.
  unfold SFltb.
  destruct x as [sx|sx| |sx mx ex], y as [sy|sy| |sy my ey]; simpl;
    intros Vx Vy Hlt; try discriminate;
    try (destruct sx; try discriminate; now destruct sy);
    try (destruct sy; try discriminate; now destruct sx);
    try (now destruct sx, sy).
  assert (Hsign : forall a b : positive,
            (Z.pos a <= Z.pos b)%Z ->
            (Z.pos a - Z.pos b <= 0 /\ 0 <= Z.pos b - Z.pos a)%Z) by lia.
  destruct sx, sy; simpl cond_Zopp; try discriminate.
  - (* both negative: x < y means |y| <= |x| *)
    assert (Hle : (Z.pos (fst (shl_align my ey (Z.min ey ex)))
                   <= Z.pos (fst (shl_align mx ex (Z.min ey ex))))%Z).
    { apply shl_align_le; auto.
      destruct (ex ?= ey)%Z eqn:He; try discriminate.
      - apply Z.compare_eq in He. right. split; [auto|].
        destruct (Pos.compare_cont Eq mx my) eqn:Hm; try discriminate.
        assert (my < mx)%positive by (apply Pos.compare_gt_iff; exact Hm). lia.
      - assert (ey < ex)%Z by (apply Z.compare_gt_iff; exact He). left. lia. }
    rewrite (Z.min_comm ey ex) in *.
    split; apply binary_normalize_sided; simpl; lia.
  - split; apply binary_normalize_sided; simpl; lia.
  - assert (Hle : (Z.pos (fst (shl_align mx ex (Z.min ex ey)))
                   <= Z.pos (fst (shl_align my ey (Z.min ex ey))))%Z).
    { apply shl_align_le; auto.
      destruct (ex ?= ey)%Z eqn:He; try discriminate.
      - apply Z.compare_eq in He. right. split; [auto|].
        destruct (Pos.compare_cont Eq mx my) eqn:Hm; try discriminate.
        assert (mx < my)%positive by (apply Pos.compare_lt_iff; exact Hm). lia.
      - assert (ex < ey)%Z by (apply Z.compare_lt_iff; exact He). left. lia. }
    rewrite (Z.min_comm ey ex).
    split; apply binary_normalize_sided; simpl; lia.
Qed.

(** *** Exact operations *)

Lemma bounded_canonical m e :
  bounded prec emax m e = true ->
  fexp prec emax (Z.pos (digits2_pos m) + e) = e /\ (e <=? emax - prec)%Z = true.
Proof.
  unfold bounded, canonical_mantissa. intros H.
  apply andb_prop in H as [H1 H2]. apply Z.eqb_eq in H1. auto.
Qed.

(** Rounding a number that is already representable returns it. *)
Lemma round_canonical s m e :
  bounded prec emax m e = true ->
  binary_round_aux prec emax s (Z.pos m) e loc_Exact = S754_finite s m e.
Proof.
  intros H. apply bounded_canonical in H as [Hc He].
  unfold binary_round_aux, shr_fexp. simpl Zdigits2.
  rewrite Hc, Z.sub_diag. simpl. rewrite Hc, Z.sub_diag. simpl.
  now rewrite He.
Qed.

Lemma digits2_pos_iter_xO p k :
  Z.pos (digits2_pos (Pos.iter xO p k)) = (Z.pos (digits2_pos p) + Z.pos k)%Z.
Proof.
  induction k as [|k IH] using Pos.peano_ind.
  - simpl. lia.
  - rewrite Pos.iter_succ. simpl digits2_pos.
    rewrite Pos2Z.inj_succ, IH. lia.
Qed.

(** Multiplying by [1] or by [-1] is exact. *)
Lemma SFmul_unit s x :
  valid_binary x = true ->
  SF64mul x (S754_finite s 4503599627370496 (-52)) = (if s then SFopp x else x).
Proof.
  destruct x as [sx|sx| |sx mx ex]; simpl; intros V.
  - now destruct s, sx.
  - now destruct s, sx.
  - now destruct s.
  - apply bounded_canonical in V as [Hc He].
    assert (Hr : binary_round_aux prec emax (xorb sx s)
                   (Z.pos (mx * 4503599627370496)) (ex + -52) loc_Exact
                 = S754_finite (xorb sx s) mx ex).
    { rewrite Pos.mul_comm.
      change (4503599627370496 * mx)%positive with (Pos.iter xO mx 52).
      unfold binary_round_aux, shr_fexp.
      cbv beta iota delta [Zdigits2]. rewrite digits2_pos_iter_xO.
      replace (Z.pos (digits2_pos mx) + 52 + (ex + -52))%Z
        with (Z.pos (digits2_pos mx) + ex)%Z by lia.
      rewrite Hc. replace (ex - (ex + -52))%Z with 52%Z by lia.
      cbn -[fexp Z.add Z.sub Z.leb].
      replace (ex + -52 + 52)%Z with ex by lia.
      rewrite Hc, Z.sub_diag. cbn -[Z.leb Z.sub]. now rewrite He. }
    rewrite Hr. now destruct s, sx.
Qed.

(** An integer of at most [prec] binary digits converts exactly, to a
    positive finite number. *)
Lemma binary_round_small p :
  (Z.pos (digits2_pos p) <= 53)%Z ->
  exists m e, binary_round prec emax false p 0 = S754_finite false m e.
Proof.
  intros Hd. unfold binary_round.
  assert (Hf : fexp prec emax (Z.pos (digits2_pos p) + 0)
               = (Z.pos (digits2_pos p) - 53)%Z).
  { unfold fexp, SpecFloat.emin, prec, emax. lia. }
  rewrite Hf. unfold shl_align.
  destruct (Z.pos (digits2_pos p) - 53 - 0)%Z as [|k|k] eqn:Hk; try lia.
  - exists p, 0%Z. apply round_canonical.
    unfold bounded, canonical_mantissa. rewrite Hf.
    apply andb_true_intro. split; [apply Z.eqb_eq; lia|reflexivity].
  - eexists _, _. apply round_canonical.
    unfold bounded, canonical_mantissa.
    rewrite digits2_pos_iter_xO.
    apply andb_true_intro. split.
    + apply Z.eqb_eq. unfold fexp, SpecFloat.emin, prec, emax. lia.
    + apply Z.leb_le. unfold prec, emax. lia.
Qed.

(** *** The order is total and transitive on numbers

    [SFcompare] is the lexicographic order of [sf_key]: the class of the
    number first (minus infinity, negative, zero, positive, plus infinity),
    then exponent and mantissa, reversed for negative numbers. *)
Definition sf_key (x : spec_float) : Z * Z * Z :=
  match x with
  | S754_nan => (0, 0, 0)
  | S754_zero _ => (0, 0, 0)
  | S754_infinity true => (-2, 0, 0)
  | S754_infinity false => (2, 0, 0)
  | S754_finite true m e => (-1, - e, - Z.pos m)
  | S754_finite false m e => (1, e, Z.pos m)
  end%Z.

Definition key_lt (k1 k2 : Z * Z * Z) : Prop :=
  let '(r1, a1, b1) := k1 in
  let '(r2, a2, b2) := k2 in
  (r1 < r2 \/ (r1 = r2 /\ (a1 < a2 \/ (a1 = a2 /\ b1 < b2))))%Z.

Lemma SFcompare_key x y :
  sf_is_nan x = false -> sf_is_nan y = false ->
  match SFcompare x y with
  | Some Lt => key_lt (sf_key x) (sf_key y)
  | Some Eq => sf_key x = sf_key y
  | Some Gt => key_lt (sf_key y) (sf_key x)
  | None => False
  end.
Proof.
  destruct x as [sx|sx| |sx mx ex], y as [sy|sy| |sy my ey]; simpl;
    try discriminate; intros _ _;
    try (destruct sx; simpl; try reflexivity; lia);
    try (destruct sy; simpl; try reflexivity; lia);
    try (destruct sx, sy; simpl; try reflexivity; lia).
  change (Pos.compare_cont Eq mx my) with (Pos.compare mx my).
  destruct sx, sy; simpl; try lia;
    destruct (Z.compare_spec ex ey); destruct (Pos.compare_spec mx my);
    simpl; subst; try reflexivity; lia.
Qed.

Lemma SFleb_SFltb_trans x y z :
  SFleb x y = true -> SFltb y z = true -> SFltb x z = true.
Proof.
  intros Hxy Hyz.
  assert (Hy : sf_is_nan y = false) by (now destruct (SFleb_not_nan _ _ Hxy)).
  assert (Hx : sf_is_nan x = false) by (now destruct (SFleb_not_nan _ _ Hxy)).
  assert (Hz : sf_is_nan z = false)
    by (now destruct (SFleb_not_nan _ _ (SFltb_SFleb _ _ Hyz))).
  pose proof (SFcompare_key x y Hx Hy) as Kxy.
  pose proof (SFcompare_key y z Hy Hz) as Kyz.
  pose proof (SFcompare_key x z Hx Hz) as Kxz.
  unfold SFleb, SFltb in *.
  destruct (sf_key x) as [[rx ax] bx], (sf_key y) as [[ry ay] by_],
    (sf_key z) as [[rz az] bz].
  destruct (SFcompare x y) as [[]|]; try discriminate;
    destruct (SFcompare y z) as [[]|]; try discriminate;
    destruct (SFcompare x z) as [[]|]; try reflexivity; try contradiction;
    unfold key_lt in *; try (injection Kxy as -> -> ->);
    try (injection Kxz as -> -> ->); lia.
Qed.

Lemma SFltb_asym x y : SFltb x y = true -> SFltb y x = false.
Proof.
  unfold SFltb. rewrite (SFcompare_antisym x y).
  now destruct (SFcompare x y) as [[]|].
Qed.

Lemma SFleb_SFltb_false x y : SFleb x y = true -> SFltb y x = false.
Proof.
  unfold SFltb, SFleb. rewrite (SFcompare_antisym x y).
  now destruct (SFcompare x y) as [[]|].
Qed.

Lemma SFltb_SFleb_trans x y z :
  SFltb x y = true -> SFleb y z = true -> SFltb x z = true.
Proof.
  intros Hxy Hyz.
  assert (Hy : sf_is_nan y = false) by (now destruct (SFleb_not_nan _ _ Hyz)).
  assert (Hz : sf_is_nan z = false) by (now destruct (SFleb_not_nan _ _ Hyz)).
  assert (Hx : sf_is_nan x = false)
    by (now destruct (SFleb_not_nan _ _ (SFltb_SFleb _ _ Hxy))).
  pose proof (SFcompare_key x y Hx Hy) as Kxy.
  pose proof (SFcompare_key y z Hy Hz) as Kyz.
  pose proof (SFcompare_key x z Hx Hz) as Kxz.
  unfold SFleb, SFltb in *.
  destruct (sf_key x) as [[rx ax] bx], (sf_key y) as [[ry ay] by_],
    (sf_key z) as [[rz az] bz].
  destruct (SFcompare x y) as [[]|]; try discriminate;
    destruct (SFcompare y z) as [[]|]; try discriminate;
    destruct (SFcompare x z) as [[]|]; try reflexivity; try contradiction;
    unfold key_lt in *; try (injection Kyz as -> -> ->);
    try (injection Kxz as -> -> ->); lia.
Qed.

Lemma SFsub_not_nan_inv x y :
  sf_is_nan (SF64sub x y) = false -> sf_is_nan x = false /\ sf_is_nan y = false.
Proof. destruct x, y; simpl; auto; discriminate. Qed.

(** *** The same facts on primitive floats *)

(** [sided true x] is [x <= 0], [sided false x] is [0 <= x]; both fail on NaN
    and both hold of either zero. *)
Definition sided (s : bool) (x : double) : bool :=
  if s then x <=? 0 else 0 <=? x.

Lemma Prim2SF_zero : Prim2SF 0 = S754_zero false.
Proof. reflexivity. Qed.

Lemma Prim2SF_one : Prim2SF 1 = S754_finite false 4503599627370496 (-52).
Proof. reflexivity. Qed.

Lemma Prim2SF_minus_one : Prim2SF (-1) = S754_finite true 4503599627370496 (-52).
Proof. reflexivity. Qed.

Lemma is_nan_spec x : is_nan x = sf_is_nan (Prim2SF x).
Proof.
  unfold is_nan. rewrite FloatAxioms.eqb_spec. unfold SFeqb.
  destruct (Prim2SF x) as [s|s| |s m e] eqn:E; try reflexivity;
    rewrite SFcompare_refl; reflexivity.
Qed.

Lemma is_finite_spec x : is_finite x = sf_finite (Prim2SF x).
Proof.
  unfold is_finite, is_infinity. rewrite is_nan_spec, FloatAxioms.eqb_spec, FloatAxioms.abs_spec.
  change (Prim2SF infinity) with (S754_infinity false).
  destruct (Prim2SF x) as [s|s| |s m e]; reflexivity.
Qed.

Lemma sided_spec s x : sided s x = sf_sided s (Prim2SF x).
Proof.
  unfold sided. destruct s; rewrite FloatAxioms.leb_spec, Prim2SF_zero;
    [apply SFleb_zero_r|apply SFleb_zero_l].
Qed.

Lemma is_finite_not_nan x : is_finite x = true -> is_nan x = false.
Proof. rewrite is_finite_spec, is_nan_spec. now destruct (Prim2SF x). Qed.

Lemma sided_not_nan s x : sided s x = true -> is_nan x = false.
Proof. rewrite sided_spec, is_nan_spec. now destruct (Prim2SF x). Qed.

Lemma leb_refl x : is_nan x = false -> (x <=? x) = true.
Proof.
  rewrite is_nan_spec, FloatAxioms.leb_spec. unfold SFleb. intros H.
  now rewrite SFcompare_refl.
Qed.

Lemma ltb_false_leb x y :
  is_nan x = false -> is_nan y = false -> (x <? y) = false -> (y <=? x) = true.
Proof. rewrite !is_nan_spec, FloatAxioms.ltb_spec, FloatAxioms.leb_spec. apply SFltb_false_SFleb. Qed.

Lemma ltb_leb x y : (x <? y) = true -> (x <=? y) = true.
Proof. rewrite FloatAxioms.ltb_spec, FloatAxioms.leb_spec. apply SFltb_SFleb. Qed.

Lemma leb_not_nan x y :
  (x <=? y) = true -> is_nan x = false /\ is_nan y = false.
Proof. rewrite !is_nan_spec, FloatAxioms.leb_spec. apply SFleb_not_nan. Qed.

Lemma ltb_not_nan x y :
  (x <? y) = true -> is_nan x = false /\ is_nan y = false.
Proof. intros H. apply leb_not_nan, ltb_leb, H. Qed.

(** Not being above zero, for a number, is being at most zero. *)
Lemma not_pos_sided x :
  is_nan x = false -> (0 <? x) = false -> sided true x = true.
Proof. intros Hx H. apply ltb_false_leb; auto. Qed.

Lemma add_sided s x y :
  sided s x = true -> sided s y = true -> sided s (x + y) = true.
Proof. rewrite !sided_spec, FloatAxioms.add_spec. apply SFadd_sided. Qed.

Lemma sub_sided s x y :
  sided s x = true -> sided (negb s) y = true -> sided s (x - y) = true.
Proof. rewrite !sided_spec, FloatAxioms.sub_spec. apply SFsub_sided. Qed.

Lemma mul_sided s t x y :
  sided s x = true -> sided t y = true ->
  is_nan (x * y) || sided (xorb s t) (x * y) = true.
Proof. rewrite !sided_spec, is_nan_spec, FloatAxioms.mul_spec. apply SFmul_sided. Qed.

Lemma opp_sided s x : sided s x = true -> sided (negb s) (- x) = true.
Proof.
  rewrite !sided_spec, FloatAxioms.opp_spec.
  destruct (Prim2SF x) as [sx|sx| |sx m e]; simpl; auto; now destruct sx, s.
Qed.

Lemma sub_of_ltb x y :
  (x <? y) = true -> sided true (x - y) = true /\ sided false (y - x) = true.
Proof.
  rewrite !sided_spec, !FloatAxioms.sub_spec, FloatAxioms.ltb_spec.
  apply SFsub_of_lt; apply Prim2SF_valid.
Qed.

Lemma mul_1_r x : x * 1 = x.
Proof.
  apply Prim2SF_inj. rewrite FloatAxioms.mul_spec, Prim2SF_one.
  apply (SFmul_unit false), Prim2SF_valid.
Qed.

Lemma mul_m1_r x : x * -1 = - x.
Proof.
  apply Prim2SF_inj. rewrite FloatAxioms.mul_spec, FloatAxioms.opp_spec, Prim2SF_minus_one.
  apply (SFmul_unit true), Prim2SF_valid.
Qed.

Lemma mul_finite_not_nan x y :
  is_finite x = true -> is_finite y = true -> is_nan (x * y) = false.
Proof. rewrite !is_finite_spec, is_nan_spec, FloatAxioms.mul_spec. apply SFmul_finite_not_nan. Qed.

Lemma add_finite_not_nan x y :
  is_finite x = true -> is_nan y = false -> is_nan (x + y) = false.
Proof. rewrite is_finite_spec, !is_nan_spec, FloatAxioms.add_spec. apply SFadd_finite_not_nan. Qed.

Lemma sub_finite_not_nan x y :
  is_finite x = true -> is_nan y = false -> is_nan (x - y) = false.
Proof. rewrite is_finite_spec, !is_nan_spec, FloatAxioms.sub_spec. apply SFsub_finite_not_nan. Qed.

Lemma opp_finite x : is_finite (- x) = is_finite x.
Proof. rewrite !is_finite_spec, FloatAxioms.opp_spec. now destruct (Prim2SF x). Qed.

(** A number between two finite numbers is finite. *)
Lemma between_finite lo x hi :
  is_finite lo = true -> is_finite hi = true ->
  (lo <=? x) = true -> (x <=? hi) = true -> is_finite x = true.
Proof.
  rewrite !is_finite_spec, !FloatAxioms.leb_spec.
  destruct (Prim2SF lo) as [?|?| |[] ? ?], (Prim2SF x) as [?|[]| |? ? ?],
    (Prim2SF hi) as [?|?| |[] ? ?]; simpl; auto; discriminate.
Qed.

(** The order is the one of the signs. *)
Lemma sided_leb x y :
  sided true x = true -> sided false y = true -> (x <=? y) = true.
Proof.
  rewrite !sided_spec, FloatAxioms.leb_spec.
  destruct (Prim2SF x) as [?|[]| |[] ? ?], (Prim2SF y) as [?|[]| |[] ? ?];
    simpl; auto; discriminate.
Qed.

Lemma sided_leb_trans (s : bool) (x y : double) :
  (if s then y <=? x else x <=? y) = true -> sided s x = true ->
  sided s y = true.
Proof.
  rewrite !sided_spec. destruct s; rewrite FloatAxioms.leb_spec;
    destruct (Prim2SF x) as [?|[]| |[] ? ?], (Prim2SF y) as [?|[]| |[] ? ?];
    simpl; auto; discriminate.
Qed.

Lemma leb_ltb_trans x y z :
  (x <=? y) = true -> (y <? z) = true -> (x <? z) = true.
Proof. rewrite FloatAxioms.leb_spec, !FloatAxioms.ltb_spec. apply SFleb_SFltb_trans. Qed.

Lemma ltb_asym x y : (x <? y) = true -> (y <? x) = false.
Proof. rewrite !FloatAxioms.ltb_spec. apply SFltb_asym. Qed.

Lemma leb_ltb_false x y : (x <=? y) = true -> (y <? x) = false.
Proof. rewrite FloatAxioms.leb_spec, FloatAxioms.ltb_spec. apply SFleb_SFltb_false. Qed.

Lemma sided_opp s x : sided s (- x) = sided (negb s) x.
Proof.
  rewrite !sided_spec, FloatAxioms.opp_spec.
  destruct (Prim2SF x) as [sx|sx| |sx m e]; simpl; auto; now destruct sx, s.
Qed.

Lemma sided_zero s : sided s 0 = true.
Proof. now destruct s. Qed.

Lemma is_nan_true x : is_nan x = true -> x = nan.
Proof.
  rewrite is_nan_spec. intros H. apply Prim2SF_inj.
  destruct (Prim2SF x); try discriminate. reflexivity.
Qed.

Lemma ltb_leb_trans x y z :
  (x <? y) = true -> (y <=? z) = true -> (x <? z) = true.
Proof. rewrite FloatAxioms.leb_spec, !FloatAxioms.ltb_spec. apply SFltb_SFleb_trans. Qed.

Lemma is_nan_opp x : is_nan (- x) = is_nan x.
Proof. rewrite !is_nan_spec, FloatAxioms.opp_spec. now destruct (Prim2SF x). Qed.

Lemma sub_not_nan_inv x y :
  is_nan (x - y) = false -> is_nan x = false /\ is_nan y = false.
Proof. rewrite !is_nan_spec, FloatAxioms.sub_spec. apply SFsub_not_nan_inv. Qed.

(** A difference of two products with known signs, with NaN masked to zero
    as the position controller does. *)
Lemma masked_sub_sided s a b :
  is_nan a || sided s a = true -> is_nan b || sided (negb s) b = true ->
  sided s (if is_nan (a - b) then 0 else a - b) = true.
Proof.
  intros Ha Hb. destruct (is_nan (a - b)) eqn:E; [apply sided_zero|].
  destruct (sub_not_nan_inv _ _ E) as [Na Nb]. rewrite Na in Ha. rewrite Nb in Hb.
  now apply sub_sided.
Qed.

(** *** Zeros and small integers *)

Lemma of_uint63_small z :
  (0 < z < 2 ^ 53)%Z ->
  exists m e, Prim2SF (of_uint63 (Uint63.of_Z z)) = S754_finite false m e.
Proof.
  intros Hz. rewrite of_uint63_spec, Uint63.of_Z_spec.
  rewrite Z.mod_small
    by (unfold Uint63.wB, Uint63.size; change (2 ^ Z.of_nat 63)%Z
          with 9223372036854775808%Z; change (2 ^ 53)%Z
          with 9007199254740992%Z in Hz; lia).
  destruct z as [|p|p]; try lia. cbn [binary_normalize].
  apply binary_round_small.
  pose proof (digits2_pos_bounds p) as [Hlo _].
  destruct (Z_le_gt_dec (Z.pos (digits2_pos p)) 53) as [Hle|Hgt]; [exact Hle|].
  assert (2 ^ 53 <= 2 ^ (Z.pos (digits2_pos p) - 1))%Z
    by (apply Z.pow_le_mono_r; lia).
  lia.
Qed.

Lemma zero_div_pos x m e :
  Prim2SF x = S754_finite false m e -> 0 / x = 0.
Proof.
  intros Hx. apply Prim2SF_inj.
  rewrite FloatAxioms.div_spec, Hx, Prim2SF_zero. reflexivity.
Qed.

Lemma mul_zero_r x :
  is_finite x = true -> exists s, Prim2SF (x * 0) = S754_zero s.
Proof.
  rewrite is_finite_spec, FloatAxioms.mul_spec, Prim2SF_zero.
  destruct (Prim2SF x) as [sx|sx| |sx m e]; simpl; try discriminate; eauto.
Qed.

(** Adding a zero of either sign gives back the same number. *)
Lemma add_zero_eqb x z s :
  is_nan x = false -> Prim2SF z = S754_zero s -> (x + z =? x) = true.
Proof.
  rewrite is_nan_spec, FloatAxioms.eqb_spec, FloatAxioms.add_spec.
  intros Hx ->. unfold SFeqb.
  destruct (Prim2SF x) as [sx|sx| |sx m e] eqn:E; try discriminate.
  - destruct sx, s; reflexivity.
  - destruct sx; reflexivity.
  - change (SF64add (S754_finite sx m e) (S754_zero s))
      with (S754_finite sx m e).
    now rewrite SFcompare_refl.
Qed.

End IEEE.




Import IEEE.
Local Open Scope float_scope.

(** ** Eigen vectors

    [Vector] is [Eigen::Matrix<double, N_JOINTS, 1>]; the operations below are
    the coefficient-wise ones the driver uses. *)
Abbreviation Vector := (list float).

#[global] Instance double_inhabited : Inhabited double := populate nan.

Definition Constant (n : nat) (x : double) : Vector := replicate n x.
Definition Zero (n : nat) : Vector := Constant n 0.

Definition vadd (a b : Vector) : Vector := zip_with PrimFloat.add a b.
Definition vsub (a b : Vector) : Vector := zip_with PrimFloat.sub a b.
Definition cwiseProduct (a b : Vector) : Vector := zip_with PrimFloat.mul a b.
Definition scale (a : Vector) (k : double) : Vector := (fun x => x * k) <$> a.
Definition cwiseAbs (a : Vector) : Vector := abs <$> a.

(** [v.array().isNaN()], [mask.all()] and [mask.select(a, b)]. *)
Definition isNaN (v : Vector) : list bool := is_nan <$> v.
Definition all (mask : list bool) : bool := forallb id mask.
Definition select (mask : list bool) (a b : Vector) : Vector :=
  zip_with (fun (m : bool) (ab : double * double) => if m then ab.1 else ab.2)
           mask (zip a b).
Definition select_scalar (mask : list bool) (a : double) (b : Vector) : Vector :=
  zip_with (fun (m : bool) (y : double) => if m then a else y) mask b.

(** [v.isZero()]: every coefficient is within Eigen's [dummy_precision] of
    zero, [abs(x) <= abs(1) * 1e-12]. *)
Definition dummy_precision : double := 0x1.19799812dea11p-40.
Definition isZero (v : Vector) : bool :=
  forallb (fun x => abs x <=? abs 1 * dummy_precision) v.

(** [v.maxCoeff()]: a left-to-right reduction with [(a < b) ? b : a]. *)
Definition maxCoeff (v : Vector) : double :=
  match v with
  | [] => nan
  | x :: r => fold_left (fun a b => if a <? b then b else a) r x
  end.

(** Modelled from the spec: the helper [clamp(vector, lower, upper)] is
    defined in a header of its own, outside the verified sources; the
    pipeline uses it to "clamp to +-max_torque", which is the coefficient-wise
    saturation below (a NaN coefficient stays NaN, as no comparison with it
    holds). *)
Definition clamp1 (x lower_limit upper_limit : double) : double :=
  if x <? lower_limit then lower_limit
  else if upper_limit <? x then upper_limit
  else x.

Definition clamp (v : Vector) (lower_limit upper_limit : double) : Vector :=
  (fun x => clamp1 x lower_limit upper_limit) <$> v.

(** ** Actions and observations *)

(** Modelled from the spec: the [Action] type and its factories belong to the
    robot interface library; an action has a per-joint torque, a position
    target that is NaN when unset, and gain overrides that are NaN when
    unset. *)
Module Action.
Record t : Type := Build {
  torque : Vector;
  position : Vector;
  position_kp : Vector;
  position_kd : Vector
}.

Definition None (n : nat) : Vector := Constant n nan.

(** A pure torque command: what a [Vector] converts to when it is passed
    where an action is expected. *)
Definition Torque (n : nat) (tau : Vector) : t :=
  Build tau (None n) (None n) (None n).

(** A pure position command: zero torque, default gains. *)
Definition Position (n : nat) (pos : Vector) : t :=
  Build (Zero n) pos (None n) (None n).

Definition set_torque (v : Vector) (a : t) : t :=
  Build v (position a) (position_kp a) (position_kd a).
Definition set_position (v : Vector) (a : t) : t :=
  Build (torque a) v (position_kp a) (position_kd a).
Definition set_position_kp (v : Vector) (a : t) : t :=
  Build (torque a) (position a) v (position_kd a).
Definition set_position_kd (v : Vector) (a : t) : t :=
  Build (torque a) (position a) (position_kp a) v.

(** Every field has one coefficient per joint. *)
Definition wf (n : nat) (a : t) : Prop :=
  length (torque a) = n /\ length (position a) = n /\
  length (position_kp a) = n /\ length (position_kd a) = n.
End Action.

(** Modelled from the spec: the observation type of the robot interface
    library, a snapshot of the measured position, velocity and torque of
    every joint. *)
Module Observation.
Record t : Type := Build {
  position : Vector;
  velocity : Vector;
  torque : Vector
}.

Definition wf (n : nat) (o : t) : Prop :=
  length (position o) = n /\ length (velocity o) = n /\
  length (torque o) = n.
End Observation.

(** ** The action-processing pipeline: [process_desired_action] *)
Section Pipeline.

Variable N_JOINTS : nat.

Section Process.

Variables (desired_action : Action.t) (latest_observation : Observation.t).
Variable max_torque_Nm : double.
Variables safety_kd default_position_control_kp default_position_control_kd : Vector.
Variables lower_position_limits upper_position_limits : Vector.

(** The lambda [set_limit_action(sign, limit)], for joint [i]. *)
Definition set_limit_action (i : nat) (sign limit : double)
    (processed_action : Action.t) : Action.t :=
  let a1 :=
    if 0 <? (Action.torque processed_action !!! i) * sign
    then Action.set_torque (<[i := 0]> (Action.torque processed_action))
                           processed_action
    else processed_action in
  let a2 :=
    if is_nan (Action.position a1 !!! i)
    then Action.set_position (<[i := limit]> (Action.position a1)) a1
    else a1 in
  let a3 :=
    Action.set_position_kp
      (<[i := default_position_control_kp !!! i]> (Action.position_kp a2)) a2 in
  Action.set_position_kd
    (<[i := default_position_control_kd !!! i]> (Action.position_kd a3)) a3.

(** The clamp of the position command of joint [i]. *)
Definition clamp_position_command (i : nat) (processed_action : Action.t)
    : Action.t :=
  if Action.position processed_action !!! i <? lower_position_limits !!! i
  then Action.set_position
         (<[i := lower_position_limits !!! i]> (Action.position processed_action))
         processed_action
  else if upper_position_limits !!! i <? Action.position processed_action !!! i
  then Action.set_position
         (<[i := upper_position_limits !!! i]> (Action.position processed_action))
         processed_action
  else processed_action.

(** One iteration of the loop over the joints. *)
Definition position_limits_body (processed_action : Action.t) (i : nat)
    : Action.t :=
  let a := clamp_position_command i processed_action in
  if Observation.position latest_observation !!! i <? lower_position_limits !!! i
  then set_limit_action i (-1) (lower_position_limits !!! i) a
  else if upper_position_limits !!! i <? Observation.position latest_observation !!! i
  then set_limit_action i 1 (upper_position_limits !!! i) a
  else a.

Definition position_limits (processed_action : Action.t) : Action.t :=
  fold_left position_limits_body (seq 0 N_JOINTS) processed_action.

(** The guard of the position controller:
    [!processed_action.position.array().isNaN().all()]. *)
Definition position_controller_runs (processed_action : Action.t) : bool :=
  negb (all (isNaN (Action.position processed_action))).

Definition position_controller (processed_action : Action.t) : Action.t :=
  if position_controller_runs processed_action then
    let kp := select (isNaN (Action.position_kp processed_action))
                     default_position_control_kp
                     (Action.position_kp processed_action) in
    let kd := select (isNaN (Action.position_kd processed_action))
                     default_position_control_kd
                     (Action.position_kd processed_action) in
    let position_error :=
      vsub (Action.position processed_action)
           (Observation.position latest_observation) in
    let position_control_torque :=
      vsub (cwiseProduct kp position_error)
           (cwiseProduct kd (Observation.velocity latest_observation)) in
    let position_control_torque :=
      select_scalar (isNaN position_control_torque) 0 position_control_torque in
    Action.Build (vadd (Action.torque processed_action) position_control_torque)
                 (Action.position processed_action) kp kd
  else processed_action.

Definition safety_checks (processed_action : Action.t) : Action.t :=
  let t1 := clamp (Action.torque processed_action)
                  (- max_torque_Nm) max_torque_Nm in
  let t2 := vsub t1 (cwiseProduct safety_kd
                                  (Observation.velocity latest_observation)) in
  let t3 := clamp t2 (- max_torque_Nm) max_torque_Nm in
  Action.set_torque t3 processed_action.

Definition process_desired_action : Action.t :=
  safety_checks (position_controller (position_limits desired_action)).

End Process.
End Pipeline.

(** ** The pipeline, joint by joint

    Every step of [process_desired_action] acts on each joint separately,
    apart from the guard of the position controller.  [Joint.t] gathers the
    coefficients of one joint, and the functions below are the per-joint
    reading of the loop body; the lemmas that follow relate them to the
    vector code. *)
Module Joint.
Record t : Type := Build {
  torque : double;
  position : double;
  position_kp : double;
  position_kd : double
}.

Definition of_action (a : Action.t) (i : nat) : t :=
  Build (Action.torque a !!! i) (Action.position a !!! i)
        (Action.position_kp a !!! i) (Action.position_kd a !!! i).

(** The joint after [set_limit_action(sign, limit)]. *)
Definition set_limit_action (default_kp default_kd sign limit : double)
    (j : t) : t :=
  Build (if 0 <? torque j * sign then 0 else torque j)
        (if is_nan (position j) then limit else position j)
        default_kp default_kd.

(** The joint after one iteration of the position-limit loop. *)
Definition position_limits (measured lower upper default_kp default_kd : double)
    (j : t) : t :=
  let j1 := Build (torque j) (clamp1 (position j) lower upper)
                  (position_kp j) (position_kd j) in
  if measured <? lower then set_limit_action default_kp default_kd (-1) lower j1
  else if upper <? measured then set_limit_action default_kp default_kd 1 upper j1
  else j1.

(** The torque the position controller adds for one joint. *)
Definition position_control_torque
    (measured velocity default_kp default_kd : double) (j : t) : double :=
  let kp := if is_nan (position_kp j) then default_kp else position_kp j in
  let kd := if is_nan (position_kd j) then default_kd else position_kd j in
  let pct := kp * (position j - measured) - kd * velocity in
  if is_nan pct then 0 else pct.

(** The torque after the two clamps and the velocity damping. *)
Definition safety_checks (max_torque_Nm safety_kd velocity tau : double)
    : double :=
  clamp1 (clamp1 tau (- max_torque_Nm) max_torque_Nm - safety_kd * velocity)
         (- max_torque_Nm) max_torque_Nm.
End Joint.

Section PipelineJoints.

Variable N_JOINTS : nat.
Variables (latest_observation : Observation.t).
Variable max_torque_Nm : double.
Variables safety_kd default_position_control_kp default_position_control_kd : Vector.
Variables lower_position_limits upper_position_limits : Vector.

Local Abbreviation body :=
  (position_limits_body latest_observation default_position_control_kp
     default_position_control_kd lower_position_limits upper_position_limits).
Local Abbreviation joint_limits i :=
  (Joint.position_limits
     (Observation.position latest_observation !!! i)
     (lower_position_limits !!! i) (upper_position_limits !!! i)
     (default_position_control_kp !!! i) (default_position_control_kd !!! i)).

Lemma set_limit_action_wf n i sign limit a :
  Action.wf n a ->
  Action.wf n (set_limit_action default_position_control_kp
                 default_position_control_kd i sign limit a).
Proof.
  intros (Ht & Hp & Hkp & Hkd). unfold set_limit_action, Action.wf.
  cbv zeta.
  repeat match goal with |- context [if ?c then _ else _] => destruct c end;
    simpl; rewrite ?length_insert; auto.
Qed.

Lemma clamp_position_command_wf n i a :
  Action.wf n a ->
  Action.wf n (clamp_position_command lower_position_limits
                 upper_position_limits i a).
Proof.
  intros (Ht & Hp & Hkp & Hkd). unfold clamp_position_command, Action.wf.
  repeat match goal with |- context [if ?c then _ else _] => destruct c end;
    simpl; rewrite ?length_insert; auto.
Qed.

Lemma position_limits_body_wf n a i : Action.wf n a -> Action.wf n (body a i).
Proof.
  intros H. unfold position_limits_body.
  repeat match goal with |- context [if ?c then _ else _] => destruct c end;
    auto using set_limit_action_wf, clamp_position_command_wf.
Qed.

Lemma insert_total_same (v : Vector) i x : i < length v -> <[i:=x]> v !!! i = x.
Proof. intros H. rewrite list_lookup_total_insert. case_decide; [done|lia]. Qed.

Lemma insert_total_other (v : Vector) i j x : i <> j -> <[i:=x]> v !!! j = v !!! j.
Proof. intros H. rewrite list_lookup_total_insert. case_decide; [lia|done]. Qed.

Lemma set_limit_action_same a i sign limit :
  Action.wf N_JOINTS a -> i < N_JOINTS ->
  Joint.of_action
    (set_limit_action default_position_control_kp default_position_control_kd
       i sign limit a) i
  = Joint.set_limit_action (default_position_control_kp !!! i)
      (default_position_control_kd !!! i) sign limit (Joint.of_action a i).
Proof.
  intros (Ht & Hp & Hkp & Hkd) Hi.
  unfold set_limit_action, Joint.set_limit_action, Joint.of_action. simpl.
  destruct (0 <? Action.torque a !!! i * sign); simpl;
    destruct (is_nan (Action.position a !!! i)); simpl;
    rewrite ?insert_total_same by lia; reflexivity.
Qed.

Lemma clamp_position_command_same a i :
  Action.wf N_JOINTS a -> i < N_JOINTS ->
  Joint.of_action
    (clamp_position_command lower_position_limits upper_position_limits i a) i
  = Joint.Build (Action.torque a !!! i)
      (clamp1 (Action.position a !!! i) (lower_position_limits !!! i)
         (upper_position_limits !!! i))
      (Action.position_kp a !!! i) (Action.position_kd a !!! i).
Proof.
  intros (Ht & Hp & Hkp & Hkd) Hi.
  unfold clamp_position_command, clamp1, Joint.of_action.
  destruct (Action.position a !!! i <? lower_position_limits !!! i); simpl;
    [|destruct (upper_position_limits !!! i <? Action.position a !!! i); simpl];
    rewrite ?insert_total_same by lia; reflexivity.
Qed.

(** The loop body changes joint [i] as [Joint.position_limits] says ... *)
Lemma position_limits_body_same a i :
  Action.wf N_JOINTS a -> i < N_JOINTS ->
  Joint.of_action (body a i) i = joint_limits i (Joint.of_action a i).
Proof.
  intros Hwf Hi.
  pose proof (clamp_position_command_wf N_JOINTS i a Hwf) as Hwf'.
  unfold position_limits_body, Joint.position_limits.
  destruct (_ <? lower_position_limits !!! i);
    [|destruct (upper_position_limits !!! i <? _)];
    rewrite ?set_limit_action_same by assumption;
    rewrite clamp_position_command_same by assumption; reflexivity.
Qed.

(** ... and leaves every other joint alone. *)
Lemma position_limits_body_other a i j :
  i <> j -> Joint.of_action (body a i) j = Joint.of_action a j.
Proof.
  intros Hij.
  unfold position_limits_body, clamp_position_command, set_limit_action,
    Joint.of_action.
  repeat match goal with
         | |- context [if ?c then _ else _] => destruct c
         end;
    simpl; rewrite ?insert_total_other by done; reflexivity.
Qed.

Lemma position_limits_prefix a k :
  Action.wf N_JOINTS a -> k <= N_JOINTS ->
  let a' := fold_left body (seq 0 k) a in
  Action.wf N_JOINTS a' /\
  forall i, i < N_JOINTS ->
    Joint.of_action a' i =
      if decide (i < k) then joint_limits i (Joint.of_action a i)
      else Joint.of_action a i.
Proof.
  intros Hwf. induction k as [|k IH]; intros Hk; cbv zeta.
  - split; [done|]. intros i _. destruct (decide (i < 0)); [lia|done].
  - destruct IH as [IHwf IHj]; [lia|]. cbv zeta in IHwf, IHj.
    rewrite seq_S, fold_left_app. simpl fold_left. split.
    + now apply position_limits_body_wf.
    + intros i Hi. destruct (decide (i = k)) as [->|Hne].
      * rewrite position_limits_body_same by (auto; lia).
        rewrite IHj by lia.
        destruct (decide (k < k)), (decide (k < S k)); try lia. reflexivity.
      * rewrite position_limits_body_other by congruence.
        rewrite IHj by lia.
        destruct (decide (i < k)), (decide (i < S k)); try lia; reflexivity.
Qed.

Lemma position_limits_wf a :
  Action.wf N_JOINTS a ->
  Action.wf N_JOINTS
    (position_limits N_JOINTS latest_observation default_position_control_kp
       default_position_control_kd lower_position_limits upper_position_limits a).
Proof. intros H. now apply (position_limits_prefix a N_JOINTS). Qed.

(** The whole loop, read at joint [i]. *)
Lemma position_limits_joint a i :
  Action.wf N_JOINTS a -> i < N_JOINTS ->
  Joint.of_action
    (position_limits N_JOINTS latest_observation default_position_control_kp
       default_position_control_kd lower_position_limits upper_position_limits a) i
  = joint_limits i (Joint.of_action a i).
Proof.
  intros H Hi.
  destruct (position_limits_prefix a N_JOINTS H (le_n _)) as [_ Hj].
  cbv zeta in Hj. unfold position_limits. rewrite (Hj i Hi).
  destruct (decide (i < N_JOINTS)); [done|lia].
Qed.

End PipelineJoints.

(** *** Coefficients of the vector operations *)
Section VectorLookup.

Variables (a b : Vector) (i : nat).
Hypotheses (Ha : i < length a) (Hb : i < length b).

Lemma vadd_lookup : vadd a b !!! i = a !!! i + b !!! i.
Proof. unfold vadd. now apply lookup_total_zip_with. Qed.

Lemma vsub_lookup : vsub a b !!! i = a !!! i - b !!! i.
Proof. unfold vsub. now apply lookup_total_zip_with. Qed.

Lemma cwiseProduct_lookup : cwiseProduct a b !!! i = a !!! i * b !!! i.
Proof. unfold cwiseProduct. now apply lookup_total_zip_with. Qed.

Lemma isNaN_lookup : isNaN a !!! i = is_nan (a !!! i).
Proof. unfold isNaN. now apply list_lookup_total_fmap. Qed.

Lemma clamp_lookup lo hi : clamp a lo hi !!! i = clamp1 (a !!! i) lo hi.
Proof.
  unfold clamp. now apply (list_lookup_total_fmap (fun x => clamp1 x lo hi)).
Qed.

Lemma scale_lookup k : scale a k !!! i = a !!! i * k.
Proof. unfold scale. now apply (list_lookup_total_fmap (fun x => x * k)). Qed.

Lemma select_lookup (mask : list bool) :
  i < length mask ->
  select mask a b !!! i = if (mask !!! i : bool) then a !!! i else b !!! i.
Proof.
  intros Hm. unfold select.
  assert (Hz : zip a b !!! i = (a !!! i, b !!! i))
    by (now apply lookup_total_zip_with).
  assert (Hs : forall ab : double * double,
            zip a b !!! i = ab ->
            zip_with (fun (m : bool) (ab : double * double) =>
                        if m then ab.1 else ab.2) mask (zip a b) !!! i
            = if (mask !!! i : bool) then ab.1 else ab.2).
  { intros ab <-.
    apply (lookup_total_zip_with
             (fun (m : bool) (ab : double * double) => if m then ab.1 else ab.2));
      [exact Hm|]. rewrite length_zip_with. lia. }
  apply (Hs _ Hz).
Qed.

Lemma select_scalar_lookup (mask : list bool) (x : double) :
  i < length mask ->
  select_scalar mask x a !!! i = if (mask !!! i : bool) then x else a !!! i.
Proof.
  intros Hm. unfold select_scalar.
  now apply (lookup_total_zip_with
               (fun (m : bool) (y : double) => if m then x else y)).
Qed.

End VectorLookup.

Lemma length_vadd a b : length (vadd a b) = length a `min` length b.
Proof. apply length_zip_with. Qed.
Lemma length_vsub a b : length (vsub a b) = length a `min` length b.
Proof. apply length_zip_with. Qed.
Lemma length_cwiseProduct a b :
  length (cwiseProduct a b) = length a `min` length b.
Proof. apply length_zip_with. Qed.
Lemma length_isNaN a : length (isNaN a) = length a.
Proof. apply length_fmap. Qed.
Lemma length_clamp a lo hi : length (clamp a lo hi) = length a.
Proof. apply length_fmap. Qed.
Lemma length_scale a k : length (scale a k) = length a.
Proof. apply length_fmap. Qed.
Lemma length_select m a b :
  length (select m a b) = length m `min` (length a `min` length b).
Proof. unfold select. now rewrite !length_zip_with. Qed.
Lemma length_select_scalar m x a :
  length (select_scalar m x a) = length m `min` length a.
Proof. apply length_zip_with. Qed.
Lemma length_Constant n x : length (Constant n x) = n.
Proof. apply length_replicate. Qed.

Lemma Constant_lookup n x i : i < n -> Constant n x !!! i = x.
Proof. intros H. now apply lookup_total_replicate_2. Qed.

(** [mask.all()] fails exactly when some coefficient is false. *)
Lemma all_isNaN_false (v : Vector) :
  all (isNaN v) = false <-> exists i, i < length v /\ is_nan (v !!! i) = false.
Proof.
  unfold all, isNaN. induction v as [|x v IH]; simpl.
  - split; [discriminate|]. intros (i & Hi & _). lia.
  - unfold id at 1. destruct (is_nan x) eqn:Hx; simpl.
    + rewrite IH. split.
      * intros (i & Hi & Hn). exists (S i). split; [lia|exact Hn].
      * intros ([|i] & Hi & Hn); [simpl in Hn; congruence|].
        exists i. split; [lia|exact Hn].
    + split; [|reflexivity]. intros _. exists 0%nat. split; [lia|exact Hx].
Qed.

(** *** The position controller on any action *)
Section PositionController.

Variable N_JOINTS : nat.
Variables (latest_observation : Observation.t).
Variables default_position_control_kp default_position_control_kd : Vector.
Variable a : Action.t.

Hypothesis Ha : Action.wf N_JOINTS a.
Hypothesis Hobs : Observation.wf N_JOINTS latest_observation.
Hypothesis Hkp : length default_position_control_kp = N_JOINTS.
Hypothesis Hkd : length default_position_control_kd = N_JOINTS.

Lemma position_controller_torque i :
  i < N_JOINTS ->
  position_controller_runs a = true ->
  Action.torque
    (position_controller latest_observation default_position_control_kp
       default_position_control_kd a) !!! i
  = Action.torque a !!! i +
    Joint.position_control_torque
      (Observation.position latest_observation !!! i)
      (Observation.velocity latest_observation !!! i)
      (default_position_control_kp !!! i) (default_position_control_kd !!! i)
      (Joint.of_action a i).
Proof.
  intros Hi Hrun. destruct Ha as (Ht & Hp & Hgp & Hgd).
  destruct Hobs as (Hop & Hov & _).
  unfold position_controller. rewrite Hrun.
  cbv zeta. simpl Action.torque.
  set (kp := select _ default_position_control_kp _).
  set (kd := select _ default_position_control_kd _).
  assert (Lkp : length kp = N_JOINTS)
    by (unfold kp; rewrite length_select, length_isNaN; lia).
  assert (Lkd : length kd = N_JOINTS)
    by (unfold kd; rewrite length_select, length_isNaN; lia).
  set (pct := vsub _ _).
  assert (Lpct : length pct = N_JOINTS)
    by (unfold pct; rewrite length_vsub, !length_cwiseProduct, length_vsub; lia).
  rewrite vadd_lookup
    by (rewrite ?length_select_scalar, ?length_isNaN; lia).
  rewrite select_scalar_lookup by (rewrite ?length_isNaN; lia).
  rewrite isNaN_lookup by lia.
  unfold pct.
  rewrite vsub_lookup by (rewrite ?length_cwiseProduct, ?length_vsub; lia).
  rewrite !cwiseProduct_lookup by (rewrite ?length_vsub; lia).
  rewrite vsub_lookup by lia.
  unfold kp, kd.
  rewrite !select_lookup by (rewrite ?length_isNaN; lia).
  rewrite !isNaN_lookup by lia.
  reflexivity.
Qed.

Lemma position_controller_idle :
  position_controller_runs a = false ->
  position_controller latest_observation default_position_control_kp
    default_position_control_kd a = a.
Proof. intros Hrun. unfold position_controller. now rewrite Hrun. Qed.

Lemma position_controller_torque_length :
  length (Action.torque
            (position_controller latest_observation
               default_position_control_kp default_position_control_kd a))
  = N_JOINTS.
Proof.
  destruct Ha as (Ht & Hp & Hgp & Hgd). destruct Hobs as (Hop & Hov & _).
  unfold position_controller.
  destruct (position_controller_runs a); [|exact Ht].
  cbv zeta. simpl.
  rewrite length_vadd, length_select_scalar, length_isNaN, length_vsub,
    !length_cwiseProduct, !length_select, !length_isNaN, length_vsub. lia.
Qed.

End PositionController.

(** The arguments of [process_desired_action] all have [N_JOINTS]
    coefficients. *)
Definition pipeline_wf (N_JOINTS : nat) (desired_action : Action.t)
    (latest_observation : Observation.t)
    (safety_kd default_position_control_kp default_position_control_kd
       lower_position_limits upper_position_limits : Vector) : Prop :=
  Action.wf N_JOINTS desired_action /\
  Observation.wf N_JOINTS latest_observation /\
  length safety_kd = N_JOINTS /\
  length default_position_control_kp = N_JOINTS /\
  length default_position_control_kd = N_JOINTS /\
  length lower_position_limits = N_JOINTS /\
  length upper_position_limits = N_JOINTS.

Section PipelineSteps.

Variable N_JOINTS : nat.
Variables (desired_action : Action.t) (latest_observation : Observation.t).
Variable max_torque_Nm : double.
Variables safety_kd default_position_control_kp default_position_control_kd : Vector.
Variables lower_position_limits upper_position_limits : Vector.

Hypothesis Hwf :
  pipeline_wf N_JOINTS desired_action latest_observation safety_kd
    default_position_control_kp default_position_control_kd
    lower_position_limits upper_position_limits.

(** The action after the position-limit loop, after the position controller,
    and at the end. *)
Definition limited_action : Action.t :=
  position_limits N_JOINTS latest_observation default_position_control_kp
    default_position_control_kd lower_position_limits upper_position_limits
    desired_action.

Definition controlled_action : Action.t :=
  position_controller latest_observation default_position_control_kp
    default_position_control_kd limited_action.

Definition processed_action : Action.t :=
  process_desired_action N_JOINTS desired_action latest_observation
    max_torque_Nm safety_kd default_position_control_kp
    default_position_control_kd lower_position_limits upper_position_limits.

(** Joint [i] after the position-limit loop. *)
Definition limited_joint (i : nat) : Joint.t :=
  Joint.position_limits
    (Observation.position latest_observation !!! i)
    (lower_position_limits !!! i) (upper_position_limits !!! i)
    (default_position_control_kp !!! i) (default_position_control_kd !!! i)
    (Joint.of_action desired_action i).

(** What the position controller adds to the torque of joint [i]. *)
Definition control_torque (i : nat) : double :=
  Joint.position_control_torque
    (Observation.position latest_observation !!! i)
    (Observation.velocity latest_observation !!! i)
    (default_position_control_kp !!! i) (default_position_control_kd !!! i)
    (limited_joint i).

Lemma limited_action_wf : Action.wf N_JOINTS limited_action.
Proof. apply position_limits_wf, Hwf. Qed.

Lemma limited_action_joint i :
  i < N_JOINTS -> Joint.of_action limited_action i = limited_joint i.
Proof. intros Hi. apply position_limits_joint; [apply Hwf|exact Hi]. Qed.

Lemma controlled_action_position :
  Action.position controlled_action = Action.position limited_action.
Proof.
  unfold controlled_action, position_controller.
  now destruct (position_controller_runs limited_action).
Qed.

Lemma controlled_action_torque i :
  i < N_JOINTS ->
  Action.torque controlled_action !!! i =
    if position_controller_runs limited_action
    then Joint.torque (limited_joint i) + control_torque i
    else Joint.torque (limited_joint i).
Proof.
  intros Hi. pose proof limited_action_wf as Hl.
  destruct Hwf as (_ & Ho & _ & Hdkp & Hdkd & _).
  pose proof (limited_action_joint i Hi) as Hj.
  unfold control_torque. rewrite <- Hj. unfold controlled_action.
  destruct (position_controller_runs limited_action) eqn:Hrun.
  - now apply (position_controller_torque N_JOINTS).
  - now rewrite position_controller_idle.
Qed.

Lemma processed_action_position :
  Action.position processed_action = Action.position limited_action.
Proof.
  unfold processed_action, process_desired_action, safety_checks. simpl.
  apply controlled_action_position.
Qed.

Lemma controlled_action_torque_length :
  length (Action.torque controlled_action) = N_JOINTS.
Proof.
  destruct Hwf as (_ & Ho & _ & Hdkp & Hdkd & _).
  apply position_controller_torque_length; auto using limited_action_wf.
Qed.

Lemma processed_action_torque i :
  i < N_JOINTS ->
  Action.torque processed_action !!! i =
    Joint.safety_checks max_torque_Nm (safety_kd !!! i)
      (Observation.velocity latest_observation !!! i)
      (Action.torque controlled_action !!! i).
Proof.
  intros Hi. pose proof controlled_action_torque_length as Lt.
  destruct Hwf as (_ & (Hop & Hov & _) & Hs & _).
  unfold processed_action, process_desired_action, safety_checks,
    Joint.safety_checks. simpl Action.torque.
  fold limited_action. fold controlled_action.
  rewrite clamp_lookup
    by (rewrite length_vsub, length_clamp, length_cwiseProduct; lia).
  rewrite vsub_lookup by (rewrite ?length_clamp, ?length_cwiseProduct; lia).
  rewrite clamp_lookup by lia.
  rewrite cwiseProduct_lookup by lia.
  reflexivity.
Qed.

End PipelineSteps.

(** ** Properties of the clamp *)

Lemma clamp1_not_nan x lo hi :
  is_nan x = false -> is_nan (clamp1 x lo hi) = false.
Proof.
  intros Hx. unfold clamp1.
  destruct (x <? lo) eqn:H1; [now destruct (ltb_not_nan _ _ H1)|].
  destruct (hi <? x) eqn:H2; [now destruct (ltb_not_nan _ _ H2)|exact Hx].
Qed.

Lemma clamp1_nan lo hi : clamp1 nan lo hi = nan.
Proof.
  unfold clamp1.
  destruct (nan <? lo) eqn:H1; [now destruct (ltb_not_nan _ _ H1)|].
  destruct (hi <? nan) eqn:H2; [now destruct (ltb_not_nan _ _ H2)|reflexivity].
Qed.

Lemma clamp1_bounds x lo hi :
  is_nan x = false -> (lo <=? hi) = true ->
  (lo <=? clamp1 x lo hi) = true /\ (clamp1 x lo hi <=? hi) = true.
Proof.
  intros Hx Hle. destruct (leb_not_nan _ _ Hle) as [Hlo Hhi]. unfold clamp1.
  destruct (x <? lo) eqn:H1; [auto using leb_refl|].
  destruct (hi <? x) eqn:H2; [auto using leb_refl|].
  split; apply ltb_false_leb; auto.
Qed.

(** The symmetric range [[-m, m]] is not empty when [0 <= m]. *)
Lemma symmetric_range m : (0 <=? m) = true -> (- m <=? m) = true.
Proof.
  intros Hm. apply sided_leb; [|exact Hm].
  rewrite sided_opp. exact Hm.
Qed.

Lemma clamp1_symmetric_finite x m :
  is_nan x = false -> is_finite m = true -> (0 <=? m) = true ->
  is_finite (clamp1 x (- m) m) = true /\
  (- m <=? clamp1 x (- m) m) = true /\ (clamp1 x (- m) m <=? m) = true.
Proof.
  intros Hx Hf Hm.
  destruct (clamp1_bounds x (- m) m Hx (symmetric_range m Hm)) as [H1 H2].
  split; [|auto]. apply (between_finite (- m) _ m); auto.
  now rewrite opp_finite.
Qed.

(** Clamping to [[-m, m]] keeps a number on its side of zero. *)
Lemma clamp1_sided s x m :
  sided s x = true -> (0 <=? m) = true -> sided s (clamp1 x (- m) m) = true.
Proof.
  intros Hx Hm. unfold clamp1.
  assert (Hneg : sided true (- m) = true) by (rewrite sided_opp; exact Hm).
  destruct s.
  - destruct (x <? - m); [exact Hneg|].
    rewrite (leb_ltb_false x m); [exact Hx|]. now apply sided_leb.
  - rewrite (leb_ltb_false (- m) x) by (now apply sided_leb).
    destruct (m <? x); [exact Hm|exact Hx].
Qed.

(** ** The position clamp *)
Section PositionClamp.

Variable N_JOINTS : nat.
Variables (desired_action : Action.t) (latest_observation : Observation.t).
Variable max_torque_Nm : double.
Variables safety_kd default_position_control_kp default_position_control_kd : Vector.
Variables lower_position_limits upper_position_limits : Vector.

(** C2. A position target that is set (not NaN) comes back clamped to the
    nearest bound of [[lower, upper]], hence within that range; the clamp
    step leaves an action whose target for the joint is NaN as it is. *)
Theorem position_target_clamped (i : nat) :
  pipeline_wf N_JOINTS desired_action latest_observation safety_kd
    default_position_control_kp default_position_control_kd
    lower_position_limits upper_position_limits ->
  i < N_JOINTS ->
  (is_nan (Action.position desired_action !!! i) = false ->
   (lower_position_limits !!! i <=? upper_position_limits !!! i) = true ->
   let p := Action.position
              (process_desired_action N_JOINTS desired_action
                 latest_observation max_torque_Nm safety_kd
                 default_position_control_kp default_position_control_kd
                 lower_position_limits upper_position_limits) !!! i in
   p = clamp1 (Action.position desired_action !!! i)
         (lower_position_limits !!! i) (upper_position_limits !!! i) /\
   (lower_position_limits !!! i <=? p) = true /\
   (p <=? upper_position_limits !!! i) = true) /\
  (forall a : Action.t,
     is_nan (Action.position a !!! i) = true ->
     clamp_position_command lower_position_limits upper_position_limits i a = a).
Proof.
  intros Hwf Hi. split.
  - intros Hp Hle. cbv zeta.
    fold (processed_action N_JOINTS desired_action latest_observation
            max_torque_Nm safety_kd default_position_control_kp
            default_position_control_kd lower_position_limits
            upper_position_limits).
    rewrite processed_action_position by exact Hwf.
    pose proof (limited_action_joint N_JOINTS desired_action latest_observation
                  safety_kd default_position_control_kp
                  default_position_control_kd lower_position_limits
                  upper_position_limits Hwf i Hi) as Hj.
    apply (f_equal Joint.position) in Hj. simpl in Hj. rewrite Hj.
    pose proof (clamp1_not_nan _ (lower_position_limits !!! i)
                  (upper_position_limits !!! i) Hp) as Hc.
    assert (Hpos : Joint.position
                     (limited_joint desired_action latest_observation
                        default_position_control_kp default_position_control_kd
                        lower_position_limits upper_position_limits i)
                   = clamp1 (Action.position desired_action !!! i)
                       (lower_position_limits !!! i)
                       (upper_position_limits !!! i)).
    { unfold limited_joint, Joint.position_limits, Joint.set_limit_action.
      destruct (_ <? lower_position_limits !!! i);
        [|destruct (upper_position_limits !!! i <? _)]; simpl;
        rewrite ?Hc; reflexivity. }
    rewrite Hpos. split; [reflexivity|]. now apply clamp1_bounds.
  - intros a Ha. unfold clamp_position_command.
    apply is_nan_true in Ha. rewrite Ha.
    destruct (nan <? _) eqn:H1; [now destruct (ltb_not_nan _ _ H1)|].
    destruct (_ <? nan) eqn:H2; [now destruct (ltb_not_nan _ _ H2)|].
    reflexivity.
Qed.

End PositionClamp.

(** The scenario of the specification: limits [[-1, 1]] on two joints and the
    targets [2] and [-2]. *)
Definition scenario_observation : Observation.t :=
  Observation.Build [0; 0] [0; 0] [0; 0].

Lemma scenario_clamp_wf :
  pipeline_wf 2 (Action.Position 2 [2; -2]) scenario_observation
    [0; 0] [1; 1] [0; 0] [-1; -1] [1; 1].
Proof. repeat split. Qed.

Lemma position_target_clamped_witness :
  Action.position
    (process_desired_action 2 (Action.Position 2 [2; -2]) scenario_observation
       1 [0; 0] [1; 1] [0; 0] [-1; -1] [1; 1]) !!! 0%nat
  = clamp1 2 (-1) 1.
Proof.
  destruct (position_target_clamped 2 (Action.Position 2 [2; -2])
              scenario_observation 1 [0; 0] [1; 1] [0; 0] [-1; -1] [1; 1]
              0%nat scenario_clamp_wf ltac:(lia)) as [H _].
  apply H; reflexivity.
Defined.

(** ** The position controller and the safety checks *)
Section Controller.

Variable N_JOINTS : nat.
Variables (desired_action : Action.t) (latest_observation : Observation.t).
Variable max_torque_Nm : double.
Variables safety_kd default_position_control_kp default_position_control_kd : Vector.
Variables lower_position_limits upper_position_limits : Vector.

Hypothesis Hwf :
  pipeline_wf N_JOINTS desired_action latest_observation safety_kd
    default_position_control_kp default_position_control_kd
    lower_position_limits upper_position_limits.

Local Abbreviation limited :=
  (limited_action N_JOINTS desired_action latest_observation
     default_position_control_kp default_position_control_kd
     lower_position_limits upper_position_limits).
Local Abbreviation controlled :=
  (controlled_action N_JOINTS desired_action latest_observation
     default_position_control_kp default_position_control_kd
     lower_position_limits upper_position_limits).
Local Abbreviation processed :=
  (process_desired_action N_JOINTS desired_action latest_observation
     max_torque_Nm safety_kd default_position_control_kp
     default_position_control_kd lower_position_limits upper_position_limits).
Local Abbreviation joint i :=
  (limited_joint desired_action latest_observation
     default_position_control_kp default_position_control_kd
     lower_position_limits upper_position_limits i).
Local Abbreviation pd_torque i :=
  (control_torque desired_action latest_observation
     default_position_control_kp default_position_control_kd
     lower_position_limits upper_position_limits i).

Lemma control_torque_not_nan i : is_nan (pd_torque i) = false.
Proof.
  unfold control_torque, Joint.position_control_torque. cbv zeta.
  match goal with |- context [if is_nan ?x then 0 else _] =>
    destruct (is_nan x) eqn:E; [reflexivity|exact E] end.
Qed.

Lemma control_torque_unset i :
  is_nan (Joint.position (joint i)) = true -> pd_torque i = 0.
Proof.
  intros H. apply is_nan_true in H.
  unfold control_torque, Joint.position_control_torque. cbv zeta. rewrite H.
  match goal with |- context [is_nan ?x] =>
    assert (Hn : is_nan x = true) end.
  { rewrite is_nan_spec, FloatAxioms.sub_spec, FloatAxioms.mul_spec,
      FloatAxioms.sub_spec.
    change (Prim2SF nan) with S754_nan.
    destruct (Prim2SF (Observation.position latest_observation !!! i));
      simpl; destruct (Prim2SF (if is_nan _ then _ else _)); reflexivity. }
  now rewrite Hn.
Qed.

(** The position controller runs exactly when the processed action holds a
    position target for some joint ... *)
Lemma position_controller_runs_iff :
  position_controller_runs limited = true <->
  exists i, i < N_JOINTS /\ is_nan (Joint.position (joint i)) = false.
Proof.
  pose proof (limited_action_wf N_JOINTS desired_action latest_observation
                safety_kd default_position_control_kp
                default_position_control_kd lower_position_limits
                upper_position_limits Hwf) as (_ & Hp & _).
  unfold position_controller_runs. rewrite negb_true_iff, all_isNaN_false.
  fold limited in Hp. rewrite Hp.
  split; intros (i & Hi & Hn); exists i; (split; [exact Hi|]).
  - rewrite <- (limited_action_joint _ _ _ _ _ _ _ _ Hwf i Hi). exact Hn.
  - rewrite <- (limited_action_joint _ _ _ _ _ _ _ _ Hwf i Hi) in Hn. exact Hn.
Qed.

(** ... which is a target of the desired action or one injected at a
    violated bound. *)
Lemma limited_position_unset i :
  is_nan (Joint.position (joint i)) = true <->
  is_nan (Action.position desired_action !!! i) = true /\
  (Observation.position latest_observation !!! i
     <? lower_position_limits !!! i) = false /\
  (upper_position_limits !!! i
     <? Observation.position latest_observation !!! i) = false.
Proof.
  unfold limited_joint, Joint.position_limits, Joint.set_limit_action.
  simpl Joint.position.
  destruct (is_nan (Action.position desired_action !!! i)) eqn:Hd.
  - apply is_nan_true in Hd. rewrite Hd, clamp1_nan.
    destruct (_ <? lower_position_limits !!! i) eqn:H1.
    + simpl. destruct (ltb_not_nan _ _ H1) as [_ ->]. intuition congruence.
    + destruct (upper_position_limits !!! i <? _) eqn:H2.
      * simpl. destruct (ltb_not_nan _ _ H2) as [-> _]. intuition congruence.
      * simpl. intuition congruence.
  - pose proof (clamp1_not_nan _ (lower_position_limits !!! i)
                  (upper_position_limits !!! i) Hd) as Hc.
    change (Joint.position (Joint.of_action desired_action i))
      with (Action.position desired_action !!! i).
    destruct (_ <? lower_position_limits !!! i);
      [|destruct (upper_position_limits !!! i <? _)]; simpl;
      rewrite ?Hc; intuition congruence.
Qed.

End Controller.

Section PipelineTheorems.

Variable N_JOINTS : nat.
Variables (desired_action : Action.t) (latest_observation : Observation.t).
Variable max_torque_Nm : double.
Variables safety_kd default_position_control_kp default_position_control_kd : Vector.
Variables lower_position_limits upper_position_limits : Vector.

Hypothesis Hwf :
  pipeline_wf N_JOINTS desired_action latest_observation safety_kd
    default_position_control_kp default_position_control_kd
    lower_position_limits upper_position_limits.

Local Abbreviation joint i :=
  (limited_joint desired_action latest_observation
     default_position_control_kp default_position_control_kd
     lower_position_limits upper_position_limits i).

(** The torque command of a joint after the position-limit loop is the
    desired one, or zero. *)
Lemma limited_torque_cases i :
  Joint.torque (joint i) = Action.torque desired_action !!! i \/
  Joint.torque (joint i) = 0.
Proof.
  unfold limited_joint, Joint.position_limits, Joint.set_limit_action.
  destruct (_ <? lower_position_limits !!! i);
    [|destruct (upper_position_limits !!! i <? _)]; simpl;
    try match goal with |- context [if ?c then _ else _] => destruct c end;
    auto.
Qed.

(** C4. Inside [process_desired_action] the position controller works on the
    action left by the position-limit loop.  It runs exactly when that action
    holds a position target (not NaN) for some joint.  When it runs, the
    torque of joint [i] grows by [kp * (target - measured position) - kd *
    measured velocity], with NaN gains replaced by the defaults, and by zero
    when that product is NaN, which it is for a joint without target; when it
    does not run, the action is unchanged. *)
Theorem position_controller_contribution (i : nat) :
  i < N_JOINTS ->
  let a := position_limits N_JOINTS latest_observation
             default_position_control_kp default_position_control_kd
             lower_position_limits upper_position_limits desired_action in
  let a' := position_controller latest_observation
              default_position_control_kp default_position_control_kd a in
  let kp := if is_nan (Action.position_kp a !!! i)
            then default_position_control_kp !!! i
            else Action.position_kp a !!! i in
  let kd := if is_nan (Action.position_kd a !!! i)
            then default_position_control_kd !!! i
            else Action.position_kd a !!! i in
  let pd := kp * (Action.position a !!! i
                  - Observation.position latest_observation !!! i)
            - kd * Observation.velocity latest_observation !!! i in
  process_desired_action N_JOINTS desired_action latest_observation
    max_torque_Nm safety_kd default_position_control_kp
    default_position_control_kd lower_position_limits upper_position_limits
  = safety_checks latest_observation max_torque_Nm safety_kd a' /\
  (position_controller_runs a = true <->
   exists k, k < N_JOINTS /\ is_nan (Action.position a !!! k) = false) /\
  (position_controller_runs a = true ->
   Action.torque a' !!! i
   = Action.torque a !!! i + (if is_nan pd then 0 else pd)) /\
  (position_controller_runs a = false -> a' = a) /\
  (is_nan (Action.position a !!! i) = true -> is_nan pd = true).
Proof.
  intros Hi a a' kp kd pd.
  assert (Ha : Action.wf N_JOINTS a) by (apply position_limits_wf, Hwf).
  destruct Hwf as (_ & Ho & _ & Hdkp & Hdkd & _).
  split; [reflexivity|]. split; [|split; [|split]].
  - unfold position_controller_runs. rewrite negb_true_iff, all_isNaN_false.
    destruct Ha as (_ & -> & _). reflexivity.
  - intros Hrun. unfold a'.
    rewrite (position_controller_torque N_JOINTS) by assumption. reflexivity.
  - intros Hrun. now apply position_controller_idle.
  - intros Hn. apply is_nan_true in Hn. unfold pd. rewrite Hn.
    rewrite is_nan_spec, FloatAxioms.sub_spec, FloatAxioms.mul_spec,
      FloatAxioms.sub_spec.
    change (Prim2SF nan) with S754_nan.
    destruct (Prim2SF (Observation.position latest_observation !!! i));
      simpl; destruct (Prim2SF kp); reflexivity.
Qed.

(** C3. The returned torque of joint [i] is the torque left by the position
    controller, clamped to [[-max_torque, max_torque]], less the damping
    [safety_kd * measured velocity], clamped again; the damping is there
    whether the controller ran or not.  For a finite desired torque, damping
    gain, velocity and a finite [max_torque >= 0] the result is finite and
    lies in [[-max_torque, max_torque]]. *)
Theorem final_torque_clamped_and_damped (i : nat) :
  i < N_JOINTS ->
  let a' := position_controller latest_observation
              default_position_control_kp default_position_control_kd
              (position_limits N_JOINTS latest_observation
                 default_position_control_kp default_position_control_kd
                 lower_position_limits upper_position_limits desired_action) in
  let tau := Action.torque
               (process_desired_action N_JOINTS desired_action
                  latest_observation max_torque_Nm safety_kd
                  default_position_control_kp default_position_control_kd
                  lower_position_limits upper_position_limits) !!! i in
  tau = clamp1 (clamp1 (Action.torque a' !!! i)
                  (- max_torque_Nm) max_torque_Nm
                - safety_kd !!! i * Observation.velocity latest_observation !!! i)
          (- max_torque_Nm) max_torque_Nm /\
  (is_finite max_torque_Nm = true -> (0 <=? max_torque_Nm) = true ->
   is_finite (Action.torque desired_action !!! i) = true ->
   is_finite (safety_kd !!! i) = true ->
   is_finite (Observation.velocity latest_observation !!! i) = true ->
   is_finite tau = true /\
   (- max_torque_Nm <=? tau) = true /\ (tau <=? max_torque_Nm) = true).
Proof.
  intros Hi a' tau.
  assert (Htau : tau = Joint.safety_checks max_torque_Nm (safety_kd !!! i)
                         (Observation.velocity latest_observation !!! i)
                         (Action.torque a' !!! i)).
  { apply (processed_action_torque N_JOINTS desired_action latest_observation
             max_torque_Nm safety_kd default_position_control_kp
             default_position_control_kd lower_position_limits
             upper_position_limits Hwf i Hi). }
  split; [exact Htau|].
  intros Hm Hm0 Ht Hs Hv. rewrite Htau. unfold Joint.safety_checks.
  assert (Hpd : is_nan (Action.torque a' !!! i) = false).
  { unfold a'.
    fold (limited_action N_JOINTS desired_action latest_observation
            default_position_control_kp default_position_control_kd
            lower_position_limits upper_position_limits).
    fold (controlled_action N_JOINTS desired_action latest_observation
            default_position_control_kp default_position_control_kd
            lower_position_limits upper_position_limits).
    rewrite (controlled_action_torque N_JOINTS desired_action
               latest_observation safety_kd _ _ _ _ Hwf i Hi).
    assert (Hj : is_finite (Joint.torque (joint i)) = true)
      by (destruct (limited_torque_cases i) as [-> | ->]; auto).
    destruct (position_controller_runs _).
    - apply add_finite_not_nan; [exact Hj|].
      apply (control_torque_not_nan desired_action latest_observation).
    - now apply is_finite_not_nan. }
  destruct (clamp1_symmetric_finite _ max_torque_Nm Hpd Hm Hm0) as (Hf1 & _).
  apply clamp1_symmetric_finite; auto.
  apply sub_finite_not_nan; [exact Hf1|].
  now apply mul_finite_not_nan.
Qed.

End PipelineTheorems.

(** The damping scenario of the specification: zero torque command,
    velocities [2] and [-2], damping gain [0.125], limit [1]. *)
Definition scenario_moving : Observation.t :=
  Observation.Build [0; 0] [2; -2] [0; 0].

Lemma scenario_damping_wf :
  pipeline_wf 2 (Action.Torque 2 [0; 0]) scenario_moving
    [0.125; 0.125] [1; 1] [0; 0] [-1; -1] [1; 1].
Proof. repeat split. Qed.

Lemma position_controller_contribution_witness :
  position_controller_runs
    (position_limits 2 scenario_observation [1; 1] [0; 0] [-1; -1] [1; 1]
       (Action.Position 2 [2; -2])) = true <->
  exists k, k < 2 /\
    is_nan (Action.position
              (position_limits 2 scenario_observation [1; 1] [0; 0]
                 [-1; -1] [1; 1] (Action.Position 2 [2; -2])) !!! k) = false.
Proof.
  exact (proj1 (proj2 (position_controller_contribution 2
                         (Action.Position 2 [2; -2]) scenario_observation 1
                         [0; 0] [1; 1] [0; 0] [-1; -1] [1; 1]
                         scenario_clamp_wf 0%nat ltac:(lia)))).
Defined.

Lemma final_torque_clamped_and_damped_witness :
  let tau := Action.torque
               (process_desired_action 2 (Action.Torque 2 [0; 0])
                  scenario_moving 1 [0.125; 0.125] [1; 1] [0; 0]
                  [-1; -1] [1; 1]) !!! 0%nat in
  is_finite tau = true /\ (- (1) <=? tau) = true /\ (tau <=? 1) = true.
Proof.
  apply (proj2 (final_torque_clamped_and_damped 2 (Action.Torque 2 [0; 0])
                  scenario_moving 1 [0.125; 0.125] [1; 1] [0; 0]
                  [-1; -1] [1; 1] scenario_damping_wf 0%nat ltac:(lia)));
    reflexivity.
Defined.

(** ** The boundary override *)
Section BoundaryOverride.

Variable N_JOINTS : nat.
Variables (desired_action : Action.t) (latest_observation : Observation.t).
Variable max_torque_Nm : double.
Variables safety_kd default_position_control_kp default_position_control_kd : Vector.
Variables lower_position_limits upper_position_limits : Vector.

Hypothesis Hwf :
  pipeline_wf N_JOINTS desired_action latest_observation safety_kd
    default_position_control_kp default_position_control_kd
    lower_position_limits upper_position_limits.

Variable i : nat.
Hypothesis Hi : i < N_JOINTS.

Local Abbreviation measured := (Observation.position latest_observation !!! i).
Local Abbreviation velocity := (Observation.velocity latest_observation !!! i).
Local Abbreviation lower := (lower_position_limits !!! i).
Local Abbreviation upper := (upper_position_limits !!! i).
Local Abbreviation joint :=
  (limited_joint desired_action latest_observation
     default_position_control_kp default_position_control_kd
     lower_position_limits upper_position_limits i).

(** [s = true]: the joint is above its upper limit; [s = false]: below its
    lower limit.  [outside s] says so, and says which branch of the loop body
    has run. *)
Definition outside (s : bool) : Prop :=
  if s then (measured <? lower) = false /\ (upper <? measured) = true
  else (measured <? lower) = true.

Hypothesis Hrange : (lower <=? upper) = true.
Hypothesis Htorque : is_nan (Action.torque desired_action !!! i) = false.

(** After the override the torque command does not push further out ... *)
Lemma override_torque_sided s :
  outside s -> sided s (Joint.torque joint) = true.
Proof.
  unfold outside, limited_joint, Joint.position_limits, Joint.set_limit_action.
  change (Joint.torque (Joint.of_action desired_action i))
    with (Action.torque desired_action !!! i).
  destruct s.
  - intros [-> ->]. simpl. rewrite mul_1_r.
    destruct (0 <? _) eqn:E; [reflexivity|]. now apply not_pos_sided.
  - intros ->. simpl. rewrite mul_m1_r.
    destruct (0 <? _) eqn:E; [reflexivity|].
    change (sided (negb true) (Action.torque desired_action !!! i) = true).
    rewrite <- sided_opp. apply not_pos_sided; [|exact E].
    now rewrite is_nan_opp.
Qed.

(** ... the position target is on the inner side of the measured
    position ... *)
Lemma override_position_inside s :
  outside s ->
  if s then (Joint.position joint <? measured) = true
  else (measured <? Joint.position joint) = true.
Proof.
  destruct (leb_not_nan _ _ Hrange) as [Hlo Hup].
  unfold outside, limited_joint, Joint.position_limits, Joint.set_limit_action.
  change (Joint.position (Joint.of_action desired_action i))
    with (Action.position desired_action !!! i).
  set (c := clamp1 _ lower upper).
  assert (Hc : is_nan c = false ->
               (lower <=? c) = true /\ (c <=? upper) = true).
  { intros Hn. apply clamp1_bounds; [|exact Hrange].
    destruct (is_nan (Action.position desired_action !!! i)) eqn:E; [|done].
    apply is_nan_true in E. unfold c in Hn. rewrite E, clamp1_nan in Hn.
    discriminate. }
  destruct s.
  - intros [-> Hout]. rewrite Hout. simpl.
    apply (leb_ltb_trans _ upper); [|exact Hout].
    destruct (is_nan c); [now apply leb_refl|now apply Hc].
  - intros Hout. rewrite Hout. simpl.
    apply (ltb_leb_trans _ lower); [exact Hout|].
    destruct (is_nan c); [now apply leb_refl|now apply Hc].
Qed.

(** ... and the gains are the configured ones. *)
Lemma override_gains s :
  outside s ->
  Joint.position_kp joint = default_position_control_kp !!! i /\
  Joint.position_kd joint = default_position_control_kd !!! i.
Proof.
  unfold outside, limited_joint, Joint.position_limits.
  destruct s; [intros [-> ->]|intros ->]; simpl; auto.
Qed.

Hypothesis Hmax : (0 <=? max_torque_Nm) = true.
Hypothesis Hkp : (0 <=? default_position_control_kp !!! i) = true.
Hypothesis Hkd : (0 <=? default_position_control_kd !!! i) = true.
Hypothesis Hskd : (0 <=? safety_kd !!! i) = true.
Hypothesis Hskd_finite : is_finite (safety_kd !!! i) = true.
Hypothesis Hvel_finite : is_finite velocity = true.

(** With gains that are not negative, a joint that is not moving back
    towards its range gets a returned torque that does not push it further
    out. *)
Lemma override_returned_torque_sided s :
  outside s -> sided (negb s) velocity = true ->
  sided s (Action.torque
             (process_desired_action N_JOINTS desired_action
                latest_observation max_torque_Nm safety_kd
                default_position_control_kp default_position_control_kd
                lower_position_limits upper_position_limits) !!! i) = true.
Proof.
  intros Hout Hvel.
  pose proof (override_torque_sided s Hout) as Ht.
  pose proof (override_position_inside s Hout) as Hp.
  pose proof (override_gains s Hout) as [Hgp Hgd].
  fold (processed_action N_JOINTS desired_action latest_observation
          max_torque_Nm safety_kd default_position_control_kp
          default_position_control_kd lower_position_limits
          upper_position_limits).
  rewrite (processed_action_torque _ _ _ _ _ _ _ _ _ Hwf i Hi).
  rewrite (controlled_action_torque _ _ _ _ _ _ _ _ Hwf i Hi).
  assert (Hrun : position_controller_runs
                   (limited_action N_JOINTS desired_action latest_observation
                      default_position_control_kp default_position_control_kd
                      lower_position_limits upper_position_limits) = true).
  { apply (position_controller_runs_iff _ _ _ safety_kd _ _ _ _ Hwf).
    exists i. split; [exact Hi|].
    destruct s; [now destruct (ltb_not_nan _ _ Hp)|now destruct (ltb_not_nan _ _ Hp)]. }
  rewrite Hrun.
  assert (Hpd : sided s (control_torque desired_action latest_observation
                           default_position_control_kp
                           default_position_control_kd lower_position_limits
                           upper_position_limits i) = true).
  { unfold control_torque, Joint.position_control_torque. cbv zeta.
    rewrite Hgp, Hgd.
    replace (if is_nan (default_position_control_kp !!! i)
             then default_position_control_kp !!! i
             else default_position_control_kp !!! i)
      with (default_position_control_kp !!! i)
      by (now destruct (is_nan (default_position_control_kp !!! i))).
    replace (if is_nan (default_position_control_kd !!! i)
             then default_position_control_kd !!! i
             else default_position_control_kd !!! i)
      with (default_position_control_kd !!! i)
      by (now destruct (is_nan (default_position_control_kd !!! i))).
    apply masked_sub_sided.
    - apply (mul_sided false s); [exact Hkp|].
      destruct s; [now apply sub_of_ltb|now apply (sub_of_ltb measured)].
    - apply (mul_sided false (negb s)); [exact Hkd|exact Hvel]. }
  unfold Joint.safety_checks.
  apply clamp1_sided; [|exact Hmax].
  apply sub_sided.
  - apply clamp1_sided; [|exact Hmax]. now apply add_sided.
  - pose proof (mul_sided false (negb s) _ _ Hskd Hvel) as Hm.
    rewrite (mul_finite_not_nan _ _ Hskd_finite Hvel_finite) in Hm.
    exact Hm.
Qed.


End BoundaryOverride.

(** A joint above its upper limit and moving back at speed 4: the desired
    torque is zero, and the torque that comes back is positive. *)
Definition overshoot_observation : Observation.t :=
  Observation.Build [2] [-4] [0].

Lemma overshoot_wf :
  pipeline_wf 1 (Action.Torque 1 [0]) overshoot_observation
    [0.5] [1] [0.5] [-1] [1].
Proof. repeat split. Qed.


(** The same joint at rest: the returned torque pulls it back. *)
Definition overshoot_at_rest : Observation.t :=
  Observation.Build [2] [0] [0].

Lemma overshoot_at_rest_wf :
  pipeline_wf 1 (Action.Torque 1 [4]) overshoot_at_rest
    [0.5] [1] [0.5] [-1] [1].
Proof. repeat split. Qed.


(** ** Inside the limits, and outside

    What the pipeline does to an action that no test of the position-limit
    loop catches, and what it returns for a joint whose measured position is
    outside its range. *)

(** Nothing lies below minus infinity or above plus infinity. *)
Lemma ltb_neg_infinity x : (x <? neg_infinity) = false.
Proof.
  rewrite FloatAxioms.ltb_spec.
  change (Prim2SF neg_infinity) with (S754_infinity true).
  destruct (Prim2SF x) as [[]|[]| |[] m e]; reflexivity.
Qed.

Lemma infinity_ltb x : (infinity <? x) = false.
Proof.
  rewrite FloatAxioms.ltb_spec.
  change (Prim2SF infinity) with (S754_infinity false).
  destruct (Prim2SF x) as [[]|[]| |[] m e]; reflexivity.
Qed.

(** The negative zero, and the sum with zero of anything else. *)
Definition negative_zero (x : double) : bool :=
  match Prim2SF x with S754_zero true => true | _ => false end.

Lemma add_zero_r x : negative_zero x = false -> x + 0 = x.
Proof.
  unfold negative_zero. intros Hx. apply Prim2SF_inj.
  rewrite FloatAxioms.add_spec, Prim2SF_zero.
  destruct (Prim2SF x) as [[]|[]| |[] m e]; try reflexivity; discriminate.
Qed.

Section InsideLimits.

Variable N_JOINTS : nat.
Variables (desired_action : Action.t) (latest_observation : Observation.t).
Variable max_torque_Nm : double.
Variables safety_kd default_position_control_kp default_position_control_kd : Vector.
Variables lower_position_limits upper_position_limits : Vector.

Local Abbreviation returned :=
  (process_desired_action N_JOINTS desired_action latest_observation
     max_torque_Nm safety_kd default_position_control_kp
     default_position_control_kd lower_position_limits upper_position_limits).

(** None of the four comparisons of the loop body holds for joint [i]:
    neither the position command nor the measured position is below the
    lower or above the upper limit.  This is the case of a NaN command, and
    of a NaN measurement. *)
Definition limits_inactive (i : nat) : Prop :=
  (Action.position desired_action !!! i <? lower_position_limits !!! i) = false /\
  (upper_position_limits !!! i <? Action.position desired_action !!! i) = false /\
  (Observation.position latest_observation !!! i
     <? lower_position_limits !!! i) = false /\
  (upper_position_limits !!! i
     <? Observation.position latest_observation !!! i) = false.

Lemma position_limits_inactive :
  (forall i, i < N_JOINTS -> limits_inactive i) ->
  position_limits N_JOINTS latest_observation default_position_control_kp
    default_position_control_kd lower_position_limits upper_position_limits
    desired_action
  = desired_action.
Proof.
  intros H. unfold position_limits.
  assert (Hl : forall l : list nat,
            (forall i, i ∈ l -> i < N_JOINTS) ->
            fold_left
              (position_limits_body latest_observation
                 default_position_control_kp default_position_control_kd
                 lower_position_limits upper_position_limits)
              l desired_action = desired_action).
  { induction l as [|i l IH]; intros Hin; [reflexivity|].
    cbn [fold_left].
    destruct (H i (Hin i ltac:(left))) as (H1 & H2 & H3 & H4).
    unfold position_limits_body, clamp_position_command.
    rewrite H1, H2. cbv zeta. rewrite H3, H4.
    apply IH. intros j Hj. apply Hin. now right. }
  apply Hl. intros i Hi. apply elem_of_seq in Hi. lia.
Qed.

(** The gains the position controller leaves in the action, when it runs. *)
Lemma position_controller_gains (a : Action.t) i :
  Action.wf N_JOINTS a ->
  length default_position_control_kp = N_JOINTS ->
  length default_position_control_kd = N_JOINTS ->
  i < N_JOINTS ->
  position_controller_runs a = true ->
  let a' := position_controller latest_observation
              default_position_control_kp default_position_control_kd a in
  Action.position_kp a' !!! i
  = (if is_nan (Action.position_kp a !!! i)
     then default_position_control_kp !!! i else Action.position_kp a !!! i) /\
  Action.position_kd a' !!! i
  = (if is_nan (Action.position_kd a !!! i)
     then default_position_control_kd !!! i else Action.position_kd a !!! i).
Proof.
  intros (Ht & Hp & Hgp & Hgd) Hkp Hkd Hi Hrun. cbv zeta.
  unfold position_controller. rewrite Hrun. cbv zeta.
  cbn [Action.position_kp Action.position_kd].
  rewrite !select_lookup by (rewrite ?length_isNaN; lia).
  rewrite !isNaN_lookup by lia.
  split; reflexivity.
Qed.

Hypothesis Hwf :
  pipeline_wf N_JOINTS desired_action latest_observation safety_kd
    default_position_control_kp default_position_control_kd
    lower_position_limits upper_position_limits.

Lemma no_target_controller_idle (a : Action.t) :
  length (Action.position a) = N_JOINTS ->
  (forall i, i < N_JOINTS -> is_nan (Action.position a !!! i) = true) ->
  position_controller_runs a = false.
Proof.
  intros Hlen Hall. unfold position_controller_runs.
  destruct (all (isNaN (Action.position a))) eqn:E; [reflexivity|].
  apply all_isNaN_false in E as (i & Hi & Hn).
  rewrite Hall in Hn by lia. discriminate.
Qed.

Lemma some_target_controller_runs (a : Action.t) k :
  length (Action.position a) = N_JOINTS ->
  k < N_JOINTS -> is_nan (Action.position a !!! k) = false ->
  position_controller_runs a = true.
Proof.
  intros Hlen Hk Hn. unfold position_controller_runs.
  apply negb_true_iff, all_isNaN_false. exists k. split; [lia|exact Hn].
Qed.

Lemma inside_limits_position :
  (forall i, i < N_JOINTS -> limits_inactive i) ->
  Action.position returned = Action.position desired_action.
Proof.
  intros Hin.
  fold (processed_action N_JOINTS desired_action latest_observation
          max_torque_Nm safety_kd default_position_control_kp
          default_position_control_kd lower_position_limits
          upper_position_limits).
  rewrite processed_action_position. unfold limited_action.
  now rewrite (position_limits_inactive Hin).
Qed.

(** Inside the limits and without any target the position controller does
    not run. *)
Lemma inside_limits_idle :
  (forall i, i < N_JOINTS -> limits_inactive i) ->
  (forall i, i < N_JOINTS ->
     is_nan (Action.position desired_action !!! i) = true) ->
  position_controller latest_observation default_position_control_kp
    default_position_control_kd
    (position_limits N_JOINTS latest_observation default_position_control_kp
       default_position_control_kd lower_position_limits
       upper_position_limits desired_action)
  = desired_action.
Proof.
  intros Hin Hall. pose proof Hwf as ((_ & Hp & _) & _).
  rewrite (position_limits_inactive Hin). unfold position_controller.
  now rewrite (no_target_controller_idle desired_action Hp Hall).
Qed.

Lemma inside_limits_idle_torque i :
  (forall j, j < N_JOINTS -> limits_inactive j) ->
  (forall j, j < N_JOINTS ->
     is_nan (Action.position desired_action !!! j) = true) ->
  i < N_JOINTS ->
  Action.torque returned !!! i
  = clamp1 (clamp1 (Action.torque desired_action !!! i)
              (- max_torque_Nm) max_torque_Nm
            - safety_kd !!! i * Observation.velocity latest_observation !!! i)
      (- max_torque_Nm) max_torque_Nm.
Proof.
  intros Hin Hall Hi.
  fold (processed_action N_JOINTS desired_action latest_observation
          max_torque_Nm safety_kd default_position_control_kp
          default_position_control_kd lower_position_limits
          upper_position_limits).
  rewrite (processed_action_torque _ _ _ _ _ _ _ _ _ Hwf i Hi).
  unfold controlled_action, limited_action.
  now rewrite (inside_limits_idle Hin Hall).
Qed.

(** X1. When neither the position command nor the measured position of any
    joint is beyond a limit, the pipeline returns the position targets as
    they were commanded.  If no joint has a target, the gains come back
    untouched (NaN stays NaN) and the torque of each joint is the commanded
    one, clamped, damped and clamped again.  If some joint has a target, the
    gains of every joint come back with the defaults in the place of NaN and
    the custom values elsewhere. *)
Theorem inside_limits_pass_through :
  (forall i, i < N_JOINTS -> limits_inactive i) ->
  Action.position returned = Action.position desired_action /\
  ((forall i, i < N_JOINTS ->
      is_nan (Action.position desired_action !!! i) = true) ->
   Action.position_kp returned = Action.position_kp desired_action /\
   Action.position_kd returned = Action.position_kd desired_action /\
   forall i, i < N_JOINTS ->
     Action.torque returned !!! i
     = clamp1 (clamp1 (Action.torque desired_action !!! i)
                 (- max_torque_Nm) max_torque_Nm
               - safety_kd !!! i
                 * Observation.velocity latest_observation !!! i)
         (- max_torque_Nm) max_torque_Nm) /\
  (forall k, k < N_JOINTS ->
     is_nan (Action.position desired_action !!! k) = false ->
     forall i, i < N_JOINTS ->
       Action.position_kp returned !!! i
       = (if is_nan (Action.position_kp desired_action !!! i)
          then default_position_control_kp !!! i
          else Action.position_kp desired_action !!! i) /\
       Action.position_kd returned !!! i
       = (if is_nan (Action.position_kd desired_action !!! i)
          then default_position_control_kd !!! i
          else Action.position_kd desired_action !!! i)).
Proof.
  intros Hin. pose proof (position_limits_inactive Hin) as Hlim.
  pose proof Hwf as (Ha & Ho & Hs & Hkp & Hkd & _).
  pose proof Ha as (_ & Hp & _).
  split; [now apply inside_limits_position|split].
  - intros Hall. pose proof (inside_limits_idle Hin Hall) as Hc.
    split; [|split].
    + unfold process_desired_action. now rewrite Hc.
    + unfold process_desired_action. now rewrite Hc.
    + intros i Hi. now apply inside_limits_idle_torque.
  - intros k Hk Hn i Hi.
    pose proof (some_target_controller_runs desired_action k Hp Hk Hn) as Hrun.
    unfold process_desired_action. rewrite Hlim.
    cbn [safety_checks Action.set_torque Action.position_kp Action.position_kd].
    now apply position_controller_gains.
Qed.

(** X2. A joint whose measured position is outside its range comes back with
    the configured gains, whatever gains were commanded, and with a position
    target that is a number: the commanded target clamped to the range, or
    the violated limit when none was commanded. *)
Theorem violated_limit_overrides_command (i : nat) :
  i < N_JOINTS ->
  (Observation.position latest_observation !!! i
     <? lower_position_limits !!! i) = true \/
  (upper_position_limits !!! i
     <? Observation.position latest_observation !!! i) = true ->
  let limit :=
    if Observation.position latest_observation !!! i
         <? lower_position_limits !!! i
    then lower_position_limits !!! i else upper_position_limits !!! i in
  Action.position_kp returned !!! i = default_position_control_kp !!! i /\
  Action.position_kd returned !!! i = default_position_control_kd !!! i /\
  Action.position returned !!! i
  = (if is_nan (Action.position desired_action !!! i) then limit
     else clamp1 (Action.position desired_action !!! i)
            (lower_position_limits !!! i) (upper_position_limits !!! i)) /\
  is_nan (Action.position returned !!! i) = false.
Proof.
  intros Hi Hout. cbv zeta.
  pose proof Hwf as (Ha & Ho & Hs & Hkp & Hkd & _).
  pose proof (limited_action_wf N_JOINTS desired_action latest_observation
                safety_kd default_position_control_kp
                default_position_control_kd lower_position_limits
                upper_position_limits Hwf) as Hlwf.
  pose proof (limited_action_joint N_JOINTS desired_action latest_observation
                safety_kd default_position_control_kp
                default_position_control_kd lower_position_limits
                upper_position_limits Hwf i Hi) as Hj.
  set (lim := limited_action N_JOINTS desired_action latest_observation
                default_position_control_kp default_position_control_kd
                lower_position_limits upper_position_limits) in *.
  set (limit := if _ <? lower_position_limits !!! i then _ else _).
  assert (Hlimit : is_nan limit = false).
  { unfold limit. destruct (_ <? lower_position_limits !!! i) eqn:E.
    - now destruct (ltb_not_nan _ _ E).
    - destruct Hout as [Hout|Hout]; [discriminate|].
      now destruct (ltb_not_nan _ _ Hout). }
  assert (Hjoint :
            Action.position_kp lim !!! i = default_position_control_kp !!! i /\
            Action.position_kd lim !!! i = default_position_control_kd !!! i /\
            Action.position lim !!! i
            = (if is_nan (Action.position desired_action !!! i) then limit
               else clamp1 (Action.position desired_action !!! i)
                      (lower_position_limits !!! i)
                      (upper_position_limits !!! i))).
  { pose proof (f_equal Joint.position_kp Hj) as H1.
    pose proof (f_equal Joint.position_kd Hj) as H2.
    pose proof (f_equal Joint.position Hj) as H3.
    cbn [Joint.of_action Joint.position_kp Joint.position_kd Joint.position]
      in H1, H2, H3.
    rewrite H1, H2, H3. clear H1 H2 H3 Hj.
    unfold limited_joint, Joint.position_limits, Joint.set_limit_action, limit.
    cbn [Joint.of_action Joint.position Joint.torque Joint.position_kp
           Joint.position_kd].
    destruct (is_nan (Action.position desired_action !!! i)) eqn:Hp.
    - apply is_nan_true in Hp. rewrite Hp, clamp1_nan.
      destruct (_ <? lower_position_limits !!! i) eqn:E; [now cbn|].
      destruct Hout as [Hout|Hout]; [discriminate|]. rewrite Hout. now cbn.
    - pose proof (clamp1_not_nan _ (lower_position_limits !!! i)
                    (upper_position_limits !!! i) Hp) as Hc.
      destruct (_ <? lower_position_limits !!! i) eqn:E;
        [cbn; now rewrite Hc|].
      destruct Hout as [Hout|Hout]; [discriminate|]. rewrite Hout. cbn.
      now rewrite Hc. }
  destruct Hjoint as (Hgp & Hgd & Hpos).
  assert (Hnum : is_nan (Action.position lim !!! i) = false).
  { rewrite Hpos. destruct (is_nan (Action.position desired_action !!! i)) eqn:Hp;
      [exact Hlimit|now apply clamp1_not_nan]. }
  assert (Hrun : position_controller_runs lim = true).
  { destruct Hlwf as (_ & Hlp & _).
    now apply (some_target_controller_runs lim i). }
  destruct (position_controller_gains lim i Hlwf Hkp Hkd Hi Hrun) as [Gp Gd].
  assert (Hrp : Action.position returned = Action.position lim).
  { fold (processed_action N_JOINTS desired_action latest_observation
            max_torque_Nm safety_kd default_position_control_kp
            default_position_control_kd lower_position_limits
            upper_position_limits).
    now rewrite processed_action_position. }
  rewrite Hrp.
  change (Action.position_kp returned)
    with (Action.position_kp
            (position_controller latest_observation
               default_position_control_kp default_position_control_kd lim)).
  change (Action.position_kd returned)
    with (Action.position_kd
            (position_controller latest_observation
               default_position_control_kp default_position_control_kd lim)).
  rewrite Gp, Gd, Hgp, Hgd.
  repeat split; try assumption.
  - now destruct (is_nan (default_position_control_kp !!! i)).
  - now destruct (is_nan (default_position_control_kd !!! i)).
Qed.

(** X3. Inside the limits and without position target, the pipeline never
    turns a torque command into one that pushes a joint along its motion:
    with a damping gain and a torque limit that are not negative, a command
    that is at most zero on a joint whose velocity is at least zero comes
    back at most zero, and a command that is at least zero on a joint whose
    velocity is at most zero comes back at least zero.  A zero command
    therefore comes back opposed to the motion, or zero. *)
Theorem damping_opposes_motion (i : nat) :
  i < N_JOINTS ->
  (forall j, j < N_JOINTS -> limits_inactive j) ->
  (forall j, j < N_JOINTS ->
     is_nan (Action.position desired_action !!! j) = true) ->
  (0 <=? max_torque_Nm) = true ->
  (0 <=? safety_kd !!! i) = true ->
  is_finite (safety_kd !!! i) = true ->
  is_finite (Observation.velocity latest_observation !!! i) = true ->
  let tau := Action.torque returned !!! i in
  ((Action.torque desired_action !!! i <=? 0) = true ->
   (0 <=? Observation.velocity latest_observation !!! i) = true ->
   (tau <=? 0) = true) /\
  ((0 <=? Action.torque desired_action !!! i) = true ->
   (Observation.velocity latest_observation !!! i <=? 0) = true ->
   (0 <=? tau) = true).
Proof.
  intros Hi Hin Hall Hmax Hskd Hskdf Hvelf. cbv zeta.
  rewrite (inside_limits_idle_torque i Hin Hall Hi).
  assert (Hs : forall s,
            sided s (Action.torque desired_action !!! i) = true ->
            sided (negb s) (Observation.velocity latest_observation !!! i) = true ->
            sided s (clamp1
                       (clamp1 (Action.torque desired_action !!! i)
                          (- max_torque_Nm) max_torque_Nm
                        - safety_kd !!! i
                          * Observation.velocity latest_observation !!! i)
                       (- max_torque_Nm) max_torque_Nm) = true).
  { intros s Ht Hv. apply clamp1_sided; [|exact Hmax].
    apply sub_sided; [now apply clamp1_sided|].
    pose proof (mul_sided false (negb s) _ _ Hskd Hv) as Hm.
    rewrite (mul_finite_not_nan _ _ Hskdf Hvelf) in Hm. exact Hm. }
  split; intros Ht Hv; [apply (Hs true)|apply (Hs false)]; assumption.
Qed.

(** X4. A joint without position target that is not outside its range gets
    the torque of a pure torque command, clamped, damped and clamped again,
    whatever the other joints are commanded and wherever they are: the
    position controller, when a target on another joint makes it run, adds
    a zero.  (That zero turns a commanded negative zero into a positive one,
    which is the one case left out.) *)
Theorem no_target_joint_unaffected (i : nat) :
  i < N_JOINTS ->
  is_nan (Action.position desired_action !!! i) = true ->
  (Observation.position latest_observation !!! i
     <? lower_position_limits !!! i) = false ->
  (upper_position_limits !!! i
     <? Observation.position latest_observation !!! i) = false ->
  negative_zero (Action.torque desired_action !!! i) = false ->
  Action.torque returned !!! i
  = clamp1 (clamp1 (Action.torque desired_action !!! i)
              (- max_torque_Nm) max_torque_Nm
            - safety_kd !!! i * Observation.velocity latest_observation !!! i)
      (- max_torque_Nm) max_torque_Nm.
Proof.
  intros Hi Hp Hlo Hup Hnz.
  fold (processed_action N_JOINTS desired_action latest_observation
          max_torque_Nm safety_kd default_position_control_kp
          default_position_control_kd lower_position_limits
          upper_position_limits).
  rewrite (processed_action_torque _ _ _ _ _ _ _ _ _ Hwf i Hi).
  rewrite (controlled_action_torque _ _ _ _ _ _ _ _ Hwf i Hi).
  assert (Hj : limited_joint desired_action latest_observation
                 default_position_control_kp default_position_control_kd
                 lower_position_limits upper_position_limits i
               = Joint.Build (Action.torque desired_action !!! i) nan
                   (Action.position_kp desired_action !!! i)
                   (Action.position_kd desired_action !!! i)).
  { unfold limited_joint, Joint.position_limits. rewrite Hlo, Hup.
    cbn [Joint.of_action Joint.position Joint.torque Joint.position_kp
           Joint.position_kd].
    apply is_nan_true in Hp. now rewrite Hp, clamp1_nan. }
  assert (Hpd : control_torque desired_action latest_observation
                  default_position_control_kp default_position_control_kd
                  lower_position_limits upper_position_limits i = 0).
  { apply control_torque_unset. now rewrite Hj. }
  rewrite Hpd, Hj. cbn [Joint.torque].
  rewrite (add_zero_r _ Hnz).
  now destruct (position_controller_runs _).
Qed.

End InsideLimits.

(** ** The torque that leaves the pipeline *)
Section TorqueBound.

Variable N_JOINTS : nat.
Variables (desired_action : Action.t) (latest_observation : Observation.t).
Variable max_torque_Nm : double.
Variables safety_kd default_position_control_kp default_position_control_kd : Vector.
Variables lower_position_limits upper_position_limits : Vector.

Hypothesis Hwf :
  pipeline_wf N_JOINTS desired_action latest_observation safety_kd
    default_position_control_kp default_position_control_kd
    lower_position_limits upper_position_limits.

Local Abbreviation returned :=
  (process_desired_action N_JOINTS desired_action latest_observation
     max_torque_Nm safety_kd default_position_control_kp
     default_position_control_kd lower_position_limits upper_position_limits).

Lemma returned_torque_length : length (Action.torque returned) = N_JOINTS.
Proof.
  pose proof (controlled_action_torque_length N_JOINTS desired_action
                latest_observation safety_kd default_position_control_kp
                default_position_control_kd lower_position_limits
                upper_position_limits Hwf) as Lt.
  destruct Hwf as (_ & (Hop & Hov & _) & Hs & _).
  unfold process_desired_action, safety_checks. cbn [Action.set_torque Action.torque].
  unfold controlled_action, limited_action in Lt.
  rewrite length_clamp, length_vsub, length_clamp, length_cwiseProduct, Lt. lia.
Qed.

(** [within max x]: [x] is finite and lies in [[-max, max]]. *)
Definition within (max x : double) : Prop :=
  is_finite x = true /\ (- max <=? x) = true /\ (x <=? max) = true.

Lemma returned_torque_within i :
  i < N_JOINTS ->
  is_finite max_torque_Nm = true -> (0 <=? max_torque_Nm) = true ->
  is_finite (Action.torque desired_action !!! i) = true ->
  is_finite (safety_kd !!! i) = true ->
  is_finite (Observation.velocity latest_observation !!! i) = true ->
  within max_torque_Nm (Action.torque returned !!! i).
Proof.
  intros Hi Hm Hm0 Ht Hs Hv.
  fold (processed_action N_JOINTS desired_action latest_observation
          max_torque_Nm safety_kd default_position_control_kp
          default_position_control_kd lower_position_limits
          upper_position_limits).
  rewrite (processed_action_torque _ _ _ _ _ _ _ _ _ Hwf i Hi).
  rewrite (controlled_action_torque _ _ _ _ _ _ _ _ Hwf i Hi).
  set (tau := if position_controller_runs _ then _ else _).
  assert (Hpd : is_nan tau = false).
  { unfold tau.
    assert (Hj : is_finite
                   (Joint.torque
                      (limited_joint desired_action latest_observation
                         default_position_control_kp
                         default_position_control_kd lower_position_limits
                         upper_position_limits i)) = true).
    { destruct (limited_torque_cases desired_action latest_observation
                  default_position_control_kp default_position_control_kd
                  lower_position_limits upper_position_limits i)
        as [-> | ->]; auto. }
    destruct (position_controller_runs _).
    - apply add_finite_not_nan; [exact Hj|].
      apply (control_torque_not_nan desired_action latest_observation).
    - now apply is_finite_not_nan. }
  unfold Joint.safety_checks, within.
  destruct (clamp1_symmetric_finite _ max_torque_Nm Hpd Hm Hm0) as (Hf1 & _).
  apply clamp1_symmetric_finite; auto.
  apply sub_finite_not_nan; [exact Hf1|].
  now apply mul_finite_not_nan.
Qed.

End TorqueBound.

(** ** Zeros

    A joint at rest on its target: the differences and products that the
    pipeline forms are zeros, of either sign. *)

Definition is_zero (x : double) : bool :=
  match Prim2SF x with S754_zero _ => true | _ => false end.

Lemma is_zero_eqb x : is_zero x = (x =? 0).
Proof.
  unfold is_zero. rewrite FloatAxioms.eqb_spec, Prim2SF_zero.
  destruct (Prim2SF x) as [[]|[]| |[] m e]; reflexivity.
Qed.

Lemma is_zero_sided s x : is_zero x = true -> sided s x = true.
Proof.
  unfold is_zero. rewrite sided_spec.
  destruct (Prim2SF x) as [[]|[]| |[] m e]; try discriminate;
    now destruct s.
Qed.

Lemma sub_diag_zero x : is_finite x = true -> is_zero (x - x) = true.
Proof.
  unfold is_zero. rewrite is_finite_spec, FloatAxioms.sub_spec.
  destruct (Prim2SF x) as [sx|sx| |sx m e]; try discriminate; intros _.
  - now destruct sx.
  - unfold SF64sub, SFsub. cbv zeta. rewrite Z.sub_diag. reflexivity.
Qed.

Lemma mul_zero_zero x y :
  is_finite x = true -> is_zero y = true -> is_zero (x * y) = true.
Proof.
  unfold is_zero. rewrite is_finite_spec, FloatAxioms.mul_spec.
  destruct (Prim2SF x) as [sx|sx| |sx mx ex]; try discriminate;
    destruct (Prim2SF y) as [sy|sy| |sy my ey]; try discriminate; reflexivity.
Qed.

Lemma sub_zero_zero x y :
  is_zero x = true -> is_zero y = true -> is_zero (x - y) = true.
Proof.
  unfold is_zero. rewrite FloatAxioms.sub_spec.
  destruct (Prim2SF x) as [sx|sx| |sx mx ex]; try discriminate;
    destruct (Prim2SF y) as [sy|sy| |sy my ey]; try discriminate.
  now destruct sx, sy.
Qed.

Lemma add_zero_zero x y :
  is_zero x = true -> is_zero y = true -> is_zero (x + y) = true.
Proof.
  unfold is_zero. rewrite FloatAxioms.add_spec.
  destruct (Prim2SF x) as [sx|sx| |sx mx ex]; try discriminate;
    destruct (Prim2SF y) as [sy|sy| |sy my ey]; try discriminate.
  now destruct sx, sy.
Qed.

(** A zero is inside every range [[-m, m]] with [0 <= m]. *)
Lemma clamp1_zero x m :
  is_zero x = true -> (0 <=? m) = true -> clamp1 x (- m) m = x.
Proof.
  intros Hx Hm. unfold clamp1.
  rewrite (leb_ltb_false (- m) x).
  - rewrite (leb_ltb_false x m); [reflexivity|].
    apply sided_leb; [now apply is_zero_sided|exact Hm].
  - apply sided_leb; [|now apply is_zero_sided].
    rewrite sided_opp. exact Hm.
Qed.

(** ** Configuration *)

Inductive HomingMethod : Type :=
  | NONE
  | NEXT_INDEX
  | CURRENT_POSITION
  | ENDSTOP
  | ENDSTOP_INDEX
  | ENDSTOP_RELEASE.

(** Modelled from the spec: the status the joint modules report for a homing
    run, an enumeration of the motor driver library. *)
Module HomingReturnCode.
Inductive t : Type := NOT_INITIALIZED | RUNNING | SUCCEEDED | FAILED.

Definition eqb (a b : t) : bool :=
  match a, b with
  | NOT_INITIALIZED, NOT_INITIALIZED | RUNNING, RUNNING
  | SUCCEEDED, SUCCEEDED | FAILED, FAILED => true
  | _, _ => false
  end.
End HomingReturnCode.

(** Modelled from the spec: the error code in the status of a motor board, an
    enumeration of the motor driver library.  [UNKNOWN] stands for every
    value that the driver does not name. *)
Module ErrorCodes.
Inductive t : Type :=
  | NONE
  | ENCODER
  | CAN_RECV_TIMEOUT
  | CRIT_TEMP
  | POSCONV
  | POS_ROLLOVER
  | OTHER
  | UNKNOWN.
End ErrorCodes.

Module TrajectoryStep.
Record t : Type := Build {
  target_position_rad : Vector;
  move_steps : nat
}.
End TrajectoryStep.

Module Config.
Record CalibrationParameters : Type := BuildCalibration {
  endstop_search_torques_Nm : Vector;
  move_steps : nat
}.

Record PositionControlGains : Type := BuildGains {
  kp : Vector;
  kd : Vector
}.

Record t : Type := Build {
  max_current_A : double;
  has_endstop : bool;
  homing_method : HomingMethod;
  calibration : CalibrationParameters;
  move_to_position_tolerance_rad : double;
  safety_kd : Vector;
  position_control_gains : PositionControlGains;
  hard_position_limits_lower : Vector;
  hard_position_limits_upper : Vector;
  soft_position_limits_lower : Vector;
  soft_position_limits_upper : Vector;
  home_offset_rad : Vector;
  initial_position_rad : Vector;
  shutdown_trajectory : list TrajectoryStep.t;
  run_duration_logfiles : list string
}.

(** [Config::is_within_hard_position_limits]. *)
Definition is_within_hard_position_limits (c : t) (position : Vector) : bool :=
  forallb id (zip_with PrimFloat.leb (hard_position_limits_lower c) position)
  && forallb id (zip_with PrimFloat.leb position (hard_position_limits_upper c)).
End Config.

(** ** The collaborators

    Modelled from the spec: what the driver calls on the joint modules, the
    motor boards, the timer and the file system.  [World] is their joint
    state; each call may change it. *)
Record Hardware (World : Type) : Type := BuildHardware {
  get_measured_angles : World -> Vector;
  get_measured_velocities : World -> Vector;
  get_measured_torques : World -> Vector;
  set_and_send_torques : Vector -> World -> World;
  set_position_control_gains : Vector -> Vector -> World -> World;
  execute_homing :
    double -> Vector -> Vector -> World -> HomingReturnCode.t * World;
  execute_homing_at_current_position :
    Vector -> World -> HomingReturnCode.t * World;
  pause_motors_of_board : nat -> World -> World;
  get_current_time_sec : World -> double;
  sleep_until_sec : double -> World -> World;
  open_for_append : string -> World -> bool * World
}.

Arguments get_measured_angles {World}.
Arguments get_measured_velocities {World}.
Arguments get_measured_torques {World}.
Arguments set_and_send_torques {World}.
Arguments set_position_control_gains {World}.
Arguments execute_homing {World}.
Arguments execute_homing_at_current_position {World}.
Arguments pause_motors_of_board {World}.
Arguments get_current_time_sec {World}.
Arguments sleep_until_sec {World}.
Arguments open_for_append {World}.

(** [(double) n] for a [uint32_t]: exact. *)
Definition uint32_to_double (n : nat) : double :=
  of_uint63 (Uint63.of_Z (Z.of_nat n)).

(** [static_cast<int>(x)]: truncation towards zero (undefined in C++ when the
    value does not fit an [int]). *)
Definition static_cast_int (x : double) : Z :=
  match Prim2SF x with
  | S754_finite s m e => cond_Zopp s (Z.shiftl (Z.pos m) e)
  | _ => 0%Z
  end.

(** ** The driver *)
Section Driver.

(** Template parameters. *)
Variables N_JOINTS N_MOTOR_BOARDS : nat.

(** The type of [action_counter_] and its [++]: the member is declared in the
    class header, outside the verified sources. *)
Variable Counter : Type.
Variable counter_incr : Counter -> Counter.

(** [std::pow] of the C library. *)
Variable std_pow : double -> double -> double.

Variable World : Type.
Variable hw : Hardware World.

(** Members that do not change after construction. *)
Variable config_ : Config.t.
Variable has_endstop_ : bool.
Variable max_torque_Nm_ : double.
Variable gear_ratio : double.

(** Calls on the collaborators and output, in the order they happen. *)
Inductive Event : Type :=
  | EvSetPositionControlGains (kp kd : Vector)
  | EvSendTorques (torques : Vector)
  | EvPauseMotors (board : nat)
  | EvExecuteHoming (search_distance_limit : double)
                    (home_offset step_sizes : Vector)
  | EvExecuteHomingAtCurrentPosition (home_offset : Vector)
  | EvSleepUntil (time_sec : double)
  | EvPrint (message : string)
  | EvAppendLine (file : string) (timestamp : Z) (count : Counter).

Record Driver : Type := BuildDriver {
  world : World;
  is_initialized_ : bool;
  action_counter_ : Counter;
  trace : list Event
}.

Definition set_world (w : World) (s : Driver) : Driver :=
  BuildDriver w (is_initialized_ s) (action_counter_ s) (trace s).
Definition set_is_initialized (b : bool) (s : Driver) : Driver :=
  BuildDriver (world s) b (action_counter_ s) (trace s).
Definition set_action_counter (c : Counter) (s : Driver) : Driver :=
  BuildDriver (world s) (is_initialized_ s) c (trace s).
Definition emit (e : Event) (s : Driver) : Driver :=
  BuildDriver (world s) (is_initialized_ s) (action_counter_ s) (trace s ++ [e]).

(** [rt_printf], [std::cout <<] and [std::cerr <<]; the messages are kept
    without their line ends. *)
Definition print (message : string) (s : Driver) : Driver :=
  emit (EvPrint message) s.

(** [SimpleNJointBlmcRobotDriver::get_latest_observation]. *)
Definition get_latest_observation (s : Driver) : Observation.t :=
  Observation.Build (get_measured_angles hw (world s))
                    (get_measured_velocities hw (world s))
                    (get_measured_torques hw (world s)).

Definition pause_motors (s : Driver) : Driver :=
  fold_left
    (fun s i => emit (EvPauseMotors i)
                  (set_world (pause_motors_of_board hw i (world s)) s))
    (seq 0 N_MOTOR_BOARDS) s.

(** The loop period: one millisecond. *)
Definition loop_period_sec : double := 0x1.0624dd2f1a9fcp-10.

Definition apply_action_uninitialized (desired_action : Action.t) (s : Driver)
    : Action.t * Driver :=
  let start_time_sec := get_current_time_sec hw (world s) in
  let observation := get_latest_observation s in
  let lower_limits :=
    if is_initialized_ s then Config.soft_position_limits_lower config_
    else Constant N_JOINTS neg_infinity in
  let upper_limits :=
    if is_initialized_ s then Config.soft_position_limits_upper config_
    else Constant N_JOINTS infinity in
  let applied_action :=
    process_desired_action N_JOINTS desired_action observation max_torque_Nm_
      (Config.safety_kd config_)
      (Config.kp (Config.position_control_gains config_))
      (Config.kd (Config.position_control_gains config_))
      lower_limits upper_limits in
  let s := emit (EvSendTorques (Action.torque applied_action))
             (set_world (set_and_send_torques hw (Action.torque applied_action)
                           (world s)) s) in
  let s := set_action_counter (counter_incr (action_counter_ s)) s in
  let s := emit (EvSleepUntil (start_time_sec + loop_period_sec))
             (set_world (sleep_until_sec hw (start_time_sec + loop_period_sec)
                           (world s)) s) in
  (applied_action, s).

(** [apply_action]: throws when the robot is not initialized. *)
Definition apply_action (desired_action : Action.t) (s : Driver)
    : (string + Action.t) * Driver :=
  if negb (is_initialized_ s)
  then (inl "Robot needs to be initialized before applying actions.  Run the `initialize()` method."%string,
        s)
  else let '(a, s') := apply_action_uninitialized desired_action s in
       (inr a, s').

(** *** [move_to_position] *)

(** The goal of step [t]: the minimum-jerk blend between start and goal. *)
Definition step_goal (initial_position goal_pos : Vector) (time_steps t : nat)
    : Vector :=
  let alpha := uint32_to_double t / uint32_to_double time_steps in
  vadd initial_position
       (scale (vsub goal_pos initial_position)
              (10 * std_pow alpha 3 - 15 * std_pow alpha 4
               + 6 * std_pow alpha 5)).

Definition move_to_position (goal_pos : Vector) (tolerance : double)
    (time_steps : nat) (s : Driver) : bool * Driver :=
  let initial_position := Observation.position (get_latest_observation s) in
  let s :=
    fold_left
      (fun s t =>
         (apply_action_uninitialized
            (Action.Position N_JOINTS
               (step_goal initial_position goal_pos time_steps t)) s).2)
      (seq 0 time_steps) s in
  let position_error :=
    vsub goal_pos (Observation.position (get_latest_observation s)) in
  let reached_goal := forallb (fun e => abs e <? tolerance) position_error in
  (reached_goal, s).

(** *** [move_until_blocking] *)

Definition MIN_STEPS_MOVE_TO_END_STOP : Z := 1000.
Definition SIZE_VELOCITY_WINDOW : Z := 100.
Definition STOP_VELOCITY : double := 0x1.47ae147ae147bp-7.

(** The local variables of the loop.  [step_count] is a [uint32_t]. *)
Record BlockingLoop : Type := BuildBlockingLoop {
  running_velocities : list Vector;
  summed_velocities : Vector;
  step_count : Z
}.

(** The elements of [running_velocities] are default-constructed vectors,
    whose coefficients are indeterminate; NaN stands for them.  A slot is
    read only after [SIZE_VELOCITY_WINDOW] steps, when it has been written. *)
Definition blocking_loop_init : BlockingLoop :=
  BuildBlockingLoop
    (replicate (Z.to_nat SIZE_VELOCITY_WINDOW) (Constant N_JOINTS nan))
    (Zero N_JOINTS) 0.

(** The loop condition. *)
Definition keeps_moving (l : BlockingLoop) : bool :=
  (step_count l <? MIN_STEPS_MOVE_TO_END_STOP)%Z
  || (STOP_VELOCITY
        <? maxCoeff (summed_velocities l)
           / uint32_to_double (Z.to_nat SIZE_VELOCITY_WINDOW)).

(** The loop body. *)
Definition blocking_step (torques_Nm : Vector) (ls : BlockingLoop * Driver)
    : BlockingLoop * Driver :=
  let '(l, s) := ls in
  let s := (apply_action_uninitialized (Action.Torque N_JOINTS torques_Nm) s).2 in
  let abs_velocities :=
    cwiseAbs (Observation.velocity (get_latest_observation s)) in
  let running_index := Z.to_nat (step_count l mod SIZE_VELOCITY_WINDOW) in
  let summed :=
    if (SIZE_VELOCITY_WINDOW <=? step_count l)%Z
    then vsub (summed_velocities l) (running_velocities l !!! running_index)
    else summed_velocities l in
  (BuildBlockingLoop
     (<[running_index := abs_velocities]> (running_velocities l))
     (vadd summed abs_velocities)
     ((step_count l + 1) mod 2 ^ 32)%Z,
   s).

(** The loop has no bound of its own: [fuel] bounds the iterations, and
    [None] is a run that has not stopped within [fuel] iterations. *)
Fixpoint move_until_blocking_loop (fuel : nat) (torques_Nm : Vector)
    (ls : BlockingLoop * Driver) : option (BlockingLoop * Driver) :=
  if keeps_moving ls.1 then
    match fuel with
    | O => None
    | S fuel' =>
        move_until_blocking_loop fuel' torques_Nm (blocking_step torques_Nm ls)
    end
  else Some ls.

Definition move_until_blocking (fuel : nat) (torques_Nm : Vector) (s : Driver)
    : option Driver :=
  snd <$> move_until_blocking_loop fuel torques_Nm (blocking_loop_init, s).

(** *** [homing] *)

Definition INDEX_SEARCH_STEP_SIZE_RAD : double := 0x1.3a92a30553261p-12.
Definition M_PI : double := 0x1.921fb54442d18p+1.
Definition INDEX_SEARCH_DISTANCE_LIMIT_RAD : double :=
  (1.5 / gear_ratio) * 2 * M_PI.
Definition NUM_ZERO_TORQUE_STEPS : nat := 1000.

(** The search direction of each joint, opposite to the end-stop search. *)
Definition index_search_step_sizes : Vector :=
  (fun i =>
     if 0 <? Config.endstop_search_torques_Nm (Config.calibration config_) !!! i
     then INDEX_SEARCH_STEP_SIZE_RAD * -1
     else INDEX_SEARCH_STEP_SIZE_RAD) <$> seq 0 N_JOINTS.

Definition home_on_encoder_index (s : Driver) : HomingReturnCode.t * Driver :=
  let '(status, w) :=
    execute_homing hw INDEX_SEARCH_DISTANCE_LIMIT_RAD
      (Config.home_offset_rad config_) index_search_step_sizes (world s) in
  (status,
   emit (EvExecuteHoming INDEX_SEARCH_DISTANCE_LIMIT_RAD
           (Config.home_offset_rad config_) index_search_step_sizes)
        (set_world w s)).

Definition home_at_current_position (s : Driver) : HomingReturnCode.t * Driver :=
  let '(status, w) :=
    execute_homing_at_current_position hw (Config.home_offset_rad config_)
      (world s) in
  (status,
   emit (EvExecuteHomingAtCurrentPosition (Config.home_offset_rad config_))
        (set_world w s)).

(** The loop that releases the motors: zero torque for
    [NUM_ZERO_TORQUE_STEPS] steps. *)
Definition release_motors (s : Driver) : Driver :=
  fold_left
    (fun s (_ : nat) =>
       (apply_action_uninitialized (Action.Torque N_JOINTS (Zero N_JOINTS)) s).2)
    (seq 0 NUM_ZERO_TORQUE_STEPS) s.

Definition msg_needs_endstop : string :=
  "Invalid config: Selected homing method needs endstop but 'has_endstop' is false.".
Definition msg_endstop_torque_zero : string :=
  "Invalid config: A homing method with end-stop search is selected but 'endstop_search_torques_Nm' is zero.".
Definition msg_index_torque_zero : string :=
  "Invalid config: A homing method with index search is selected but 'endstop_search_torques_Nm' is zero.  The sign of 'endstop_search_torques_Nm' is used to determine the index search direction (opposite direction to end stop search).".

(** The first [switch]: move to the end stop if the method asks for it.
    [inl] is the early [return false], [inr] goes on to the second switch. *)
Definition move_to_end_stop (fuel : nat) (s : Driver)
    : option (Driver + Driver) :=
  match Config.homing_method config_ with
  | ENDSTOP | ENDSTOP_INDEX | ENDSTOP_RELEASE =>
      if negb has_endstop_ then Some (inl (print msg_needs_endstop s))
      else if isZero (Config.endstop_search_torques_Nm
                        (Config.calibration config_))
      then Some (inl (print msg_endstop_torque_zero s))
      else
        (fun s' => inr (print "Reached end stop." s'))
          <$> move_until_blocking fuel
                (Config.endstop_search_torques_Nm (Config.calibration config_)) s
  | _ => Some (inr s)
  end.

(** The second [switch]: the homing itself.  [None] is the early
    [return false]. *)
Definition find_reference (s : Driver) : option HomingReturnCode.t * Driver :=
  match Config.homing_method config_ with
  | NONE => (Some HomingReturnCode.SUCCEEDED, s)
  | NEXT_INDEX | ENDSTOP_INDEX =>
      if isZero (Config.endstop_search_torques_Nm (Config.calibration config_))
      then (None, print msg_index_torque_zero s)
      else let '(status, s') := home_on_encoder_index s in (Some status, s')
  | CURRENT_POSITION | ENDSTOP =>
      let '(status, s') := home_at_current_position s in (Some status, s')
  | ENDSTOP_RELEASE =>
      let '(status, s') := home_at_current_position (release_motors s) in
      (Some status, s')
  end.

Definition homing (fuel : nat) (s : Driver) : option (bool * Driver) :=
  match move_to_end_stop fuel (print "Start homing." s) with
  | None => None
  | Some (inl s1) => Some (false, s1)
  | Some (inr s1) =>
      match find_reference s1 with
      | (None, s2) => Some (false, s2)
      | (Some homing_status, s2) =>
          Some (HomingReturnCode.eqb homing_status HomingReturnCode.SUCCEEDED,
                print "Finished homing." s2)
      end
  end.

(** *** [_initialize] and [initialize] *)

(** The loop over the joints: joint [i] of the waypoint is set to its initial
    position and the robot moves there. *)
Definition initial_move_step (acc : Vector * bool * Driver) (i : nat)
    : Vector * bool * Driver :=
  let '(waypoint, _, s) := acc in
  let waypoint := <[i := Config.initial_position_rad config_ !!! i]> waypoint in
  let '(reached_goal, s') :=
    move_to_position waypoint (Config.move_to_position_tolerance_rad config_)
      (Config.move_steps (Config.calibration config_)) s in
  (waypoint, reached_goal, s').

Definition move_to_initial_position (s : Driver) : Driver :=
  let waypoint := Observation.position (get_latest_observation s) in
  let '(_, reached_goal, s') :=
    fold_left initial_move_step (seq 0 N_JOINTS) (waypoint, false, s) in
  if negb reached_goal
  then print "Failed to reach initial position, timeout exceeded." s'
  else s'.

Definition set_gains (s : Driver) : Driver :=
  emit (EvSetPositionControlGains
          (Config.kp (Config.position_control_gains config_))
          (Config.kd (Config.position_control_gains config_)))
       (set_world (set_position_control_gains hw
                     (Config.kp (Config.position_control_gains config_))
                     (Config.kd (Config.position_control_gains config_))
                     (world s)) s).

Definition _initialize (fuel : nat) (s : Driver) : option Driver :=
  match homing fuel (set_gains s) with
  | None => None
  | Some (homing_succeeded, s1) =>
      let s2 := pause_motors s1 in
      let s3 := if homing_succeeded then move_to_initial_position s2 else s2 in
      let s4 := pause_motors s3 in
      Some (set_is_initialized homing_succeeded s4)
  end.

(** [initialize] runs [_initialize] in a real-time thread and joins it. *)
Definition initialize (fuel : nat) (s : Driver) : option Driver :=
  _initialize fuel s.

(** *** [shutdown] *)

(** The loop over the shutdown trajectory, with its [break]. *)
Fixpoint shutdown_moves (steps : list TrajectoryStep.t) (success : bool)
    (s : Driver) : bool * Driver :=
  match steps with
  | [] => (success, s)
  | step :: rest =>
      let '(reached, s') :=
        move_to_position (TrajectoryStep.target_position_rad step)
          (Config.move_to_position_tolerance_rad config_)
          (TrajectoryStep.move_steps step) s in
      let success := success && reached in
      if negb success then (success, s') else shutdown_moves rest success s'
  end.

(** One pass of the loop over the run-duration log files. *)
Definition write_run_duration_log (timestamp : Z) (s : Driver)
    (logfile_name : string) : Driver :=
  let s := print ("Write run duration log " ++ logfile_name) s in
  let '(opened, w) := open_for_append hw logfile_name (world s) in
  let s := set_world w s in
  if negb opened
  then print ("Failed to open file " ++ logfile_name ++ " for writing.") s
  else emit (EvAppendLine logfile_name timestamp (action_counter_ s)) s.

Definition shutdown (s : Driver) : Driver :=
  let '(success, s) :=
    shutdown_moves (Config.shutdown_trajectory config_) true s in
  let s := pause_motors s in
  let s :=
    if negb success
    then print "Failed to reach rest position.  Robot may be blocked." s
    else s in
  let timestamp := static_cast_int (get_current_time_sec hw (world s)) in
  fold_left (write_run_duration_log timestamp)
            (Config.run_duration_logfiles config_) s.

(** ** How the driver state advances

    [advances s s'] holds when [s'] comes from [s] by calls that leave
    [is_initialized_] alone, only append to the trace, write no log line, and
    step the action counter once for every torque command sent. *)

Definition is_send (e : Event) : bool :=
  match e with EvSendTorques _ => true | _ => false end.

Fixpoint sends (events : list Event) : nat :=
  match events with
  | [] => 0
  | e :: rest => (if is_send e then 1 else 0) + sends rest
  end%nat.

Definition is_log_line (e : Event) : bool :=
  match e with EvAppendLine _ _ _ => true | _ => false end.

Definition advances (s s' : Driver) : Prop :=
  is_initialized_ s' = is_initialized_ s /\
  exists events,
    trace s' = trace s ++ events /\
    action_counter_ s' = Nat.iter (sends events) counter_incr (action_counter_ s) /\
    Forall (fun e => is_log_line e = false) events.

Lemma sends_app e1 e2 : sends (e1 ++ e2) = (sends e1 + sends e2)%nat.
Proof. induction e1 as [|e e1 IH]; simpl; [reflexivity|]. rewrite IH. lia. Qed.

Lemma iter_add {A} (f : A -> A) (n m : nat) (x : A) :
  Nat.iter (n + m) f x = Nat.iter m f (Nat.iter n f x).
Proof.
  induction m as [|m IH]; simpl.
  - now rewrite Nat.add_0_r.
  - rewrite Nat.add_succ_r. simpl. now rewrite IH.
Qed.

Lemma advances_refl s : advances s s.
Proof.
  split; [reflexivity|]. exists []. rewrite app_nil_r. repeat split.
  constructor.
Qed.

Lemma advances_trans s1 s2 s3 :
  advances s1 s2 -> advances s2 s3 -> advances s1 s3.
Proof.
  intros [Hi1 (e1 & Ht1 & Hc1 & Hl1)] [Hi2 (e2 & Ht2 & Hc2 & Hl2)].
  split; [congruence|]. exists (e1 ++ e2). split; [|split].
  - rewrite Ht2, Ht1. now rewrite app_assoc.
  - rewrite sends_app, iter_add. now rewrite <- Hc1.
  - now apply Forall_app.
Qed.

Lemma advances_set_world w s : advances s (set_world w s).
Proof.
  split; [reflexivity|]. exists []. simpl. rewrite app_nil_r.
  repeat split. constructor.
Qed.

Lemma advances_emit e s :
  is_send e = false -> is_log_line e = false -> advances s (emit e s).
Proof.
  intros He Hl. split; [reflexivity|]. exists [e]. simpl. rewrite He.
  repeat split. now constructor.
Qed.

Lemma advances_print m s : advances s (print m s).
Proof. now apply advances_emit. Qed.

Lemma advances_fold_left {A} (f : Driver -> A -> Driver) (l : list A) :
  (forall s x, advances s (f s x)) -> forall s, advances s (fold_left f l s).
Proof.
  intros Hf. induction l as [|x l IH]; intros s; simpl.
  - apply advances_refl.
  - eapply advances_trans; [apply Hf|apply IH].
Qed.

Lemma advances_pause_motors s : advances s (pause_motors s).
Proof.
  apply advances_fold_left. intros s' i.
  eapply advances_trans; [apply advances_set_world|now apply advances_emit].
Qed.

(** One call of [apply_action_uninitialized]: one torque command, one step
    of the counter, one sleep. *)
Lemma apply_action_uninitialized_effect a s :
  let s' := (apply_action_uninitialized a s).2 in
  is_initialized_ s' = is_initialized_ s /\
  action_counter_ s' = counter_incr (action_counter_ s) /\
  exists torques time_sec,
    trace s' = trace s ++ [EvSendTorques torques; EvSleepUntil time_sec].
Proof.
  unfold apply_action_uninitialized. simpl. repeat split.
  eexists _, _. now rewrite <- app_assoc.
Qed.

Lemma advances_apply_action_uninitialized a s :
  advances s (apply_action_uninitialized a s).2.
Proof.
  destruct (apply_action_uninitialized_effect a s) as (Hi & Hc & t & u & Ht).
  split; [exact Hi|]. exists [EvSendTorques t; EvSleepUntil u].
  repeat split; auto.
Qed.

Lemma advances_move_to_position goal tolerance time_steps s :
  advances s (move_to_position goal tolerance time_steps s).2.
Proof.
  unfold move_to_position. simpl. apply advances_fold_left.
  intros s' t. apply advances_apply_action_uninitialized.
Qed.

Lemma advances_release_motors s : advances s (release_motors s).
Proof.
  apply advances_fold_left. intros s' t.
  apply advances_apply_action_uninitialized.
Qed.

Lemma advances_blocking_step torques ls :
  advances ls.2 (blocking_step torques ls).2.
Proof. destruct ls as [l s]. apply advances_apply_action_uninitialized. Qed.

Lemma advances_move_until_blocking_loop fuel torques ls r :
  move_until_blocking_loop fuel torques ls = Some r -> advances ls.2 r.2.
Proof.
  revert ls. induction fuel as [|fuel IH]; intros ls; simpl;
    destruct (keeps_moving ls.1); try discriminate;
    try (intros [= <-]; apply advances_refl).
  intros H.
  eapply advances_trans; [apply (advances_blocking_step torques)|].
  now apply IH.
Qed.

Lemma advances_move_until_blocking fuel torques s s' :
  move_until_blocking fuel torques s = Some s' -> advances s s'.
Proof.
  unfold move_until_blocking.
  destruct (move_until_blocking_loop _ _ _) as [r|] eqn:E; [|discriminate].
  intros [= <-]. apply (advances_move_until_blocking_loop _ _ _ _ E).
Qed.

Lemma advances_home_on_encoder_index s :
  advances s (home_on_encoder_index s).2.
Proof.
  unfold home_on_encoder_index. destruct (execute_homing _ _ _ _ _) as [st w].
  eapply advances_trans; [apply advances_set_world|now apply advances_emit].
Qed.

Lemma advances_home_at_current_position s :
  advances s (home_at_current_position s).2.
Proof.
  unfold home_at_current_position.
  destruct (execute_homing_at_current_position _ _ _) as [st w].
  eapply advances_trans; [apply advances_set_world|now apply advances_emit].
Qed.

Lemma advances_move_to_end_stop fuel s r :
  move_to_end_stop fuel s = Some r ->
  advances s (match r with inl s' | inr s' => s' end).
Proof.
  unfold move_to_end_stop.
  destruct (Config.homing_method config_);
    try (intros [= <-]; apply advances_refl);
    (destruct (negb has_endstop_); [intros [= <-]; apply advances_print|]);
    (destruct (isZero _); [intros [= <-]; apply advances_print|]);
    destruct (move_until_blocking _ _ _) as [s'|] eqn:E; try discriminate;
    intros [= <-];
    (eapply advances_trans;
      [apply (advances_move_until_blocking _ _ _ _ E)|apply advances_print]).
Qed.

Lemma advances_find_reference s : advances s (find_reference s).2.
Proof.
  unfold find_reference. destruct (Config.homing_method config_).
  - apply advances_refl.
  - destruct (isZero _); [apply advances_print|].
    pose proof (advances_home_on_encoder_index s).
    now destruct (home_on_encoder_index s).
  - pose proof (advances_home_at_current_position s).
    now destruct (home_at_current_position s).
  - pose proof (advances_home_at_current_position s).
    now destruct (home_at_current_position s).
  - destruct (isZero _); [apply advances_print|].
    pose proof (advances_home_on_encoder_index s).
    now destruct (home_on_encoder_index s).
  - pose proof (advances_home_at_current_position (release_motors s)).
    destruct (home_at_current_position (release_motors s)).
    eapply advances_trans; [apply advances_release_motors|eassumption].
Qed.

Lemma advances_homing fuel s ok s' :
  homing fuel s = Some (ok, s') -> advances s s'.
Proof.
  unfold homing.
  destruct (move_to_end_stop fuel _) as [[s1|s1]|] eqn:E; try discriminate;
    pose proof (advances_move_to_end_stop _ _ _ E) as H1; simpl in H1.
  - intros [= _ <-].
    eapply advances_trans; [apply advances_print|exact H1].
  - pose proof (advances_find_reference s1) as H2.
    destruct (find_reference s1) as [[st|] s2]; intros [= _ <-]; simpl in H2.
    + eapply advances_trans; [apply advances_print|].
      eapply advances_trans; [exact H1|].
      eapply advances_trans; [exact H2|apply advances_print].
    + eapply advances_trans; [apply advances_print|].
      eapply advances_trans; [exact H1|exact H2].
Qed.

Lemma advances_move_to_initial_position s :
  advances s (move_to_initial_position s).
Proof.
  unfold move_to_initial_position.
  set (w := Observation.position _).
  assert (H : forall l acc, advances acc.2 (fold_left initial_move_step l acc).2).
  { induction l as [|i l IH]; intros [[wp r] s0]; cbn [fold_left].
    - apply advances_refl.
    - eapply advances_trans; [|apply IH].
      unfold initial_move_step.
      pose proof (advances_move_to_position
                    (<[i:=Config.initial_position_rad config_ !!! i]> wp)
                    (Config.move_to_position_tolerance_rad config_)
                    (Config.move_steps (Config.calibration config_)) s0) as Hm.
      now destruct (move_to_position _ _ _ s0). }
  specialize (H (seq 0 N_JOINTS) (w, false, s)).
  destruct (fold_left _ _ _) as [[wp r] s']. simpl in H.
  destruct (negb r); [|exact H].
  eapply advances_trans; [exact H|apply advances_print].
Qed.

Lemma advances_shutdown_moves steps success s :
  advances s (shutdown_moves steps success s).2.
Proof.
  revert success s.
  induction steps as [|step steps IH]; intros success s; cbn [shutdown_moves].
  - apply advances_refl.
  - pose proof (advances_move_to_position
                  (TrajectoryStep.target_position_rad step)
                  (Config.move_to_position_tolerance_rad config_)
                  (TrajectoryStep.move_steps step) s) as Hm.
    destruct (move_to_position _ _ _ s) as [reached s'].
    destruct (negb (success && reached)); [exact Hm|].
    eapply advances_trans; [exact Hm|apply IH].
Qed.

(** ** Homing fails fast *)

Definition needs_end_stop (m : HomingMethod) : bool :=
  match m with
  | ENDSTOP | ENDSTOP_INDEX | ENDSTOP_RELEASE => true
  | _ => false
  end.

Definition needs_index_search (m : HomingMethod) : bool :=
  match m with
  | NEXT_INDEX | ENDSTOP_INDEX => true
  | _ => false
  end.

(** C5. With a method that needs the end stop on hardware that has none, or
    with an all-zero search torque and a method that searches the end stop or
    the encoder index, [homing] returns [false]; it has printed two messages
    and done nothing else: no call on the hardware, no action counted. *)
Theorem homing_fails_fast (fuel : nat) (s : Driver) :
  let method := Config.homing_method config_ in
  let torques := Config.endstop_search_torques_Nm (Config.calibration config_) in
  (needs_end_stop method = true /\ has_endstop_ = false) \/
  (needs_end_stop method = true /\ isZero torques = true) \/
  (needs_index_search method = true /\ isZero torques = true) ->
  exists message s',
    homing fuel s = Some (false, s') /\
    world s' = world s /\
    action_counter_ s' = action_counter_ s /\
    is_initialized_ s' = is_initialized_ s /\
    trace s' = trace s ++ [EvPrint "Start homing."; EvPrint message].
Proof.
  cbv zeta. unfold homing, move_to_end_stop, find_reference.
  intros [[Hm He]|[[Hm Hz]|[Hm Hz]]].
  - rewrite He. simpl negb.
    destruct (Config.homing_method config_); try discriminate;
      eexists _, _; (split; [reflexivity|]); simpl;
      rewrite <- app_assoc; auto.
  - rewrite Hz.
    destruct (Config.homing_method config_); try discriminate;
      destruct (negb has_endstop_);
      eexists _, _; (split; [reflexivity|]); simpl;
      rewrite <- app_assoc; auto.
  - rewrite Hz.
    destruct (Config.homing_method config_); try discriminate;
      try destruct (negb has_endstop_);
      eexists _, _; (split; [reflexivity|]); simpl;
      rewrite <- app_assoc; auto.
Qed.

(** ** The blocking move *)

Lemma window_smaller_than_minimum :
  (SIZE_VELOCITY_WINDOW < MIN_STEPS_MOVE_TO_END_STOP)%Z.
Proof. reflexivity. Qed.

(** The loop state after [n] iterations. *)
Definition blocking_state (torques_Nm : Vector) (s : Driver) (n : nat)
    : BlockingLoop * Driver :=
  Nat.iter n (blocking_step torques_Nm) (blocking_loop_init, s).

(** The average the loop condition looks at: the largest coefficient of the
    running sum, over the window size. *)
Definition window_average (l : BlockingLoop) : double :=
  maxCoeff (summed_velocities l)
  / uint32_to_double (Z.to_nat SIZE_VELOCITY_WINDOW).

Lemma keeps_moving_false l :
  keeps_moving l = false <->
  (MIN_STEPS_MOVE_TO_END_STOP <= step_count l)%Z /\
  (STOP_VELOCITY <? window_average l) = false.
Proof.
  unfold keeps_moving, window_average. rewrite orb_false_iff, Z.ltb_ge.
  reflexivity.
Qed.

Lemma step_count_blocking_step torques ls :
  step_count (blocking_step torques ls).1 = ((step_count ls.1 + 1) mod 2 ^ 32)%Z.
Proof. now destruct ls as [l s]. Qed.

Lemma step_count_blocking_state torques s n :
  step_count (blocking_state torques s n).1 = (Z.of_nat n mod 2 ^ 32)%Z.
Proof.
  induction n as [|n IH].
  - reflexivity.
  - unfold blocking_state in *. rewrite Nat.iter_succ.
    rewrite step_count_blocking_step, IH, Nat2Z.inj_succ.
    rewrite Z.add_mod_idemp_l by lia. reflexivity.
Qed.

Lemma move_until_blocking_loop_spec fuel torques ls r :
  move_until_blocking_loop fuel torques ls = Some r <->
  exists n, (n <= fuel)%nat /\
    r = Nat.iter n (blocking_step torques) ls /\
    keeps_moving r.1 = false /\
    forall k, (k < n)%nat ->
      keeps_moving (Nat.iter k (blocking_step torques) ls).1 = true.
Proof.
  revert ls. induction fuel as [|fuel IH]; intros ls; cbn [move_until_blocking_loop].
  - destruct (keeps_moving ls.1) eqn:Hk.
    + split; [discriminate|]. intros (n & Hn & -> & Hs & _).
      assert (n = 0%nat) as -> by lia. simpl in Hs. congruence.
    + split.
      * intros [= <-]. exists 0%nat. repeat split; auto; intros; lia.
      * intros (n & Hn & -> & _). assert (n = 0%nat) as -> by lia. reflexivity.
  - destruct (keeps_moving ls.1) eqn:Hk.
    + rewrite IH. split.
      * intros (n & Hn & -> & Hs & Hb). exists (S n).
        rewrite Nat.iter_succ_r. repeat split; [lia|exact Hs|].
        intros [|k] Hk'; [exact Hk|]. rewrite Nat.iter_succ_r. apply Hb. lia.
      * intros ([|n] & Hn & -> & Hs & Hb); [simpl in Hs; congruence|].
        exists n. rewrite Nat.iter_succ_r in Hs |- *.
        repeat split; [lia|exact Hs|].
        intros k Hk'. specialize (Hb (S k) ltac:(lia)).
        now rewrite Nat.iter_succ_r in Hb.
    + split.
      * intros [= <-]. exists 0%nat. repeat split; auto; intros; lia.
      * intros ([|n] & Hn & -> & Hs & Hb); [reflexivity|].
        specialize (Hb 0%nat ltac:(lia)). simpl in Hb. congruence.
Qed.

(** The loop condition fails after [n] iterations: the step counter has
    reached the minimum and the window average is not above the stop
    velocity. *)
Definition stops_after (torques_Nm : Vector) (s : Driver) (n : nat) : Prop :=
  (MIN_STEPS_MOVE_TO_END_STOP <= Z.of_nat n mod 2 ^ 32)%Z /\
  (STOP_VELOCITY <? window_average (blocking_state torques_Nm s n).1) = false.

Lemma stops_after_keeps_moving torques s n :
  stops_after torques s n <->
  keeps_moving (blocking_state torques s n).1 = false.
Proof.
  unfold stops_after. rewrite keeps_moving_false, step_count_blocking_state.
  reflexivity.
Qed.

(** *** What the loop records

    The loop state after [n] iterations in terms of the velocities that were
    read: the driver has made one tick per iteration, the window holds the
    vectors of the last [SIZE_VELOCITY_WINDOW] iterations, and the sum is the
    one that the loop keeps up to date. *)

Lemma blocking_state_succ torques s n :
  blocking_state torques s (S n)
  = blocking_step torques (blocking_state torques s n).
Proof. reflexivity. Qed.

Lemma blocking_state_tick torques s n :
  (blocking_state torques s (S n)).2
  = (apply_action_uninitialized (Action.Torque N_JOINTS torques)
       (blocking_state torques s n).2).2.
Proof.
  rewrite blocking_state_succ. now destruct (blocking_state torques s n).
Qed.

(** The absolute velocities read in iteration [k], counted from 0: those of
    the observation that follows the torque command of that iteration. *)
Definition recorded_velocities (torques_Nm : Vector) (s : Driver) (k : nat)
    : Vector :=
  cwiseAbs
    (Observation.velocity
       (get_latest_observation (blocking_state torques_Nm s (S k)).2)).

(** The value of [step_count] after [n] iterations: a [uint32_t], so it
    counts the iterations up to [2^32] and then starts again at zero. *)
Definition counter_at (n : nat) : Z := (Z.of_nat n mod 2 ^ 32)%Z.

(** The sum as the loop keeps it over the recorded vectors [v]: it starts at
    zero, and iteration [n] first takes off the vector recorded
    [SIZE_VELOCITY_WINDOW] iterations earlier, if the step counter has
    reached the window size, and then adds the vector it records.  Both
    steps are binary64 operations, so this is not in general the sum of the
    last [SIZE_VELOCITY_WINDOW] vectors. *)
Fixpoint running_sum (v : nat -> Vector) (n : nat) : Vector :=
  match n with
  | O => Zero N_JOINTS
  | S n' =>
      vadd (if (SIZE_VELOCITY_WINDOW <=? counter_at n')%Z
            then vsub (running_sum v n')
                      (v (n' - Z.to_nat SIZE_VELOCITY_WINDOW)%nat)
            else running_sum v n')
           (v n')
  end.

(** The number that is compared with the stop velocity. *)
Definition running_average (v : nat -> Vector) (n : nat) : double :=
  maxCoeff (running_sum v n)
  / uint32_to_double (Z.to_nat SIZE_VELOCITY_WINDOW).

Ltac euclid :=
  repeat match goal with x : _ |- _ => clear x end;
  intros; zify; Z.to_euclidean_division_equations; lia.

Lemma counter_at_small (n : nat) :
  (Z.of_nat n < 2 ^ 32)%Z -> counter_at n = Z.of_nat n.
Proof.
  unfold counter_at. change (2 ^ 32)%Z with 4294967296%Z. intros Hn.
  apply Z.mod_small. lia.
Qed.

Lemma counter_at_add (k d : nat) :
  (counter_at k + Z.of_nat d < 2 ^ 32)%Z ->
  counter_at (k + d) = (counter_at k + Z.of_nat d)%Z.
Proof.
  unfold counter_at. change (2 ^ 32)%Z with 4294967296%Z. euclid.
Qed.

Lemma counter_at_sub (n : nat) :
  (SIZE_VELOCITY_WINDOW <= counter_at n)%Z ->
  (Z.to_nat SIZE_VELOCITY_WINDOW <= n)%nat /\
  counter_at (n - Z.to_nat SIZE_VELOCITY_WINDOW)
  = (counter_at n - SIZE_VELOCITY_WINDOW)%Z.
Proof.
  unfold counter_at, SIZE_VELOCITY_WINDOW.
  change (2 ^ 32)%Z with 4294967296%Z. change (Z.to_nat 100) with 100%nat.
  euclid.
Qed.

Lemma window_slots_differ (a b : Z) :
  (0 <= a)%Z -> (a < b < a + SIZE_VELOCITY_WINDOW)%Z ->
  Z.to_nat (a mod SIZE_VELOCITY_WINDOW) <> Z.to_nat (b mod SIZE_VELOCITY_WINDOW).
Proof. unfold SIZE_VELOCITY_WINDOW. euclid. Qed.

Lemma window_slot_same (a : Z) :
  ((a - SIZE_VELOCITY_WINDOW) mod SIZE_VELOCITY_WINDOW
   = a mod SIZE_VELOCITY_WINDOW)%Z.
Proof. unfold SIZE_VELOCITY_WINDOW. euclid. Qed.

Lemma window_slot_bound (a : Z) :
  (Z.to_nat (a mod SIZE_VELOCITY_WINDOW) < Z.to_nat SIZE_VELOCITY_WINDOW)%nat.
Proof.
  unfold SIZE_VELOCITY_WINDOW. change (Z.to_nat 100) with 100%nat. euclid.
Qed.

Lemma counter_at_bounds (n : nat) : (0 <= counter_at n < 2 ^ 32)%Z.
Proof. apply Z.mod_pos_bound. reflexivity. Qed.

(** After [n] iterations the sum is the running sum of the recorded vectors,
    and the vector recorded in iteration [k], one of the last
    [SIZE_VELOCITY_WINDOW] between which the step counter has not started
    again, is in the slot of the step counter of [k]. *)
Lemma blocking_state_window torques s n :
  length (running_velocities (blocking_state torques s n).1)
  = Z.to_nat SIZE_VELOCITY_WINDOW /\
  summed_velocities (blocking_state torques s n).1
  = running_sum (recorded_velocities torques s) n /\
  forall k, (k < n)%nat -> (n <= k + Z.to_nat SIZE_VELOCITY_WINDOW)%nat ->
    (counter_at k + Z.of_nat (n - k) <= 2 ^ 32)%Z ->
    running_velocities (blocking_state torques s n).1
      !!! Z.to_nat (counter_at k mod SIZE_VELOCITY_WINDOW)
    = recorded_velocities torques s k.
Proof.
  induction n as [|n IH].
  - split; [apply length_replicate|]. split; [reflexivity|]. intros k Hk. lia.
  - destruct IH as (Hlen & Hsum & Hwin).
    pose proof (step_count_blocking_state torques s n) as Hcount.
    fold (counter_at n) in Hcount.
    assert (Hrec : recorded_velocities torques s n
                   = cwiseAbs
                       (Observation.velocity
                          (get_latest_observation
                             (apply_action_uninitialized
                                (Action.Torque N_JOINTS torques)
                                (blocking_state torques s n).2).2))).
    { unfold recorded_velocities. now rewrite blocking_state_tick. }
    cbn [running_sum]. rewrite blocking_state_succ.
    destruct (blocking_state torques s n) as [l s0].
    cbn [fst snd] in *. cbn [blocking_step fst running_velocities
                             summed_velocities].
    rewrite Hcount, <- Hrec. clear Hrec Hcount.
    pose proof (window_slot_bound (counter_at n)) as Hslot.
    pose proof (counter_at_bounds n) as Hn.
    split; [now rewrite length_insert|]. split.
    + destruct (SIZE_VELOCITY_WINDOW <=? counter_at n)%Z eqn:E;
        [|now rewrite Hsum].
      apply Z.leb_le in E. destruct (counter_at_sub n E) as [Hge Hsub].
      rewrite Hsum, <- (Hwin (n - Z.to_nat SIZE_VELOCITY_WINDOW)%nat).
      * now rewrite Hsub, window_slot_same.
      * unfold SIZE_VELOCITY_WINDOW in *. lia.
      * lia.
      * rewrite Hsub. unfold SIZE_VELOCITY_WINDOW in *. lia.
    + intros k Hk Hle Hwrap. destruct (decide (k = n)) as [->|Hne].
      * rewrite list_lookup_total_insert_eq; [reflexivity|]. now rewrite Hlen.
      * assert (Hadd : counter_at n = (counter_at k + Z.of_nat (n - k))%Z).
        { replace n with (k + (n - k))%nat at 1 by lia.
          apply counter_at_add. lia. }
        pose proof (counter_at_bounds k) as Hk0.
        rewrite list_lookup_total_insert_ne.
        -- apply Hwin; lia.
        -- apply not_eq_sym, window_slots_differ; [lia|].
           unfold SIZE_VELOCITY_WINDOW in *. lia.
Qed.

Lemma stops_after_running_average torques s n :
  stops_after torques s n <->
  (MIN_STEPS_MOVE_TO_END_STOP <= counter_at n)%Z /\
  (STOP_VELOCITY <? running_average (recorded_velocities torques s) n) = false.
Proof.
  unfold stops_after, window_average, running_average.
  destruct (blocking_state_window torques s n) as (_ & -> & _). reflexivity.
Qed.

(** C6 (amended). The loop of [move_until_blocking] stops after [n]
    iterations exactly when [n] is the first count at which the step counter
    has reached the minimum of 1000 steps and the largest coefficient of the
    running sum, divided by the window size, is not above the stop velocity;
    given fuel for [n] iterations the loop returns the state reached then.
    Such an [n] is at least the minimum, which exceeds the window size of
    100.  Every iteration is one tick with the torque action.  The running
    sum is the one built from the velocities read: from zero, iteration by
    iteration, the vector read 100 iterations earlier taken off, once the
    step counter has reached 100, and the new one added, in binary64; the
    vector read in one of the last 100 iterations is in the window, in the
    slot of its step counter modulo 100, as long as the step counter has not
    started again since.  So the loop stops after [n] iterations, with the
    step counter at 1000 or more, exactly when the largest coefficient of
    that sum over 100 is not above the stop velocity. *)
Theorem move_until_blocking_stops (torques_Nm : Vector) (s : Driver) :
  (forall fuel r,
     move_until_blocking_loop fuel torques_Nm (blocking_loop_init, s) = Some r
     <->
     exists n, (n <= fuel)%nat /\
       r = blocking_state torques_Nm s n /\
       stops_after torques_Nm s n /\
       forall k, (k < n)%nat -> ~ stops_after torques_Nm s k) /\
  (forall n,
     stops_after torques_Nm s n ->
     (Z.to_nat SIZE_VELOCITY_WINDOW
      < Z.to_nat MIN_STEPS_MOVE_TO_END_STOP <= n)%nat) /\
  (forall n,
     (blocking_state torques_Nm s (S n)).2
     = (apply_action_uninitialized (Action.Torque N_JOINTS torques_Nm)
          (blocking_state torques_Nm s n).2).2) /\
  (forall n,
     step_count (blocking_state torques_Nm s n).1 = counter_at n /\
     summed_velocities (blocking_state torques_Nm s n).1
     = running_sum (recorded_velocities torques_Nm s) n /\
     forall k,
       (k < n)%nat -> (n <= k + Z.to_nat SIZE_VELOCITY_WINDOW)%nat ->
       (counter_at k + Z.of_nat (n - k) <= 2 ^ 32)%Z ->
       running_velocities (blocking_state torques_Nm s n).1
         !!! Z.to_nat (counter_at k mod SIZE_VELOCITY_WINDOW)
       = recorded_velocities torques_Nm s k) /\
  (forall n,
     stops_after torques_Nm s n <->
     (MIN_STEPS_MOVE_TO_END_STOP <= counter_at n)%Z /\
     (STOP_VELOCITY
        <? running_average (recorded_velocities torques_Nm s) n) = false).
Proof.
  split; [|split; [|split; [|split]]].
  - intros fuel r. rewrite move_until_blocking_loop_spec.
    fold (blocking_state torques_Nm s).
    split; intros (n & Hn & -> & Hs & Hb); exists n;
      (split; [exact Hn|]); (split; [reflexivity|]); split.
    + now apply stops_after_keeps_moving.
    + intros k Hk Hstop. apply stops_after_keeps_moving in Hstop.
      specialize (Hb k Hk). fold (blocking_state torques_Nm s k) in Hb.
      congruence.
    + now apply stops_after_keeps_moving.
    + intros k Hk. fold (blocking_state torques_Nm s k).
      destruct (keeps_moving (blocking_state torques_Nm s k).1) eqn:E; [done|].
      apply stops_after_keeps_moving in E. now destruct (Hb k Hk).
  - intros n [Hc _]. unfold SIZE_VELOCITY_WINDOW, MIN_STEPS_MOVE_TO_END_STOP in *.
    pose proof (Z.mod_le (Z.of_nat n) (2 ^ 32) ltac:(lia) ltac:(lia)). lia.
  - apply blocking_state_tick.
  - intros n. split; [apply step_count_blocking_state|].
    now destruct (blocking_state_window torques_Nm s n) as (_ & ? & ?).
  - apply stops_after_running_average.
Qed.

(** ** Shutdown *)

Definition pause_events : list Event := EvPauseMotors <$> seq 0 N_MOTOR_BOARDS.

Lemma pause_motors_effect s :
  world (pause_motors s)
  = fold_left (fun w i => pause_motors_of_board hw i w)
      (seq 0 N_MOTOR_BOARDS) (world s) /\
  is_initialized_ (pause_motors s) = is_initialized_ s /\
  action_counter_ (pause_motors s) = action_counter_ s /\
  trace (pause_motors s) = trace s ++ pause_events.
Proof.
  unfold pause_motors, pause_events. generalize (seq 0 N_MOTOR_BOARDS).
  intros l. revert s. induction l as [|i l IH]; intros s.
  - simpl. now rewrite app_nil_r.
  - cbn [fold_left fmap list_fmap].
    destruct (IH (emit (EvPauseMotors i)
                    (set_world (pause_motors_of_board hw i (world s)) s)))
      as (Hw & Hi & Hc & Ht).
    rewrite Hw, Hi, Hc, Ht. simpl. now rewrite <- app_assoc.
Qed.

(** One waypoint of the shutdown trajectory: the state it leaves and whether
    it reached its goal. *)
Definition shutdown_move (step : TrajectoryStep.t) (s : Driver) : bool * Driver :=
  move_to_position (TrajectoryStep.target_position_rad step)
    (Config.move_to_position_tolerance_rad config_)
    (TrajectoryStep.move_steps step) s.

(** The state after moving through the waypoints [steps] in order. *)
Definition moved_through (steps : list TrajectoryStep.t) (s : Driver) : Driver :=
  fold_left (fun s step => (shutdown_move step s).2) steps s.

Lemma moved_through_app l1 l2 s :
  moved_through (l1 ++ l2) s = moved_through l2 (moved_through l1 s).
Proof. apply fold_left_app. Qed.

(** The loop runs the waypoints in order up to the first that fails. *)
Lemma shutdown_moves_spec steps s :
  exists done rest,
    steps = done ++ rest /\
    (shutdown_moves steps true s).2 = moved_through done s /\
    (forall pre step post,
       done = pre ++ step :: post ->
       (shutdown_move step (moved_through pre s)).1
       = match post with
         | [] => (shutdown_moves steps true s).1
         | _ => true
         end) /\
    ((shutdown_moves steps true s).1 = true -> rest = []) /\
    ((shutdown_moves steps true s).1 = false -> done <> []).
Proof.
  revert s. induction steps as [|step steps IH]; intros s.
  - exists [], []. simpl. repeat split; auto; try discriminate.
    intros [|? ?] ? ? H; discriminate H.
  - cbn [shutdown_moves]. fold (shutdown_move step s).
    destruct (shutdown_move step s) as [reached s'] eqn:E.
    destruct reached; cbn [andb negb].
    + destruct (IH s') as (done & rest & -> & Hs & Hr & Ht & Hf).
      exists (step :: done), rest. cbn [moved_through fold_left app].
      rewrite E. cbn [snd]. repeat split; auto.
      intros [|x pre] st post Heq; injection Heq as -> Heq.
      * subst done. cbn [moved_through fold_left]. rewrite E. cbn [fst].
        destruct post as [|y post]; [|reflexivity].
        destruct (shutdown_moves _ true s').1 eqn:Es; auto.
        now destruct (Hf eq_refl).
      * subst done. cbn [moved_through fold_left]. rewrite E. cbn [snd].
        apply (Hr pre st post eq_refl).
    + exists [step], steps. cbn [moved_through fold_left app snd fst].
      rewrite E. repeat split; auto; try discriminate.
      intros [|x pre] st post Heq; injection Heq as -> Heq.
      * subst post. cbn [moved_through fold_left]. now rewrite E.
      * destruct pre; discriminate Heq.
Qed.

(** What one pass of the log loop appends. *)
Definition log_events (timestamp : Z) (count : Counter) (file : string)
    (opened : bool) : list Event :=
  [EvPrint ("Write run duration log " ++ file);
   if opened then EvAppendLine file timestamp count
   else EvPrint ("Failed to open file " ++ file ++ " for writing.")].

Lemma write_run_duration_logs_effect timestamp files s :
  let s' := fold_left (write_run_duration_log timestamp) files s in
  is_initialized_ s' = is_initialized_ s /\
  action_counter_ s' = action_counter_ s /\
  exists opened : list bool,
    length opened = length files /\
    trace s' = trace s ++
      concat (zip_with (log_events timestamp (action_counter_ s)) files opened).
Proof.
  revert s. induction files as [|f files IH]; intros s; cbv zeta.
  - simpl. repeat split. exists []. simpl. now rewrite app_nil_r.
  - cbn [fold_left].
    destruct (IH (write_run_duration_log timestamp s f)) as (Hi & Hc & fl & Hl & Ht).
    cbv zeta in Hi, Hc, Ht. rewrite Hi, Hc, Ht. clear Hi Hc Ht IH.
    unfold write_run_duration_log.
    destruct (open_for_append hw f (world (print _ s))) as [ok w].
    destruct ok; simpl; (split; [reflexivity|]); (split; [reflexivity|]);
      [exists (true :: fl)|exists (false :: fl)];
      simpl; rewrite Hl, <- !app_assoc; split; reflexivity.
Qed.

(** Whether each log file opens, in the order in which the loop opens them,
    from the world [w]: what [open_for_append] answers for each, every call
    made in the world that the one before has left. *)
Fixpoint opened_files (files : list string) (w : World) : list bool :=
  match files with
  | [] => []
  | file :: rest =>
      let '(opened, w') := open_for_append hw file w in
      opened :: opened_files rest w'
  end.

(** The world after these calls. *)
Fixpoint world_after_opening (files : list string) (w : World) : World :=
  match files with
  | [] => w
  | file :: rest => world_after_opening rest (open_for_append hw file w).2
  end.

Lemma length_opened_files files w :
  length (opened_files files w) = length files.
Proof.
  revert w. induction files as [|f files IH]; intros w; [reflexivity|].
  cbn [opened_files]. destruct (open_for_append hw f w) as [ok w'].
  cbn [length]. now rewrite IH.
Qed.

(** The log loop appends the line of a file exactly when the file opens. *)
Lemma write_run_duration_logs_trace timestamp files s :
  let s' := fold_left (write_run_duration_log timestamp) files s in
  world s' = world_after_opening files (world s) /\
  trace s' = trace s ++
    concat (zip_with (log_events timestamp (action_counter_ s)) files
              (opened_files files (world s))).
Proof.
  revert s. induction files as [|f files IH]; intros s; cbv zeta.
  - simpl. now rewrite app_nil_r.
  - cbn [fold_left opened_files world_after_opening].
    destruct (IH (write_run_duration_log timestamp s f)) as (Hw & Ht).
    cbv zeta in Hw, Ht. rewrite Hw, Ht. clear Hw Ht IH.
    unfold write_run_duration_log.
    change (world (print ("Write run duration log " ++ f) s)) with (world s).
    destruct (open_for_append hw f (world s)) as [ok w].
    destruct ok; simpl; rewrite <- !app_assoc; split; reflexivity.
Qed.


(** ** The action counter *)

(** [counted c0 s]: the counter, started at [c0], has stepped once for
    every torque command in the trace. *)
Definition counted (c0 : Counter) (s : Driver) : Prop :=
  action_counter_ s = Nat.iter (sends (trace s)) counter_incr c0.

Lemma advances_counted c0 s s' :
  advances s s' -> counted c0 s -> counted c0 s'.
Proof.
  unfold counted. intros [_ (ev & Ht & Hc & _)] H.
  now rewrite Hc, Ht, sends_app, iter_add, H.
Qed.

Lemma action_counter_fold_apply (f : nat -> Action.t) (l : list nat) s :
  action_counter_
    (fold_left (fun s t => (apply_action_uninitialized (f t) s).2) l s)
  = Nat.iter (length l) counter_incr (action_counter_ s).
Proof.
  revert s. induction l as [|t l IH]; intros s; [reflexivity|].
  cbn [fold_left length]. rewrite IH, Nat.iter_succ_r.
  now destruct (apply_action_uninitialized_effect (f t) s) as (_ & -> & _).
Qed.

Lemma move_to_position_counter goal tolerance time_steps s :
  action_counter_ (move_to_position goal tolerance time_steps s).2
  = Nat.iter time_steps counter_incr (action_counter_ s).
Proof.
  unfold move_to_position. cbn [snd].
  rewrite (action_counter_fold_apply
             (fun t => Action.Position N_JOINTS
                         (step_goal (Observation.position
                                       (get_latest_observation s))
                            goal time_steps t))).
  now rewrite length_seq.
Qed.

Lemma release_motors_counter s :
  action_counter_ (release_motors s)
  = Nat.iter NUM_ZERO_TORQUE_STEPS counter_incr (action_counter_ s).
Proof.
  unfold release_motors.
  rewrite (action_counter_fold_apply
             (fun _ => Action.Torque N_JOINTS (Zero N_JOINTS))).
  now rewrite length_seq.
Qed.

Lemma blocking_state_counter torques s n :
  action_counter_ (blocking_state torques s n).2
  = Nat.iter n counter_incr (action_counter_ s).
Proof.
  induction n as [|n IH]; [reflexivity|].
  unfold blocking_state in *. rewrite !Nat.iter_succ, <- IH.
  destruct (Nat.iter n _ _) as [l s']. cbn [blocking_step snd].
  now destruct (apply_action_uninitialized_effect
                  (Action.Torque N_JOINTS torques) s') as (_ & -> & _).
Qed.

Lemma log_events_no_send timestamp count files opened :
  sends (concat (zip_with (log_events timestamp count) files opened)) = 0%nat.
Proof.
  revert opened. induction files as [|f files IH]; intros [|o opened];
    try reflexivity.
  cbn [zip_with concat]. rewrite sends_app, IH. now destruct o.
Qed.

Lemma log_events_count timestamp count files opened f ts c :
  EvAppendLine f ts c
    ∈ concat (zip_with (log_events timestamp count) files opened) ->
  ts = timestamp /\ c = count.
Proof.
  revert opened. induction files as [|f' files IH]; intros [|o opened];
    cbn [zip_with concat]; try (intros H; now apply elem_of_nil in H).
  rewrite elem_of_app. intros [H|H]; [|now apply (IH opened)].
  unfold log_events in H. destruct o.
  - apply elem_of_cons in H as [H|H]; [discriminate|].
    apply list_elem_of_singleton in H. now injection H as -> -> ->.
  - apply elem_of_cons in H as [H|H]; [discriminate|].
    apply list_elem_of_singleton in H. discriminate.
Qed.

(** The state in which [shutdown] starts to write the log files. *)
Lemma shutdown_before_logs s :
  exists s3,
    advances s s3 /\
    shutdown s
    = fold_left
        (write_run_duration_log
           (static_cast_int (get_current_time_sec hw (world s3))))
        (Config.run_duration_logfiles config_) s3.
Proof.
  unfold shutdown.
  pose proof (advances_shutdown_moves (Config.shutdown_trajectory config_)
                true s) as Hm.
  destruct (shutdown_moves _ true s) as [success s1]. cbn [snd] in Hm.
  eexists. split; [|reflexivity].
  eapply advances_trans; [exact Hm|].
  eapply advances_trans; [apply advances_pause_motors|].
  destruct (negb success); [apply advances_print|apply advances_refl].
Qed.

Lemma shutdown_counted c0 s :
  counted c0 s ->
  counted c0 (shutdown s) /\
  forall events f ts c,
    trace (shutdown s) = trace s ++ events ->
    EvAppendLine f ts c ∈ events ->
    c = Nat.iter (sends (trace (shutdown s))) counter_incr c0.
Proof.
  intros Hc0. destruct (shutdown_before_logs s) as (s3 & Hadv & ->).
  pose proof (advances_counted c0 _ _ Hadv Hc0) as Hc3.
  destruct Hadv as [_ (e3 & Ht3 & _ & Hno)].
  destruct (write_run_duration_logs_effect
              (static_cast_int (get_current_time_sec hw (world s3)))
              (Config.run_duration_logfiles config_) s3)
    as (_ & Hc & opened & _ & Ht).
  cbv zeta in Hc, Ht. unfold counted in *.
  assert (Hfinal : action_counter_
                     (fold_left
                        (write_run_duration_log
                           (static_cast_int
                              (get_current_time_sec hw (world s3))))
                        (Config.run_duration_logfiles config_) s3)
                   = Nat.iter
                       (sends
                          (trace
                             (fold_left
                                (write_run_duration_log
                                   (static_cast_int
                                      (get_current_time_sec hw (world s3))))
                                (Config.run_duration_logfiles config_) s3)))
                       counter_incr c0).
  { rewrite Hc, Ht, sends_app, log_events_no_send, Nat.add_0_r. exact Hc3. }
  split; [exact Hfinal|].
  intros events f ts c Hev Hin.
  rewrite Ht, Ht3, <- app_assoc in Hev. apply app_inv_head in Hev. subst events.
  apply elem_of_app in Hin as [Hin|Hin].
  - rewrite Forall_forall in Hno. specialize (Hno _ Hin). discriminate.
  - apply log_events_count in Hin as [_ ->]. rewrite <- Hfinal. now rewrite Hc.
Qed.

Lemma advances_set_gains s : advances s (set_gains s).
Proof.
  unfold set_gains.
  eapply advances_trans; [apply advances_set_world|now apply advances_emit].
Qed.

Lemma initialize_advances fuel s s' :
  _initialize fuel s = Some s' ->
  exists ok s4, s' = set_is_initialized ok s4 /\ advances s s4.
Proof.
  unfold _initialize.
  destruct (homing fuel (set_gains s)) as [[ok s1]|] eqn:E; [|discriminate].
  intros [= <-]. eexists _, _. split; [reflexivity|].
  eapply advances_trans; [apply advances_set_gains|].
  eapply advances_trans; [apply (advances_homing _ _ _ _ E)|].
  eapply advances_trans; [apply advances_pause_motors|].
  eapply advances_trans; [|apply advances_pause_motors].
  destruct ok; [apply advances_move_to_initial_position|apply advances_refl].
Qed.

(** C10. Every call of [apply_action_uninitialized] steps the action counter
    exactly once, and so do the calls made by [move_to_position] (one per
    time step), by the zero-torque phase of the ENDSTOP_RELEASE homing and by
    the loop of [move_until_blocking] (one per iteration).  Hence a counter
    that has counted every torque command so far still does after
    [_initialize], [apply_action] and [shutdown], and every line that
    [shutdown] appends to a run-duration log carries the number of all torque
    commands of the trace: those of homing, of the move to the initial
    position and of the shutdown trajectory with those of [apply_action]. *)
Theorem action_counter_counts_every_action :
  (forall a s,
     action_counter_ (apply_action_uninitialized a s).2
     = counter_incr (action_counter_ s)) /\
  (forall goal tolerance time_steps s,
     action_counter_ (move_to_position goal tolerance time_steps s).2
     = Nat.iter time_steps counter_incr (action_counter_ s)) /\
  (forall s,
     action_counter_ (release_motors s)
     = Nat.iter NUM_ZERO_TORQUE_STEPS counter_incr (action_counter_ s)) /\
  (forall torques s n,
     action_counter_ (blocking_state torques s n).2
     = Nat.iter n counter_incr (action_counter_ s)) /\
  (forall c0 s,
     counted c0 s ->
     (forall fuel s', _initialize fuel s = Some s' -> counted c0 s') /\
     (forall a, counted c0 (apply_action a s).2) /\
     counted c0 (shutdown s) /\
     (forall events f ts c,
        trace (shutdown s) = trace s ++ events ->
        EvAppendLine f ts c ∈ events ->
        c = Nat.iter (sends (trace (shutdown s))) counter_incr c0)).
Proof.
  split; [|split; [|split; [|split]]].
  - intros a s.
    now destruct (apply_action_uninitialized_effect a s) as (_ & -> & _).
  - apply move_to_position_counter.
  - apply release_motors_counter.
  - apply blocking_state_counter.
  - intros c0 s Hc. split; [|split].
    + intros fuel s' Hi.
      destruct (initialize_advances _ _ _ Hi) as (ok & s4 & -> & Hadv).
      apply (advances_counted c0 _ _ Hadv Hc).
    + intros a. unfold apply_action.
      destruct (negb (is_initialized_ s)); [exact Hc|].
      pose proof (advances_apply_action_uninitialized a s) as Hadv.
      destruct (apply_action_uninitialized a s) as [r s'].
      apply (advances_counted c0 _ _ Hadv Hc).
    + now apply shutdown_counted.
Qed.

(** ** Initialization *)

(** The goal of the move for joint [i]: the initial position for the joints
    up to [i], and for the others the position measured before the first
    move. *)
Definition initial_waypoint (measured : Vector) (i : nat) : Vector :=
  take (S i) (Config.initial_position_rad config_) ++ drop (S i) measured.

(** The moves to the initial position, joint by joint: the value and the
    state left by the last one. *)
Definition moves_joint_by_joint (measured : Vector) (n : nat) (s : Driver)
    : bool * Driver :=
  fold_left
    (fun (acc : bool * Driver) i =>
       move_to_position (initial_waypoint measured i)
         (Config.move_to_position_tolerance_rad config_)
         (Config.move_steps (Config.calibration config_)) acc.2)
    (seq 0 n) (false, s).

Lemma insert_take_drop (a b : Vector) (n : nat) :
  (n < length a)%nat -> (n < length b)%nat ->
  <[n := a !!! n]> (take n a ++ drop n b) = take (S n) a ++ drop (S n) b.
Proof.
  intros Ha Hb.
  destruct (lookup_lt_is_Some_2 a n Ha) as [x Hx].
  destruct (lookup_lt_is_Some_2 b n Hb) as [y Hy].
  rewrite (list_lookup_total_correct _ _ _ Hx).
  rewrite (take_S_r _ _ _ Hx), (drop_S _ _ _ Hy).
  rewrite insert_app_r_alt by (rewrite length_take; lia).
  rewrite length_take, Nat.min_l by lia. rewrite Nat.sub_diag. simpl.
  now rewrite <- app_assoc.
Qed.

Lemma initial_moves_joint_by_joint measured n s :
  length measured = N_JOINTS ->
  length (Config.initial_position_rad config_) = N_JOINTS ->
  (n <= N_JOINTS)%nat ->
  fold_left initial_move_step (seq 0 n) (measured, false, s)
  = (take n (Config.initial_position_rad config_) ++ drop n measured,
     (moves_joint_by_joint measured n s).1,
     (moves_joint_by_joint measured n s).2).
Proof.
  intros Hm Hi. induction n as [|n IH]; intros Hn.
  - simpl. now rewrite drop_0.
  - unfold moves_joint_by_joint in *. rewrite seq_S, !fold_left_app.
    rewrite IH by lia. cbn [fold_left initial_move_step Nat.add].
    rewrite insert_take_drop by lia. fold (initial_waypoint measured n).
    now destruct (move_to_position _ _ _ _).
Qed.


(** [homing] returns for every fuel when the method needs no end stop. *)
Lemma homing_returns_without_end_stop fuel s :
  needs_end_stop (Config.homing_method config_) = false ->
  exists ok s', homing fuel s = Some (ok, s').
Proof.
  unfold homing, move_to_end_stop. intros H.
  destruct (Config.homing_method config_); try discriminate;
    destruct (find_reference _) as [[st|] s2]; eauto.
Qed.

(** The loop returns once the fuel covers a count of iterations at which
    the loop condition fails. *)
Lemma move_until_blocking_loop_returns fuel torques ls n :
  keeps_moving (Nat.iter n (blocking_step torques) ls).1 = false ->
  (n <= fuel)%nat ->
  exists r, move_until_blocking_loop fuel torques ls = Some r.
Proof.
  revert ls n. induction fuel as [|fuel IH]; intros ls n Hstop Hn;
    cbn [move_until_blocking_loop];
    destruct (keeps_moving ls.1) eqn:Hk; eauto.
  - assert (n = 0%nat) as -> by lia. simpl in Hstop. congruence.
  - destruct n as [|n]; [simpl in Hstop; congruence|].
    rewrite Nat.iter_succ_r in Hstop. apply (IH _ n Hstop). lia.
Qed.

(** With an end stop to find, [homing] returns once the fuel covers the
    iterations after which the blocking move stops. *)
Lemma homing_returns_when_blocked fuel s n :
  stops_after (Config.endstop_search_torques_Nm (Config.calibration config_))
    (print "Start homing." s) n ->
  (n <= fuel)%nat ->
  exists ok s', homing fuel s = Some (ok, s').
Proof.
  intros Hstop Hfuel. apply stops_after_keeps_moving in Hstop.
  destruct (move_until_blocking_loop_returns fuel _ _ n Hstop Hfuel)
    as [r Hloop].
  unfold homing, move_to_end_stop, move_until_blocking. rewrite Hloop.
  destruct (Config.homing_method config_); cbn [fmap option_fmap option_map];
    repeat match goal with
           | |- context [if ?c then _ else _] => destruct c
           end;
    try destruct (find_reference _) as [[st|] s2]; eauto.
Qed.

(** ** The minimum-jerk move *)

(** The blend of [move_to_position]: [10 a^3 - 15 a^4 + 6 a^5]. *)
Definition minimum_jerk (alpha : double) : double :=
  10 * std_pow alpha 3 - 15 * std_pow alpha 4 + 6 * std_pow alpha 5.

Lemma step_goal_lookup start goal time_steps t j :
  (j < length start)%nat -> (j < length goal)%nat ->
  step_goal start goal time_steps t !!! j
  = start !!! j
    + (goal !!! j - start !!! j)
      * minimum_jerk (uint32_to_double t / uint32_to_double time_steps).
Proof.
  intros Hs Hg. unfold step_goal, minimum_jerk. cbv zeta.
  rewrite vadd_lookup by (rewrite ?length_scale, ?length_vsub; lia).
  rewrite scale_lookup by (rewrite ?length_vsub; lia).
  now rewrite vsub_lookup.
Qed.

Lemma uint32_to_double_positive n :
  (0 < Z.of_nat n < 2 ^ 32)%Z ->
  exists m e, Prim2SF (uint32_to_double n) = S754_finite false m e.
Proof.
  intros Hn. apply of_uint63_small.
  change (2 ^ 53)%Z with 9007199254740992%Z.
  change (2 ^ 32)%Z with 4294967296%Z in *. lia.
Qed.

Lemma forallb_lookup {A} `{Inhabited A} (f : A -> bool) (l : list A) :
  forallb f l = true <-> forall j, (j < length l)%nat -> f (l !!! j) = true.
Proof.
  induction l as [|x l IH]; simpl.
  - split; [intros _ j Hj; lia|reflexivity].
  - rewrite andb_true_iff, IH. split.
    + intros [Hx Hl] [|j] Hj; [exact Hx|]. apply Hl. lia.
    + intros Hall. split; [apply (Hall 0%nat); lia|].
      intros j Hj. apply (Hall (S j)). lia.
Qed.

(** C7 (amended). [move_to_position] applies, for [t = 0 .. time_steps - 1],
    a pure position action whose target for joint [j] is [start + (goal -
    start) * (10 a^3 - 15 a^4 + 6 a^5)] at [a = t / time_steps], [start]
    being the position measured on entry.  With a [pow] that is exact at 0
    and 1: the target at [t = 0] equals the start position as a number
    whenever the start is a number and [goal - start] is finite; the blend is
    exactly 1 at [a = 1], where the target would be [start + (goal - start)].
    The value returned is [true] exactly when, after the last step, the
    absolute position error of every joint is below the tolerance. *)
Theorem move_to_position_trajectory (goal_pos : Vector) (tolerance : double)
    (time_steps : nat) (s : Driver) :
  let start := Observation.position (get_latest_observation s) in
  let r := move_to_position goal_pos tolerance time_steps s in
  let final := Observation.position (get_latest_observation r.2) in
  r.2 = fold_left
          (fun s t =>
             (apply_action_uninitialized
                (Action.Position N_JOINTS
                   (step_goal start goal_pos time_steps t)) s).2)
          (seq 0 time_steps) s /\
  (forall t j,
     (j < length start)%nat -> (j < length goal_pos)%nat ->
     step_goal start goal_pos time_steps t !!! j
     = start !!! j
       + (goal_pos !!! j - start !!! j)
         * minimum_jerk (uint32_to_double t / uint32_to_double time_steps)) /\
  (std_pow 0 3 = 0 -> std_pow 0 4 = 0 -> std_pow 0 5 = 0 ->
   (0 < Z.of_nat time_steps < 2 ^ 32)%Z ->
   forall j,
     (j < length start)%nat -> (j < length goal_pos)%nat ->
     is_nan (start !!! j) = false ->
     is_finite (goal_pos !!! j - start !!! j) = true ->
     (step_goal start goal_pos time_steps 0 !!! j =? start !!! j) = true) /\
  (std_pow 1 3 = 1 -> std_pow 1 4 = 1 -> std_pow 1 5 = 1 ->
   minimum_jerk 1 = 1 /\
   forall x g : double, x + (g - x) * minimum_jerk 1 = x + (g - x)) /\
  (length final = length goal_pos ->
   (r.1 = true <->
    forall j, (j < length goal_pos)%nat ->
      (abs (goal_pos !!! j - final !!! j) <? tolerance) = true)).
Proof.
  cbv zeta. split; [reflexivity|]. split; [|split; [|split]].
  - intros t j. apply step_goal_lookup.
  - intros H3 H4 H5 Hsteps j Hs Hg Hnan Hfin.
    rewrite step_goal_lookup by assumption.
    destruct (uint32_to_double_positive time_steps Hsteps) as (m & e & Hpos).
    change (uint32_to_double 0) with 0.
    rewrite (zero_div_pos _ m e Hpos).
    unfold minimum_jerk. rewrite H3, H4, H5.
    change (10 * 0 - 15 * 0 + 6 * 0) with 0.
    destruct (mul_zero_r _ Hfin) as [sz Hz].
    apply (add_zero_eqb _ _ sz Hnan Hz).
  - intros H3 H4 H5.
    assert (H1 : minimum_jerk 1 = 1)
      by (unfold minimum_jerk; rewrite H3, H4, H5; reflexivity).
    split; [exact H1|]. intros x g. now rewrite H1, mul_1_r.
  - intros Hlen. unfold move_to_position. cbn [fst snd].
    set (final := Observation.position _) in *.
    rewrite forallb_lookup, length_vsub, Hlen, Nat.min_id.
    split; intros Hall j Hj; specialize (Hall j Hj).
    + rewrite vsub_lookup in Hall by lia. exact Hall.
    + rewrite vsub_lookup by lia. exact Hall.
Qed.

(** ** Ticks before and after initialization *)

(** X5. While the robot is not initialized a tick knows no position limit:
    the action that is applied is the desired one sent through the position
    controller and the safety checks only, and its position target is the
    desired one, however far out it is and wherever the joints are. *)
Theorem uninitialized_tick_ignores_limits (desired_action : Action.t)
    (s : Driver) :
  is_initialized_ s = false ->
  let observation := get_latest_observation s in
  let applied_action := (apply_action_uninitialized desired_action s).1 in
  applied_action
  = safety_checks observation max_torque_Nm_ (Config.safety_kd config_)
      (position_controller observation
         (Config.kp (Config.position_control_gains config_))
         (Config.kd (Config.position_control_gains config_)) desired_action) /\
  Action.position applied_action = Action.position desired_action.
Proof.
  intros Hinit. cbv zeta.
  assert (Hlim : position_limits N_JOINTS (get_latest_observation s)
                   (Config.kp (Config.position_control_gains config_))
                   (Config.kd (Config.position_control_gains config_))
                   (Constant N_JOINTS neg_infinity)
                   (Constant N_JOINTS infinity) desired_action
                 = desired_action).
  { apply position_limits_inactive. intros i Hi. unfold limits_inactive.
    rewrite !Constant_lookup by exact Hi.
    repeat split; auto using ltb_neg_infinity, infinity_ltb. }
  unfold apply_action_uninitialized. rewrite Hinit. cbn [fst].
  unfold process_desired_action. rewrite Hlim. split; [reflexivity|].
  unfold safety_checks, position_controller.
  now destruct (position_controller_runs desired_action).
Qed.

(** X6. [apply_action] after [_initialize]: the flag that [_initialize]
    leaves is the result of homing.  If homing succeeded the action goes
    through the pipeline with the soft position limits of the configuration;
    if homing failed the call is refused and changes nothing: no torque is
    sent and no action is counted. *)
Theorem apply_action_after_initialize (fuel : nat) (s : Driver)
    (desired_action : Action.t) :
  match _initialize fuel s with
  | None => homing fuel (set_gains s) = None
  | Some s' =>
      exists homing_succeeded s1,
        homing fuel (set_gains s) = Some (homing_succeeded, s1) /\
        is_initialized_ s' = homing_succeeded /\
        if homing_succeeded
        then apply_action desired_action s'
             = (inr (process_desired_action N_JOINTS desired_action
                       (get_latest_observation s') max_torque_Nm_
                       (Config.safety_kd config_)
                       (Config.kp (Config.position_control_gains config_))
                       (Config.kd (Config.position_control_gains config_))
                       (Config.soft_position_limits_lower config_)
                       (Config.soft_position_limits_upper config_)),
                (apply_action_uninitialized desired_action s').2)
        else exists message,
               apply_action desired_action s' = (inl message, s')
  end.
Proof.
  unfold _initialize.
  destruct (homing fuel (set_gains s)) as [[ok s1]|]; [|reflexivity].
  exists ok, s1. split; [reflexivity|]. split; [reflexivity|].
  unfold apply_action. cbn [set_is_initialized is_initialized_].
  destruct ok; cbn [negb].
  - unfold apply_action_uninitialized. cbn [is_initialized_ snd]. reflexivity.
  - eexists. reflexivity.
Qed.

(** X7. [shutdown] never clears [is_initialized_]: a driver that accepted
    actions before [shutdown] accepts them afterwards, and one that refused
    them still does. *)
Theorem shutdown_keeps_initialized (s : Driver) :
  is_initialized_ (shutdown s) = is_initialized_ s /\
  forall desired_action,
    match (apply_action desired_action (shutdown s)).1 with
    | inl _ => is_initialized_ s = false
    | inr _ => is_initialized_ s = true
    end.
Proof.
  assert (H : is_initialized_ (shutdown s) = is_initialized_ s).
  { destruct (shutdown_before_logs s) as (s3 & [Hflag _] & ->).
    destruct (write_run_duration_logs_effect
                (static_cast_int (get_current_time_sec hw (world s3)))
                (Config.run_duration_logfiles config_) s3) as (Hi & _).
    cbv zeta in Hi. now rewrite Hi. }
  split; [exact H|]. intros a. unfold apply_action. rewrite H.
  destruct (is_initialized_ s); cbn [negb fst]; [|reflexivity].
  now destruct (apply_action_uninitialized a (shutdown s)).
Qed.

(** ** Homing without motion *)

(** X8. With the methods NONE, NEXT_INDEX and CURRENT_POSITION [homing]
    returns whatever the fuel, and it sends no torque command and counts no
    action.  With NONE it succeeds without a call on the hardware; with
    CURRENT_POSITION it makes the one call that declares the current
    position the reference, and succeeds exactly when that call reports
    SUCCEEDED. *)
Theorem homing_without_motion (fuel : nat) (s : Driver) :
  needs_end_stop (Config.homing_method config_) = false ->
  exists ok s' events,
    homing fuel s = Some (ok, s') /\
    trace s' = trace s ++ events /\
    sends events = 0%nat /\
    action_counter_ s' = action_counter_ s /\
    is_initialized_ s' = is_initialized_ s /\
    (Config.homing_method config_ = NONE ->
     ok = true /\ world s' = world s /\
     events = [EvPrint "Start homing."; EvPrint "Finished homing."]) /\
    (Config.homing_method config_ = CURRENT_POSITION ->
     let call :=
       execute_homing_at_current_position hw (Config.home_offset_rad config_)
         (world s) in
     ok = HomingReturnCode.eqb call.1 HomingReturnCode.SUCCEEDED /\
     world s' = call.2 /\
     events = [EvPrint "Start homing.";
               EvExecuteHomingAtCurrentPosition (Config.home_offset_rad config_);
               EvPrint "Finished homing."]).
Proof.
  intros Hm.
  unfold homing, move_to_end_stop, find_reference, home_on_encoder_index,
    home_at_current_position.
  destruct (Config.homing_method config_) eqn:E; try discriminate.
  - eexists _, _, _. split; [reflexivity|]. cbn.
    rewrite <- app_assoc. repeat split; try reflexivity; discriminate.
  - destruct (isZero _).
    + eexists _, _, _. split; [reflexivity|]. cbn.
      rewrite <- app_assoc. repeat split; try reflexivity; discriminate.
    + cbn [print emit world]. destruct (execute_homing _ _ _ _ _) as [st w].
      eexists _, _, _. split; [reflexivity|]. cbn.
      rewrite <- !app_assoc. repeat split; try reflexivity; discriminate.
  - cbn [print emit world].
    destruct (execute_homing_at_current_position _ _ _) as [st w].
    eexists _, _, _. split; [reflexivity|]. cbn.
    rewrite <- !app_assoc. repeat split; try reflexivity; discriminate.
Qed.

(** X9. The encoder-index search of NEXT_INDEX: when the search torque is
    not zero, [homing] makes one call of [execute_homing] with the distance
    limit of one and a half motor revolutions, the home offset and one step
    size per joint, and succeeds exactly when the call reports SUCCEEDED.
    The step of a joint has the magnitude 0.0003 rad; it is negative where
    the end-stop search torque is positive and positive everywhere else,
    also where that torque is zero or NaN. *)
Theorem index_search_direction (fuel : nat) (s : Driver) :
  Config.homing_method config_ = NEXT_INDEX ->
  isZero (Config.endstop_search_torques_Nm (Config.calibration config_)) = false ->
  let call :=
    execute_homing hw ((1.5 / gear_ratio) * 2 * M_PI)
      (Config.home_offset_rad config_) index_search_step_sizes (world s) in
  (exists s',
     homing fuel s
     = Some (HomingReturnCode.eqb call.1 HomingReturnCode.SUCCEEDED, s') /\
     world s' = call.2 /\
     trace s'
     = trace s ++ [EvPrint "Start homing.";
                   EvExecuteHoming ((1.5 / gear_ratio) * 2 * M_PI)
                     (Config.home_offset_rad config_) index_search_step_sizes;
                   EvPrint "Finished homing."]) /\
  length index_search_step_sizes = N_JOINTS /\
  forall i, i < N_JOINTS ->
    let torque :=
      Config.endstop_search_torques_Nm (Config.calibration config_) !!! i in
    let step := index_search_step_sizes !!! i in
    ((0 <? torque) = true ->
     step = - INDEX_SEARCH_STEP_SIZE_RAD /\ (step <? 0) = true) /\
    ((0 <? torque) = false ->
     step = INDEX_SEARCH_STEP_SIZE_RAD /\ (0 <? step) = true).
Proof.
  intros Hm Hz. cbv zeta. split; [|split].
  - unfold homing, move_to_end_stop, find_reference, home_on_encoder_index.
    rewrite Hm, Hz. cbn [print emit world].
    fold INDEX_SEARCH_DISTANCE_LIMIT_RAD.
    destruct (execute_homing _ _ _ _ _) as [st w].
    eexists. split; [reflexivity|]. cbn. now rewrite <- !app_assoc.
  - unfold index_search_step_sizes. now rewrite length_fmap, length_seq.
  - intros i Hi. unfold index_search_step_sizes.
    rewrite (list_lookup_total_fmap
               (fun i => if 0 <? Config.endstop_search_torques_Nm
                                   (Config.calibration config_) !!! i
                         then INDEX_SEARCH_STEP_SIZE_RAD * -1
                         else INDEX_SEARCH_STEP_SIZE_RAD))
      by (rewrite length_seq; exact Hi).
    rewrite lookup_total_seq_lt by exact Hi. cbn [Nat.add].
    split; intros ->; split; reflexivity.
Qed.

(** ** Homing at the end stop *)

(** A loop of ticks sends one torque command per pass. *)
Lemma sends_fold_apply (f : nat -> Action.t) (l : list nat) s :
  exists events,
    trace (fold_left (fun s t => (apply_action_uninitialized (f t) s).2) l s)
    = trace s ++ events /\
    sends events = length l.
Proof.
  revert s. induction l as [|t l IH]; intros s; cbn [fold_left].
  - exists []. now rewrite app_nil_r.
  - destruct (IH (apply_action_uninitialized (f t) s).2) as (ev & Ht & Hs).
    destruct (apply_action_uninitialized_effect (f t) s)
      as (_ & _ & tau & u & Ht0).
    cbv zeta in Ht0. rewrite Ht, Ht0.
    exists ([EvSendTorques tau; EvSleepUntil u] ++ ev).
    split; [now rewrite <- app_assoc|].
    rewrite sends_app, Hs. reflexivity.
Qed.

(** X10. With a method that searches the end stop, on a robot that has one
    and with a search torque that is not zero, [homing] returns only when
    the blocking move has returned.  It then announces the end stop and
    takes the reference: with ENDSTOP at once and at the position where the
    joints stopped, with ENDSTOP_RELEASE after exactly 1000 more torque
    commands, with ENDSTOP_INDEX by the search for the encoder index.
    Nothing else is sent, and the last message is the end of homing. *)
Theorem homing_at_end_stop (fuel : nat) (s : Driver) :
  let method := Config.homing_method config_ in
  let torques := Config.endstop_search_torques_Nm (Config.calibration config_) in
  needs_end_stop method = true ->
  has_endstop_ = true ->
  isZero torques = false ->
  match move_until_blocking fuel torques (print "Start homing." s) with
  | None => homing fuel s = None
  | Some s1 =>
      exists ok s' events,
        homing fuel s = Some (ok, s') /\
        trace s'
        = trace s1 ++ [EvPrint "Reached end stop."] ++ events
          ++ [match method with
              | ENDSTOP_INDEX =>
                  EvExecuteHoming INDEX_SEARCH_DISTANCE_LIMIT_RAD
                    (Config.home_offset_rad config_) index_search_step_sizes
              | _ =>
                  EvExecuteHomingAtCurrentPosition
                    (Config.home_offset_rad config_)
              end;
              EvPrint "Finished homing."] /\
        sends events
        = match method with
          | ENDSTOP_RELEASE => NUM_ZERO_TORQUE_STEPS
          | _ => 0%nat
          end /\
        (method = ENDSTOP ->
         events = [] /\
         ok = HomingReturnCode.eqb
                (execute_homing_at_current_position hw
                   (Config.home_offset_rad config_) (world s1)).1
                HomingReturnCode.SUCCEEDED)
  end.
Proof.
  cbv zeta. intros Hm He Hz.
  unfold homing, move_to_end_stop, find_reference, home_on_encoder_index,
    home_at_current_position.
  rewrite He, Hz. cbn [negb].
  destruct (Config.homing_method config_) eqn:Em; try discriminate;
    destruct (move_until_blocking _ _ _) as [s1|];
    cbn [fmap option_fmap option_map]; try reflexivity.
  - cbn [print emit world].
    destruct (execute_homing_at_current_position _ _ _) as [st w].
    exists (HomingReturnCode.eqb st HomingReturnCode.SUCCEEDED).
    eexists. exists []. split; [reflexivity|]. cbn.
    rewrite <- !app_assoc. repeat split.
  - cbn [print emit world].
    destruct (execute_homing _ _ _ _ _) as [st w].
    eexists _, _. exists []. split; [reflexivity|]. cbn.
    rewrite <- !app_assoc. repeat split; discriminate.
  - destruct (sends_fold_apply
                (fun _ => Action.Torque N_JOINTS (Zero N_JOINTS))
                (seq 0 NUM_ZERO_TORQUE_STEPS) (print "Reached end stop." s1))
      as (ev & Ht & Hs).
    fold (release_motors (print "Reached end stop." s1)) in Ht.
    rewrite length_seq in Hs.
    generalize dependent (release_motors (print "Reached end stop." s1)).
    intros sr Ht.
    destruct (execute_homing_at_current_position _ _ _) as [st w].
    eexists _, _. exists ev. split; [reflexivity|].
    cbn [print emit set_world trace]. rewrite Ht. cbn [print emit trace].
    rewrite <- !app_assoc. repeat split; [exact Hs|discriminate..].
Qed.

(** ** The velocity window of the blocking move

    [running_velocities] starts with indeterminate contents.  The loop reads
    a slot only once the step counter has reached the window size, and by
    then the slot has been written. *)

(** Two runs of the loop after [n] iterations each: the same driver state,
    running sum and step counter, and the same contents in every slot that
    has been written. *)
Definition same_run (n : nat) (a b : BlockingLoop * Driver) : Prop :=
  a.2 = b.2 /\
  summed_velocities a.1 = summed_velocities b.1 /\
  step_count a.1 = step_count b.1 /\
  step_count b.1 = (Z.of_nat n mod 2 ^ 32)%Z /\
  length (running_velocities a.1) = Z.to_nat SIZE_VELOCITY_WINDOW /\
  length (running_velocities b.1) = Z.to_nat SIZE_VELOCITY_WINDOW /\
  forall j, j < Z.to_nat SIZE_VELOCITY_WINDOW -> j < n ->
    running_velocities a.1 !!! j = running_velocities b.1 !!! j.

Lemma same_run_keeps_moving n a b :
  same_run n a b -> keeps_moving a.1 = keeps_moving b.1.
Proof.
  intros (_ & Hs & Hc & _). unfold keeps_moving. now rewrite Hs, Hc.
Qed.

Lemma same_run_step torques n a b :
  same_run n a b ->
  same_run (S n) (blocking_step torques a) (blocking_step torques b).
Proof.
  destruct a as [la sa], b as [lb sb]. cbn [fst snd].
  intros (Hst & Hs & Hc & Hn & Hla & Hlb & Hslots).
  cbn [fst snd] in *. subst sb.
  unfold same_run, blocking_step.
  cbn [fst snd running_velocities summed_velocities step_count].
  rewrite Hs, Hc.
  assert (Hle : (step_count lb <= Z.of_nat n)%Z).
  { rewrite Hn. apply Z.mod_le; lia. }
  assert (Hidx : Z.to_nat (step_count lb mod SIZE_VELOCITY_WINDOW)
                 < Z.to_nat SIZE_VELOCITY_WINDOW).
  { unfold SIZE_VELOCITY_WINDOW.
    pose proof (Z.mod_pos_bound (step_count lb) 100 ltac:(lia)). lia. }
  set (idx := Z.to_nat (step_count lb mod SIZE_VELOCITY_WINDOW)) in *.
  repeat split.
  - destruct (SIZE_VELOCITY_WINDOW <=? step_count lb)%Z eqn:E; [|reflexivity].
    apply Z.leb_le in E. rewrite Hslots; [reflexivity|exact Hidx|].
    unfold SIZE_VELOCITY_WINDOW in *. lia.
  - rewrite Hn, Nat2Z.inj_succ. rewrite Z.add_mod_idemp_l by lia. reflexivity.
  - now rewrite length_insert.
  - now rewrite length_insert.
  - intros j Hj Hjn. destruct (decide (idx = j)) as [<-|Hne].
    + now rewrite !list_lookup_total_insert_eq by lia.
    + rewrite !list_lookup_total_insert_ne by exact Hne.
      apply Hslots; [exact Hj|].
      destruct (decide (j < n)) as [Hlt|Hge]; [exact Hlt|]. exfalso.
      assert (j = n) as -> by lia. apply Hne. unfold idx.
      unfold SIZE_VELOCITY_WINDOW in *.
      assert (Hsmall : (0 <= Z.of_nat n < 100)%Z) by lia.
      rewrite Hn. change (2 ^ 32)%Z with 4294967296%Z.
      rewrite (Z.mod_small (Z.of_nat n) 4294967296) by lia.
      rewrite (Z.mod_small (Z.of_nat n) 100) by lia. lia.
Qed.

Lemma same_run_loop fuel torques n a b :
  same_run n a b ->
  snd <$> move_until_blocking_loop fuel torques a
  = snd <$> move_until_blocking_loop fuel torques b.
Proof.
  revert n a b. induction fuel as [|fuel IH]; intros n a b H;
    cbn [move_until_blocking_loop];
    rewrite (same_run_keeps_moving n a b H);
    destruct (keeps_moving b.1).
  - reflexivity.
  - cbn. now destruct H as (-> & _).
  - apply (IH (S n)). now apply same_run_step.
  - cbn. now destruct H as (-> & _).
Qed.

(** X11. The blocking move does not depend on what [running_velocities]
    holds at the start: started on any window of the right size, the loop
    stops after the same number of iterations (or runs out of the same fuel)
    and leaves the same driver state as the run that the model starts on
    NaN.  The same holds for the running sum and the step count after every
    number of iterations. *)
Theorem blocking_move_ignores_initial_window (window : list Vector)
    (torques_Nm : Vector) (s : Driver) :
  length window = Z.to_nat SIZE_VELOCITY_WINDOW ->
  let start := (BuildBlockingLoop window (Zero N_JOINTS) 0, s) in
  (forall fuel,
     snd <$> move_until_blocking_loop fuel torques_Nm start
     = move_until_blocking fuel torques_Nm s) /\
  (forall n,
     let a := Nat.iter n (blocking_step torques_Nm) start in
     let b := blocking_state torques_Nm s n in
     a.2 = b.2 /\
     summed_velocities a.1 = summed_velocities b.1 /\
     step_count a.1 = step_count b.1).
Proof.
  intros Hlen. cbv zeta.
  assert (H0 : same_run 0 (BuildBlockingLoop window (Zero N_JOINTS) 0, s)
                 (blocking_loop_init, s)).
  { unfold same_run, blocking_loop_init.
    cbn [fst snd running_velocities summed_velocities step_count].
    repeat split; try reflexivity; try exact Hlen.
    intros j _ Hj. lia. }
  split.
  - intros fuel. unfold move_until_blocking. now apply (same_run_loop _ _ 0).
  - intros n.
    assert (Hn : same_run n
                   (Nat.iter n (blocking_step torques_Nm)
                      (BuildBlockingLoop window (Zero N_JOINTS) 0, s))
                   (blocking_state torques_Nm s n)).
    { induction n as [|n IH]; [exact H0|].
      unfold blocking_state in *. rewrite !Nat.iter_succ.
      now apply same_run_step. }
    destruct Hn as (H1 & H2 & H3 & _). auto.
Qed.

(** ** The torque commands that reach the motors

    The bound of the pipeline on the returned torque, carried through every
    loop of the driver: under the assumptions below on the hardware readings
    and on the configuration, every torque vector that is sent has one finite
    coefficient per joint, within the torque limit. *)
Section SentTorques.

(** The readings have one coefficient per joint, and the measured velocities
    are finite. *)
Definition readings_wf : Prop :=
  forall w : World,
    length (get_measured_angles hw w) = N_JOINTS /\
    length (get_measured_velocities hw w) = N_JOINTS /\
    length (get_measured_torques hw w) = N_JOINTS /\
    forall i, i < N_JOINTS ->
      is_finite (get_measured_velocities hw w !!! i) = true.

(** The vectors of the configuration have one coefficient per joint; the
    damping gains, the end-stop search torques and the torque limit are
    finite, and the torque limit is not negative. *)
Definition config_wf : Prop :=
  length (Config.safety_kd config_) = N_JOINTS /\
  length (Config.kp (Config.position_control_gains config_)) = N_JOINTS /\
  length (Config.kd (Config.position_control_gains config_)) = N_JOINTS /\
  length (Config.soft_position_limits_lower config_) = N_JOINTS /\
  length (Config.soft_position_limits_upper config_) = N_JOINTS /\
  length (Config.endstop_search_torques_Nm (Config.calibration config_))
  = N_JOINTS /\
  length (Config.initial_position_rad config_) = N_JOINTS /\
  Forall (fun step => length (TrajectoryStep.target_position_rad step) = N_JOINTS)
         (Config.shutdown_trajectory config_) /\
  (forall i, i < N_JOINTS ->
     is_finite (Config.safety_kd config_ !!! i) = true /\
     is_finite (Config.endstop_search_torques_Nm (Config.calibration config_)
                  !!! i) = true) /\
  is_finite max_torque_Nm_ = true /\ (0 <=? max_torque_Nm_) = true.

(** An action with one coefficient per joint and finite torques; the position
    targets and the gains are free. *)
Definition finite_torque (a : Action.t) : Prop :=
  Action.wf N_JOINTS a /\
  forall i, i < N_JOINTS -> is_finite (Action.torque a !!! i) = true.

Definition torques_within (events : list Event) : Prop :=
  forall torques, EvSendTorques torques ∈ events ->
    length torques = N_JOINTS /\
    forall i, i < N_JOINTS -> within max_torque_Nm_ (torques !!! i).

(** [s'] comes from [s] by appending events whose torque commands are all
    within the limit. *)
Definition safe_run (s s' : Driver) : Prop :=
  exists events, trace s' = trace s ++ events /\ torques_within events.

Hypothesis Hread : readings_wf.
Hypothesis Hcfg : config_wf.

Lemma safe_run_refl s : safe_run s s.
Proof.
  exists []. split; [now rewrite app_nil_r|].
  intros t Ht. now apply elem_of_nil in Ht.
Qed.

Lemma safe_run_trans s1 s2 s3 : safe_run s1 s2 -> safe_run s2 s3 -> safe_run s1 s3.
Proof.
  intros (e1 & Ht1 & Hb1) (e2 & Ht2 & Hb2). exists (e1 ++ e2). split.
  - now rewrite Ht2, Ht1, app_assoc.
  - intros t Ht. apply elem_of_app in Ht as [Ht|Ht]; auto.
Qed.

Lemma safe_run_quiet s s' events :
  trace s' = trace s ++ events -> sends events = 0%nat -> safe_run s s'.
Proof.
  intros Ht Hs. exists events. split; [exact Ht|]. intros t Hin. exfalso.
  clear Ht. induction events as [|e events IH]; [now apply elem_of_nil in Hin|].
  cbn [sends] in Hs. apply elem_of_cons in Hin as [<-|Hin].
  - cbn in Hs. lia.
  - apply IH; [lia|exact Hin].
Qed.

Ltac quiet_step :=
  eapply safe_run_quiet;
  [cbn [snd trace emit set_world print set_gains]; reflexivity|reflexivity].

Lemma safe_run_fold_left {A} (P : A -> Prop) (f : Driver -> A -> Driver)
    (l : list A) :
  (forall s x, P x -> safe_run s (f s x)) ->
  Forall P l -> forall s, safe_run s (fold_left f l s).
Proof.
  intros Hf Hl. induction Hl as [|x l Hx Hl IH]; intros s; cbn [fold_left].
  - apply safe_run_refl.
  - eapply safe_run_trans; [apply (Hf s x Hx)|apply IH].
Qed.

Lemma safe_run_pause_motors s : safe_run s (pause_motors s).
Proof.
  destruct (pause_motors_effect s) as (_ & _ & _ & Ht).
  apply (safe_run_quiet _ _ _ Ht). unfold pause_events.
  induction (seq 0 N_MOTOR_BOARDS) as [|i l IH]; [reflexivity|exact IH].
Qed.

Lemma safe_run_print m s : safe_run s (print m s).
Proof. unfold print. quiet_step. Qed.

(** One tick. *)
Lemma safe_run_tick a s :
  finite_torque a -> safe_run s (apply_action_uninitialized a s).2.
Proof.
  intros [Ha Hfin].
  destruct (Hread (world s)) as (Hp & Hv & Ht & Hvf).
  destruct Hcfg as (Hs & Hkp & Hkd & Hlo & Hup & _ & _ & _ & Hf & Hm & Hm0).
  unfold apply_action_uninitialized. cbn [snd emit set_world set_action_counter
    trace world is_initialized_ action_counter_].
  set (lo := if is_initialized_ s then _ else _).
  set (up := if is_initialized_ s then _ else _).
  assert (Hwf : pipeline_wf N_JOINTS a (get_latest_observation s)
                  (Config.safety_kd config_)
                  (Config.kp (Config.position_control_gains config_))
                  (Config.kd (Config.position_control_gains config_)) lo up).
  { repeat split; try assumption; try apply Ha.
    - unfold lo. destruct (is_initialized_ s); [exact Hlo|apply length_Constant].
    - unfold up. destruct (is_initialized_ s); [exact Hup|apply length_Constant]. }
  eexists [EvSendTorques _; EvSleepUntil _]. split.
  { cbn [emit set_world set_action_counter trace]. now rewrite <- app_assoc. }
  intros t Hin. apply elem_of_cons in Hin as [Hin|Hin].
  - injection Hin as ->. split.
    + now apply returned_torque_length.
    + intros i Hi. apply returned_torque_within; auto. now apply Hf.
  - apply list_elem_of_singleton in Hin. discriminate.
Qed.

Lemma finite_torque_Torque tau :
  length tau = N_JOINTS ->
  (forall i, i < N_JOINTS -> is_finite (tau !!! i) = true) ->
  finite_torque (Action.Torque N_JOINTS tau).
Proof.
  intros Hl Hf. split; [|exact Hf].
  repeat split; try exact Hl; apply length_Constant.
Qed.

Lemma finite_torque_Position pos :
  length pos = N_JOINTS -> finite_torque (Action.Position N_JOINTS pos).
Proof.
  intros Hl. split.
  - repeat split; try exact Hl; apply length_Constant.
  - intros i Hi. cbn [Action.Position Action.torque]. unfold Zero.
    now rewrite Constant_lookup.
Qed.

Lemma safe_run_move_to_position goal tolerance time_steps s :
  length goal = N_JOINTS ->
  safe_run s (move_to_position goal tolerance time_steps s).2.
Proof.
  intros Hg. unfold move_to_position. cbn [snd].
  destruct (Hread (world s)) as (Hp & _).
  apply (safe_run_fold_left (fun _ => True)); [|now apply Forall_true].
  intros s' t _. apply safe_run_tick, finite_torque_Position.
  unfold step_goal. rewrite length_vadd, length_scale, length_vsub.
  cbn [get_latest_observation Observation.position]. lia.
Qed.

Lemma safe_run_release_motors s : safe_run s (release_motors s).
Proof.
  unfold release_motors.
  apply (safe_run_fold_left (fun _ => True)); [|now apply Forall_true].
  intros s' t _. apply safe_run_tick, finite_torque_Torque.
  - apply length_Constant.
  - intros i Hi. unfold Zero. now rewrite Constant_lookup.
Qed.

Lemma search_torque_finite :
  finite_torque
    (Action.Torque N_JOINTS
       (Config.endstop_search_torques_Nm (Config.calibration config_))).
Proof.
  destruct Hcfg as (_ & _ & _ & _ & _ & Hl & _ & _ & Hf & _).
  apply finite_torque_Torque; [exact Hl|]. intros i Hi. now apply Hf.
Qed.

Lemma safe_run_move_until_blocking fuel s s' :
  move_until_blocking fuel
    (Config.endstop_search_torques_Nm (Config.calibration config_)) s = Some s' ->
  safe_run s s'.
Proof.
  unfold move_until_blocking.
  assert (H : forall ls r,
            move_until_blocking_loop fuel
              (Config.endstop_search_torques_Nm (Config.calibration config_)) ls
            = Some r -> safe_run ls.2 r.2).
  { induction fuel as [|fuel IH]; intros ls r; cbn [move_until_blocking_loop];
      destruct (keeps_moving ls.1); try discriminate;
      try (intros [= <-]; apply safe_run_refl).
    intros Hr. eapply safe_run_trans; [|apply (IH _ _ Hr)].
    destruct ls as [l s0]. cbn [blocking_step snd].
    apply safe_run_tick, search_torque_finite. }
  destruct (move_until_blocking_loop _ _ _) as [r|] eqn:E; [|discriminate].
  intros [= <-]. apply (H _ _ E).
Qed.

Lemma safe_run_homing fuel s ok s' :
  homing fuel s = Some (ok, s') -> safe_run s s'.
Proof.
  unfold homing.
  assert (H1 : forall s0 r, move_to_end_stop fuel s0 = Some r ->
                 safe_run s0 (match r with inl x | inr x => x end)).
  { intros s0 r. unfold move_to_end_stop.
    destruct (Config.homing_method config_);
      try (intros [= <-]; apply safe_run_refl);
      (destruct (negb has_endstop_); [intros [= <-]; apply safe_run_print|]);
      (destruct (isZero _); [intros [= <-]; apply safe_run_print|]);
      destruct (move_until_blocking _ _ _) as [sb|] eqn:E; try discriminate;
      intros [= <-];
      (eapply safe_run_trans;
        [apply (safe_run_move_until_blocking _ _ _ E)|apply safe_run_print]). }
  assert (H2 : forall s0, safe_run s0 (find_reference s0).2).
  { intros s0. unfold find_reference, home_on_encoder_index,
      home_at_current_position.
    destruct (Config.homing_method config_).
    - apply safe_run_refl.
    - destruct (isZero _); [apply safe_run_print|].
      destruct (execute_homing _ _ _ _ _) as [st w].
      quiet_step.
    - destruct (execute_homing_at_current_position _ _ _) as [st w].
      quiet_step.
    - destruct (execute_homing_at_current_position _ _ _) as [st w].
      quiet_step.
    - destruct (isZero _); [apply safe_run_print|].
      destruct (execute_homing _ _ _ _ _) as [st w].
      quiet_step.
    - eapply safe_run_trans; [apply safe_run_release_motors|].
      generalize (release_motors s0). intros sr.
      destruct (execute_homing_at_current_position _ _ _) as [st w].
      quiet_step. }
  destruct (move_to_end_stop fuel _) as [[s1|s1]|] eqn:E; try discriminate;
    pose proof (H1 _ _ E) as Hs1; cbn in Hs1.
  - intros [= _ <-].
    eapply safe_run_trans; [apply safe_run_print|exact Hs1].
  - pose proof (H2 s1) as Hs2.
    destruct (find_reference s1) as [[st|] s2]; intros [= _ <-]; cbn in Hs2.
    + eapply safe_run_trans; [apply safe_run_print|].
      eapply safe_run_trans; [exact Hs1|].
      eapply safe_run_trans; [exact Hs2|apply safe_run_print].
    + eapply safe_run_trans; [apply safe_run_print|].
      eapply safe_run_trans; [exact Hs1|exact Hs2].
Qed.

Lemma safe_run_move_to_initial_position s :
  safe_run s (move_to_initial_position s).
Proof.
  unfold move_to_initial_position.
  destruct (Hread (world s)) as (Hp & _).
  set (w := Observation.position _).
  assert (Hw : length w = N_JOINTS) by exact Hp.
  assert (H : forall l acc,
            length acc.1.1 = N_JOINTS ->
            safe_run acc.2 (fold_left initial_move_step l acc).2).
  { induction l as [|i l IH]; intros [[wp r] s0] Hl; cbn [fold_left].
    - apply safe_run_refl.
    - cbn [fst snd] in Hl.
      assert (Hl' : length (<[i:=Config.initial_position_rad config_ !!! i]> wp)
                    = N_JOINTS) by (now rewrite length_insert).
      pose proof (safe_run_move_to_position
                    (<[i:=Config.initial_position_rad config_ !!! i]> wp)
                    (Config.move_to_position_tolerance_rad config_)
                    (Config.move_steps (Config.calibration config_)) s0 Hl')
        as Hm.
      eapply safe_run_trans; [|apply IH].
      + unfold initial_move_step. now destruct (move_to_position _ _ _ s0).
      + unfold initial_move_step. now destruct (move_to_position _ _ _ s0). }
  specialize (H (seq 0 N_JOINTS) (w, false, s) Hw).
  destruct (fold_left _ _ _) as [[wp r] s']. cbn [snd] in H.
  destruct (negb r); [|exact H].
  eapply safe_run_trans; [exact H|apply safe_run_print].
Qed.

Lemma safe_run_set_gains s : safe_run s (set_gains s).
Proof. unfold set_gains. quiet_step. Qed.

Lemma safe_run_shutdown_moves steps success s :
  Forall (fun step => length (TrajectoryStep.target_position_rad step) = N_JOINTS)
         steps ->
  safe_run s (shutdown_moves steps success s).2.
Proof.
  intros Hsteps. revert success s.
  induction Hsteps as [|step steps Hstep Hsteps IH]; intros success s;
    cbn [shutdown_moves].
  - apply safe_run_refl.
  - pose proof (safe_run_move_to_position
                  (TrajectoryStep.target_position_rad step)
                  (Config.move_to_position_tolerance_rad config_)
                  (TrajectoryStep.move_steps step) s Hstep) as Hm.
    destruct (move_to_position _ _ _ s) as [reached s'].
    destruct (negb (success && reached)); [exact Hm|].
    eapply safe_run_trans; [exact Hm|apply IH].
Qed.

(** Every prefix of a blocking move, whether or not the move ever stops. *)
Lemma safe_run_blocking_state torques s n :
  finite_torque (Action.Torque N_JOINTS torques) ->
  safe_run s (blocking_state torques s n).2.
Proof.
  intros Hf. induction n as [|n IH].
  - apply safe_run_refl.
  - rewrite blocking_state_tick.
    eapply safe_run_trans; [exact IH|now apply safe_run_tick].
Qed.

(** [_initialize] fails to return only inside the blocking move of the
    homing. *)
Lemma _initialize_None fuel s :
  _initialize fuel s = None ->
  move_until_blocking fuel
    (Config.endstop_search_torques_Nm (Config.calibration config_))
    (print "Start homing." (set_gains s)) = None.
Proof.
  unfold _initialize, homing, move_to_end_stop.
  destruct (move_until_blocking fuel _ (print "Start homing." (set_gains s)))
    as [sb|]; [|reflexivity].
  cbn [fmap option_fmap option_map].
  destruct (Config.homing_method config_);
    try destruct (negb has_endstop_); try destruct (isZero _);
    try destruct (find_reference _) as [[st|] s2]; discriminate.
Qed.

(** X12. Let the hardware return one reading per joint with finite
    velocities, and let the configuration hold one coefficient per joint in
    each vector, finite damping gains and search torques and a finite torque
    limit that is not negative.  Then every torque vector that the driver
    sends has one finite coefficient per joint within the torque limit:
    in a tick for an action with finite torques (whatever its position
    targets and gains), in a move to any goal, during [shutdown], after any
    number of iterations of a blocking move with finite torques, and during
    the whole of [_initialize]: when it returns, in all that it has done, and
    when it does not return, which happens only inside the blocking move of
    the homing, after any number of iterations of that move. *)
Theorem sent_torques_within_limit :
  (forall a s, finite_torque a ->
     safe_run s (apply_action_uninitialized a s).2 /\
     safe_run s (apply_action a s).2) /\
  (forall goal tolerance time_steps s,
     length goal = N_JOINTS ->
     safe_run s (move_to_position goal tolerance time_steps s).2) /\
  (forall fuel s s', _initialize fuel s = Some s' -> safe_run s s') /\
  (forall s, safe_run s (shutdown s)) /\
  (forall torques s n,
     finite_torque (Action.Torque N_JOINTS torques) ->
     safe_run s (blocking_state torques s n).2) /\
  (forall fuel s,
     _initialize fuel s = None ->
     move_until_blocking fuel
       (Config.endstop_search_torques_Nm (Config.calibration config_))
       (print "Start homing." (set_gains s)) = None /\
     forall n,
       safe_run s
         (blocking_state
            (Config.endstop_search_torques_Nm (Config.calibration config_))
            (print "Start homing." (set_gains s)) n).2).
Proof.
  split; [|split; [|split; [|split; [|split]]]].
  - intros a s Ha. pose proof (safe_run_tick a s Ha) as Ht.
    split; [exact Ht|]. unfold apply_action.
    destruct (negb (is_initialized_ s)); [apply safe_run_refl|].
    now destruct (apply_action_uninitialized a s).
  - apply safe_run_move_to_position.
  - intros fuel s s'. unfold _initialize.
    destruct (homing fuel (set_gains s)) as [[ok s1]|] eqn:E; [|discriminate].
    intros [= <-].
    assert (H : safe_run s
                  (pause_motors
                     (if ok then move_to_initial_position (pause_motors s1)
                      else pause_motors s1))).
    { eapply safe_run_trans; [apply safe_run_set_gains|].
      eapply safe_run_trans; [apply (safe_run_homing _ _ _ _ E)|].
      eapply safe_run_trans; [apply safe_run_pause_motors|].
      eapply safe_run_trans; [|apply safe_run_pause_motors].
      destruct ok; [apply safe_run_move_to_initial_position|apply safe_run_refl]. }
    exact H.
  - intros s. unfold shutdown.
    destruct Hcfg as (_ & _ & _ & _ & _ & _ & _ & Htraj & _).
    pose proof (safe_run_shutdown_moves _ true s Htraj) as Hm.
    destruct (shutdown_moves _ true s) as [success s1]. cbn [snd] in Hm.
    set (s2 := if negb success then print _ (pause_motors s1)
               else pause_motors s1).
    assert (H2 : safe_run s s2).
    { eapply safe_run_trans; [exact Hm|].
      eapply safe_run_trans; [apply safe_run_pause_motors|].
      unfold s2. destruct (negb success);
        [apply safe_run_print|apply safe_run_refl]. }
    eapply safe_run_trans; [exact H2|].
    destruct (write_run_duration_logs_effect
                (static_cast_int (get_current_time_sec hw (world s2)))
                (Config.run_duration_logfiles config_) s2)
      as (_ & _ & opened & _ & Ht).
    cbv zeta in Ht. apply (safe_run_quiet _ _ _ Ht), log_events_no_send.
  - intros torques s n. apply safe_run_blocking_state.
  - intros fuel s Hnone. split; [now apply _initialize_None|].
    intros n.
    eapply safe_run_trans; [apply safe_run_set_gains|].
    eapply safe_run_trans; [apply safe_run_print|].
    apply safe_run_blocking_state, search_torque_finite.
Qed.

(** *** The idle action *)

(** [get_idle_action]: hold the initial position. *)
Definition get_idle_action : Action.t :=
  Action.Position N_JOINTS (Config.initial_position_rad config_).

(** X13. The idle action on a robot that is initialized: when no joint is
    outside its soft limits nor the initial position beyond them, a joint
    that rests (velocity zero) exactly on its finite initial position, with
    finite gains, gets a zero torque.  The action is accepted and its target
    is the initial position. *)
Theorem idle_action_at_rest (s : Driver) (i : nat) :
  is_initialized_ s = true ->
  i < N_JOINTS ->
  (forall j, j < N_JOINTS ->
     limits_inactive get_idle_action (get_latest_observation s)
       (Config.soft_position_limits_lower config_)
       (Config.soft_position_limits_upper config_) j) ->
  get_measured_angles hw (world s) !!! i
  = Config.initial_position_rad config_ !!! i ->
  is_finite (Config.initial_position_rad config_ !!! i) = true ->
  (get_measured_velocities hw (world s) !!! i =? 0) = true ->
  is_finite (Config.kp (Config.position_control_gains config_) !!! i) = true ->
  is_finite (Config.kd (Config.position_control_gains config_) !!! i) = true ->
  exists applied_action s',
    apply_action get_idle_action s = (inr applied_action, s') /\
    Action.position applied_action = Config.initial_position_rad config_ /\
    (Action.torque applied_action !!! i =? 0) = true.
Proof.
  intros Hinit Hi Hin Hpos Hfin Hvel Hkpf Hkdf.
  destruct (Hread (world s)) as (Hp & Hv & Ht & _).
  destruct Hcfg as (Hs & Hkp & Hkd & Hlo & Hup & _ & Hip & _ & Hf & _ & Hm0).
  destruct (Hf i Hi) as [Hskdf _].
  rewrite <- is_zero_eqb in Hvel.
  unfold apply_action. rewrite Hinit. cbn [negb].
  unfold apply_action_uninitialized. rewrite Hinit.
  eexists _, _. split; [reflexivity|].
  set (obs := get_latest_observation s) in *.
  assert (Hwf : pipeline_wf N_JOINTS get_idle_action obs
                  (Config.safety_kd config_)
                  (Config.kp (Config.position_control_gains config_))
                  (Config.kd (Config.position_control_gains config_))
                  (Config.soft_position_limits_lower config_)
                  (Config.soft_position_limits_upper config_)).
  { repeat split; try assumption; apply length_Constant. }
  split.
  { change (Config.initial_position_rad config_)
      with (Action.position get_idle_action).
    now apply inside_limits_position. }
  rewrite <- is_zero_eqb.
  fold (processed_action N_JOINTS get_idle_action obs max_torque_Nm_
          (Config.safety_kd config_)
          (Config.kp (Config.position_control_gains config_))
          (Config.kd (Config.position_control_gains config_))
          (Config.soft_position_limits_lower config_)
          (Config.soft_position_limits_upper config_)).
  rewrite (processed_action_torque _ _ _ _ _ _ _ _ _ Hwf i Hi).
  rewrite (controlled_action_torque _ _ _ _ _ _ _ _ Hwf i Hi).
  assert (Hj : limited_joint get_idle_action obs
                 (Config.kp (Config.position_control_gains config_))
                 (Config.kd (Config.position_control_gains config_))
                 (Config.soft_position_limits_lower config_)
                 (Config.soft_position_limits_upper config_) i
               = Joint.Build 0 (Config.initial_position_rad config_ !!! i)
                   nan nan).
  { destruct (Hin i Hi) as (H1 & H2 & H3 & H4).
    unfold limited_joint, Joint.position_limits, clamp1.
    cbn [Joint.of_action Joint.position Joint.torque Joint.position_kp
           Joint.position_kd].
    rewrite H3, H4.
    cbn [get_idle_action Action.Position Action.position] in H1, H2.
    cbn [get_idle_action Action.Position Action.position Action.torque
           Action.position_kp Action.position_kd].
    rewrite H1, H2. unfold Zero, Action.None.
    now rewrite !Constant_lookup by exact Hi. }
  assert (Hrun : position_controller_runs
                   (limited_action N_JOINTS get_idle_action obs
                      (Config.kp (Config.position_control_gains config_))
                      (Config.kd (Config.position_control_gains config_))
                      (Config.soft_position_limits_lower config_)
                      (Config.soft_position_limits_upper config_)) = true).
  { apply (position_controller_runs_iff _ _ _ (Config.safety_kd config_)
             _ _ _ _ Hwf).
    exists i. split; [exact Hi|]. rewrite Hj. cbn [Joint.position].
    now apply is_finite_not_nan. }
  rewrite Hrun. unfold control_torque. rewrite Hj.
  unfold Joint.position_control_torque.
  cbn [Joint.position Joint.torque Joint.position_kp Joint.position_kd].
  change (is_nan nan) with true. cbv iota zeta.
  change (Observation.position obs) with (get_measured_angles hw (world s)).
  change (Observation.velocity obs)
    with (get_measured_velocities hw (world s)).
  rewrite Hpos.
  set (pct := _ - _).
  assert (Hpct : is_zero pct = true).
  { unfold pct. apply sub_zero_zero.
    - apply mul_zero_zero; [exact Hkpf|now apply sub_diag_zero].
    - now apply mul_zero_zero. }
  assert (Hpn : is_nan pct = false)
    by (apply (sided_not_nan true), is_zero_sided, Hpct).
  rewrite Hpn. unfold Joint.safety_checks.
  assert (Hsum : is_zero (0 + pct) = true) by (now apply add_zero_zero).
  rewrite (clamp1_zero _ _ Hsum Hm0).
  assert (Hd : is_zero (0 + pct
                        - Config.safety_kd config_ !!! i
                          * get_measured_velocities hw (world s) !!! i) = true).
  { apply sub_zero_zero; [exact Hsum|now apply mul_zero_zero]. }
  now rewrite (clamp1_zero _ _ Hd Hm0).
Qed.

End SentTorques.

(** ** Position limits and error reports *)

(** [is_within_hard_position_limits(observation)]. *)
Definition is_within_hard_position_limits (observation : Observation.t) : bool :=
  Config.is_within_hard_position_limits config_
    (Observation.position observation).

Lemma all_leb (a b : Vector) (n : nat) :
  length a = n -> length b = n ->
  forallb id (zip_with PrimFloat.leb a b) = true <->
  forall i, i < n -> (a !!! i <=? b !!! i) = true.
Proof.
  intros Ha Hb. rewrite forallb_lookup, length_zip_with.
  assert (Hz : forall i, i < n ->
            zip_with PrimFloat.leb a b !!! i = (a !!! i <=? b !!! i)).
  { intros i Hi. apply (lookup_total_zip_with PrimFloat.leb); lia. }
  split; intros Hall i Hi.
  - rewrite <- Hz by exact Hi. apply Hall. lia.
  - unfold id. rewrite Hz by lia. apply Hall. lia.
Qed.

(** X14. The position of an observation is within the hard limits exactly
    when every joint lies in its closed range, both ends included.  A joint
    whose position reads NaN is never within the limits. *)
Theorem within_hard_position_limits_iff (observation : Observation.t) :
  length (Config.hard_position_limits_lower config_) = N_JOINTS ->
  length (Config.hard_position_limits_upper config_) = N_JOINTS ->
  length (Observation.position observation) = N_JOINTS ->
  (is_within_hard_position_limits observation = true <->
   forall i, i < N_JOINTS ->
     (Config.hard_position_limits_lower config_ !!! i
        <=? Observation.position observation !!! i) = true /\
     (Observation.position observation !!! i
        <=? Config.hard_position_limits_upper config_ !!! i) = true) /\
  (forall i, i < N_JOINTS ->
     is_nan (Observation.position observation !!! i) = true ->
     is_within_hard_position_limits observation = false).
Proof.
  intros Hlo Hup Hp.
  assert (Hiff : is_within_hard_position_limits observation = true <->
                 forall i, i < N_JOINTS ->
                   (Config.hard_position_limits_lower config_ !!! i
                      <=? Observation.position observation !!! i) = true /\
                   (Observation.position observation !!! i
                      <=? Config.hard_position_limits_upper config_ !!! i)
                   = true).
  { unfold is_within_hard_position_limits,
      Config.is_within_hard_position_limits.
    rewrite andb_true_iff, (all_leb _ _ N_JOINTS Hlo Hp),
      (all_leb _ _ N_JOINTS Hp Hup).
    split; [intros [H1 H2] i Hi; auto|].
    intros H. split; intros i Hi; now apply H. }
  split; [exact Hiff|]. intros i Hi Hnan.
  destruct (is_within_hard_position_limits observation) eqn:E; [|reflexivity].
  destruct (proj1 Hiff eq_refl i Hi) as [H1 _].
  destruct (leb_not_nan _ _ H1) as [_ Hn]. congruence.
Qed.

Section ErrorReport.

(** [motor_boards_[i]->get_status()]: the status time series of board [i],
    oldest element first, each status reduced to its error code. *)
Variable get_status : nat -> World -> list ErrorCodes.t.

(** The [switch] over the error code. *)
Definition board_error_msg (error_code : ErrorCodes.t) : string :=
  match error_code with
  | ErrorCodes.NONE => ""
  | ErrorCodes.ENCODER => "Encoder Error"
  | ErrorCodes.CAN_RECV_TIMEOUT => "CAN Receive Timeout"
  | ErrorCodes.CRIT_TEMP => "Critical Temperature"
  | ErrorCodes.POSCONV => "Error in SpinTAC Position Convert module"
  | ErrorCodes.POS_ROLLOVER => "Position Rollover"
  | ErrorCodes.OTHER => "Other Error"
  | ErrorCodes.UNKNOWN => "Unknown Error"
  end.

(** [std::to_string(i)] and [std::string::empty]. *)
Definition to_string (i : nat) : string :=
  NilEmpty.string_of_uint (Nat.to_uint i).

Definition string_empty (text : string) : bool :=
  match text with EmptyString => true | String _ _ => false end.

(** One pass of the loop over the motor boards. *)
Definition report_board (s : Driver) (error_msg : string) (i : nat) : string :=
  match last (get_status i (world s)) with
  | Some error_code =>
      let board_error_msg := board_error_msg error_code in
      if negb (string_empty board_error_msg) then
        let error_msg :=
          if negb (string_empty error_msg) then (error_msg ++ "  ")%string
          else error_msg in
        (error_msg ++ ("[Board " ++ to_string i ++ "] " ++ board_error_msg))%string
      else error_msg
  | None => error_msg
  end.

Definition get_error (s : Driver) : string :=
  let error_msg := fold_left (report_board s) (seq 0 N_MOTOR_BOARDS) ""%string in
  let position := get_measured_angles hw (world s) in
  if negb (Config.is_within_hard_position_limits config_ position) then
    let error_msg :=
      if negb (string_empty error_msg) then (error_msg ++ " | ")%string
      else error_msg in
    (error_msg ++ "Position limits exceeded.")%string
  else error_msg.

(** What board [i] contributes to the message, if anything. *)
Definition board_report (s : Driver) (i : nat) : option string :=
  match last (get_status i (world s)) with
  | Some error_code =>
      if string_empty (board_error_msg error_code) then None
      else Some ("[Board " ++ to_string i ++ "] "
                 ++ board_error_msg error_code)%string
  | None => None
  end.

Definition board_reports (s : Driver) : list string :=
  omap (board_report s) (seq 0 N_MOTOR_BOARDS).

Lemma append_assoc (a b c : string) : ((a ++ b) ++ c = a ++ b ++ c)%string.
Proof. induction a as [|x a IH]; [reflexivity|]. cbn. now rewrite IH. Qed.

Lemma string_empty_append (a b : string) :
  string_empty (a ++ b) = string_empty a && string_empty b.
Proof. now destruct a. Qed.

Lemma string_empty_true (a : string) : string_empty a = true <-> a = ""%string.
Proof. now destruct a. Qed.

Lemma board_report_not_empty s i r :
  board_report s i = Some r -> string_empty r = false.
Proof.
  unfold board_report. destruct (last _) as [c|]; [|discriminate].
  destruct (string_empty (board_error_msg c)); [discriminate|].
  now intros [= <-].
Qed.

(** The loop over the boards joins the reports with two spaces. *)
Lemma report_boards_join s (l : list nat) (error_msg : string) :
  fold_left (report_board s) l error_msg
  = match omap (board_report s) l with
    | [] => error_msg
    | reports =>
        if string_empty error_msg then String.concat "  " reports
        else (error_msg ++ "  " ++ String.concat "  " reports)%string
    end.
Proof.
  revert error_msg. induction l as [|i l IH]; intros error_msg; [reflexivity|].
  cbn [fold_left omap list_omap]. rewrite IH. clear IH.
  unfold report_board, board_report.
  destruct (last (get_status i (world s))) as [c|]; [|reflexivity].
  destruct (string_empty (board_error_msg c)) eqn:Ec; cbn [negb];
    [reflexivity|].
  set (r := ("[Board " ++ to_string i ++ "] " ++ board_error_msg c)%string).
  destruct (string_empty error_msg) eqn:Ee; cbn [negb].
  - apply string_empty_true in Ee. subst error_msg. cbn [String.append].
    destruct (omap _ l) as [|r' rs]; [reflexivity|].
    assert (Hr : string_empty r = false) by reflexivity.
    rewrite Hr. reflexivity.
  - destruct (omap _ l) as [|r' rs].
    + cbn [String.concat]. now rewrite append_assoc.
    + rewrite string_empty_append, string_empty_append, Ee. cbn [andb].
      cbn [String.concat]. now rewrite !append_assoc.
Qed.

Lemma concat_reports_empty (reports : list string) :
  Forall (fun r => string_empty r = false) reports ->
  string_empty (String.concat "  " reports) = true <-> reports = [].
Proof.
  intros H. destruct H as [|r rs Hr Hrs]; [easy|].
  split; [|discriminate]. intros He. exfalso.
  destruct rs as [|r' rs]; cbn [String.concat] in He.
  - congruence.
  - rewrite string_empty_append, Hr in He. discriminate.
Qed.

Lemma board_reports_not_empty s :
  Forall (fun r => string_empty r = false) (board_reports s).
Proof.
  unfold board_reports. apply Forall_forall. intros r Hr.
  apply list_elem_of_omap in Hr as (i & _ & Hi).
  now apply (board_report_not_empty s i).
Qed.

(** The loop over the boards gives the joined reports. *)
Lemma report_boards_text s :
  fold_left (report_board s) (seq 0 N_MOTOR_BOARDS) ""%string
  = String.concat "  " (board_reports s).
Proof.
  rewrite report_boards_join. fold (board_reports s).
  now destruct (board_reports s).
Qed.

(** X15. The text of [get_error]: the reports of the boards whose newest
    status carries an error, in the order of the boards, each of the form
    "[Board i] message" and joined by two spaces; then, if the measured
    position is not within the hard limits, "Position limits exceeded.",
    after " | " when a board has reported.  A board without status, or
    whose newest status has the code NONE, adds nothing. *)
Theorem get_error_format (s : Driver) :
  let boards := String.concat "  " (board_reports s) in
  get_error s
  = (if is_within_hard_position_limits (get_latest_observation s) then boards
     else if string_empty boards then "Position limits exceeded."
     else boards ++ " | " ++ "Position limits exceeded.")%string.
Proof.
  cbv zeta. unfold get_error, is_within_hard_position_limits.
  cbn [get_latest_observation Observation.position].
  rewrite report_boards_text.
  destruct (Config.is_within_hard_position_limits _ _); cbn [negb];
    [reflexivity|].
  destruct (string_empty _) eqn:E; cbn [negb].
  - apply string_empty_true in E. now rewrite E.
  - now rewrite append_assoc.
Qed.

(** The boards have nothing to report exactly when each is without status
    or has the code NONE in its newest status. *)
Lemma board_reports_nil s :
  board_reports s = [] <->
  forall i, i < N_MOTOR_BOARDS ->
    last (get_status i (world s)) = None \/
    last (get_status i (world s)) = Some ErrorCodes.NONE.
Proof.
  unfold board_reports. split.
  - intros Hnil i Hi.
    assert (Hn : board_report s i = None).
    { destruct (board_report s i) as [r|] eqn:E; [|reflexivity].
      assert (Hin : r ∈ omap (board_report s) (seq 0 N_MOTOR_BOARDS)).
      { apply list_elem_of_omap. exists i. split; [|exact E].
        apply elem_of_seq. lia. }
      rewrite Hnil in Hin. now apply elem_of_nil in Hin. }
    unfold board_report in Hn.
    destruct (last (get_status i (world s))) as [c|]; [|now left].
    right. now destruct c.
  - intros Hall.
    destruct (omap (board_report s) (seq 0 N_MOTOR_BOARDS)) as [|r rs] eqn:E;
      [reflexivity|].
    assert (Hin : r ∈ omap (board_report s) (seq 0 N_MOTOR_BOARDS))
      by (rewrite E; left).
    apply list_elem_of_omap in Hin as (i & Hi & Hr).
    apply elem_of_seq in Hi. unfold board_report in Hr.
    destruct (Hall i ltac:(lia)) as [H|H]; rewrite H in Hr; discriminate.
Qed.

(** X16. [get_error] returns the empty string exactly when nothing is wrong:
    every board is without status or has the code NONE in its newest status,
    and the measured position is within the hard limits. *)
Theorem get_error_empty_iff (s : Driver) :
  get_error s = ""%string <->
  (forall i, i < N_MOTOR_BOARDS ->
     last (get_status i (world s)) = None \/
     last (get_status i (world s)) = Some ErrorCodes.NONE) /\
  is_within_hard_position_limits (get_latest_observation s) = true.
Proof.
  pose proof (concat_reports_empty _ (board_reports_not_empty s)) as Hc.
  rewrite <- board_reports_nil, <- Hc, string_empty_true.
  unfold get_error, is_within_hard_position_limits.
  cbn [get_latest_observation Observation.position].
  rewrite report_boards_text.
  destruct (Config.is_within_hard_position_limits _ _); cbn [negb].
  - split; [intros H; split; [exact H|reflexivity]|now intros [H _]].
  - split; [|now intros [_ H]]. intros H. exfalso.
    apply string_empty_true in H. rewrite string_empty_append in H.
    now rewrite andb_false_r in H.
Qed.

End ErrorReport.

End Driver.

Arguments EvSetPositionControlGains {Counter}.
Arguments EvSendTorques {Counter}.
Arguments EvPauseMotors {Counter}.
Arguments EvExecuteHoming {Counter}.
Arguments EvExecuteHomingAtCurrentPosition {Counter}.
Arguments EvSleepUntil {Counter}.
Arguments EvPrint {Counter}.
Arguments EvAppendLine {Counter}.
Arguments BuildDriver {Counter World}.
Arguments world {Counter World}.
Arguments is_initialized_ {Counter World}.
Arguments action_counter_ {Counter World}.
Arguments trace {Counter World}.
Arguments sends {Counter}.

(** ** Loading the configuration: [Config::load_config]

    The loader reads a YAML document through the YAML library, prints its
    complaints and leaves the process with [std::exit(1)] when a parameter is
    missing or malformed. *)

(** What the loader does besides returning: the lines it prints, on
    [std::cout] or [std::cerr] (without their line ends), and the exit. *)
Module Load.
Inductive Stream : Type := Cout | Cerr.

Inductive t (A : Type) : Type :=
  | Exit (output : list (Stream * string))
  | Return (output : list (Stream * string)) (value : A).
Arguments Exit {A}.
Arguments Return {A}.

Definition ret {A} (value : A) : t A := Return [] value.

Definition bind {A B} (m : t A) (k : A -> t B) : t B :=
  match m with
  | Exit output => Exit output
  | Return output value =>
      match k value with
      | Exit output' => Exit (output ++ output')
      | Return output' value' => Return (output ++ output') value'
      end
  end.

(** A line on a stream, and a last line followed by [std::exit(1)]. *)
Definition write (stream : Stream) (line : string) : t unit :=
  Return [(stream, line)] tt.
Definition fatal {A} (stream : Stream) (line : string) : t A :=
  Exit [(stream, line)].
End Load.

Section LoadConfig.

Local Notation "x <- m ;; k" := (Load.bind m (fun x => k))
  (at level 100, m at next level, right associativity, only parsing).

Variable N_MOTOR_BOARDS : nat.

(** The YAML library.  [Node] is [YAML::Node]; [load_file] is
    [YAML::LoadFile], [None] when it throws; [child] and [item] are
    [node[key]] and [node[i]]; [is_defined] is the conversion of a node to
    [bool]; the conversions [as_...] are [node.as<T>()], [None] when they
    throw. *)
Variable Node : Type.
Variable load_file : string -> option Node.
Variable child : string -> Node -> Node.
Variable item : nat -> Node -> Node.
Variable is_defined : Node -> bool.
Variable IsSequence : Node -> bool.
Variable size : Node -> nat.
Variable as_string : Node -> option string.
Variable as_double : Node -> option double.
Variable as_bool : Node -> option bool.
Variable as_uint32 : Node -> option nat.
Variable as_Vector : Node -> option Vector.

(** [parse_homing_method_name]: the method, or the text of the
    [std::invalid_argument] it throws. *)
Variable parse_homing_method_name : string -> string + HomingMethod.

(** The default-constructed [Config]. *)
Variable default_config : Config.t.

(** [Config::set_config_value<T>]. *)
Definition set_config_value {T} (as_T : Node -> option T) (user_config : Node)
    (name : string) : Load.t T :=
  match as_T (child name user_config) with
  | Some value => Load.ret value
  | None =>
      Load.fatal Load.Cerr
        ("FATAL: Failed to load parameter '" ++ name
         ++ "' from configuration file")
  end.

Definition msg_obsolete : string :=
  "FATAL: The configuration option 'homing_with_index' is obsolete.  Use 'homing_method' instead.".
Definition msg_no_homing_method : string :=
  "WARNING: 'homing_method' is not specified.  Using backward-compatible default.  Explicitly specify a homing method to silence this warning.".

(** The loop over the CAN ports, inside its [try]. *)
Definition load_can_ports (user_config : Node) : Load.t (list string) :=
  match mapM (fun i => as_string (item i (child "can_ports" user_config)))
             (seq 0 N_MOTOR_BOARDS) with
  | Some can_ports => Load.ret can_ports
  | None =>
      Load.fatal Load.Cerr
        "FATAL: Failed to load parameter 'can_ports' from configuration file"
  end.

Definition load_homing_method (user_config : Node) (has_endstop : bool)
    : Load.t HomingMethod :=
  if is_defined (child "homing_method" user_config) then
    method_name <- set_config_value as_string user_config "homing_method" ;;
    match parse_homing_method_name method_name with
    | inr method => Load.ret method
    | inl what => Load.fatal Load.Cout ("FATAL: " ++ what)
    end
  else
    _ <- Load.write Load.Cerr msg_no_homing_method ;;
    Load.ret (if has_endstop then ENDSTOP_INDEX else NEXT_INDEX).

Definition load_calibration (user_config : Node)
    : Load.t Config.CalibrationParameters :=
  if is_defined (child "calibration" user_config) then
    let calib := child "calibration" user_config in
    endstop_search_torques_Nm <-
      set_config_value as_Vector calib "endstop_search_torques_Nm" ;;
    move_steps <- set_config_value as_uint32 calib "move_steps" ;;
    Load.ret (Config.BuildCalibration endstop_search_torques_Nm move_steps)
  else Load.ret (Config.calibration default_config).

Definition load_position_control_gains (user_config : Node)
    : Load.t Config.PositionControlGains :=
  if is_defined (child "position_control_gains" user_config) then
    let pos_ctrl := child "position_control_gains" user_config in
    kp <- set_config_value as_Vector pos_ctrl "kp" ;;
    kd <- set_config_value as_Vector pos_ctrl "kd" ;;
    Load.ret (Config.BuildGains kp kd)
  else Load.ret (Config.position_control_gains default_config).

(** A parameter that may be left out. *)
Definition load_optional (user_config : Node) (name : string)
    (default : Vector) : Load.t Vector :=
  if is_defined (child name user_config)
  then set_config_value as_Vector user_config name
  else Load.ret default.

(** The loop over the steps of the shutdown trajectory. *)
Fixpoint load_trajectory_steps (trajectory : Node) (indices : list nat)
    : Load.t (list TrajectoryStep.t) :=
  match indices with
  | [] => Load.ret []
  | i :: rest =>
      target_position_rad <-
        set_config_value as_Vector (item i trajectory) "target_position_rad" ;;
      move_steps <- set_config_value as_uint32 (item i trajectory) "move_steps" ;;
      steps <- load_trajectory_steps trajectory rest ;;
      Load.ret (TrajectoryStep.Build target_position_rad move_steps :: steps)
  end.

Definition load_shutdown_trajectory (user_config : Node)
    : Load.t (list TrajectoryStep.t) :=
  if is_defined (child "shutdown_trajectory" user_config) then
    let trajectory := child "shutdown_trajectory" user_config in
    if negb (IsSequence trajectory) then
      Load.fatal Load.Cerr
        "FATAL: Parameter 'shutdown_trajectory' from configuration file is not a list."
    else
      steps <- load_trajectory_steps trajectory (seq 0 (size trajectory)) ;;
      Load.ret (Config.shutdown_trajectory default_config ++ steps)
  else Load.ret (Config.shutdown_trajectory default_config).

(** The loop over the run-duration log files. *)
Fixpoint load_logfile_names (logfiles : Node) (indices : list nat)
    : Load.t (list string) :=
  match indices with
  | [] => Load.ret []
  | i :: rest =>
      match as_string (item i logfiles) with
      | Some name =>
          names <- load_logfile_names logfiles rest ;;
          Load.ret (name :: names)
      | None =>
          Load.fatal Load.Cerr
            ("FATAL: Failed to load run_duration_logfiles entry "
             ++ to_string i ++ " from configuration file")
      end
  end.

Definition load_run_duration_logfiles (user_config : Node)
    : Load.t (list string) :=
  if is_defined (child "run_duration_logfiles" user_config) then
    let logfiles := child "run_duration_logfiles" user_config in
    if negb (IsSequence logfiles) then
      Load.fatal Load.Cerr
        "FATAL: Parameter 'run_duration_logfiles' from configuration file is not a list."
    else
      names <- load_logfile_names logfiles (seq 0 (size logfiles)) ;;
      Load.ret (Config.run_duration_logfiles default_config ++ names)
  else Load.ret (Config.run_duration_logfiles default_config).

(** [Config::load_config].  The CAN ports, which the record [Config.t] of
    this development leaves out, are returned beside it. *)
Definition load_config (config_file_name : string)
    : Load.t (list string * Config.t) :=
  match load_file config_file_name with
  | None =>
      Load.fatal Load.Cout
        ("FATAL: Failed to load configuration from '" ++ config_file_name
         ++ "'.")
  | Some user_config =>
      can_ports <- load_can_ports user_config ;;
      max_current_A <- set_config_value as_double user_config "max_current_A" ;;
      has_endstop <- set_config_value as_bool user_config "has_endstop" ;;
      _ <- (if is_defined (child "homing_with_index" user_config)
            then Load.fatal Load.Cout msg_obsolete else Load.ret tt) ;;
      homing_method <- load_homing_method user_config has_endstop ;;
      move_to_position_tolerance_rad <-
        set_config_value as_double user_config "move_to_position_tolerance_rad" ;;
      calibration <- load_calibration user_config ;;
      safety_kd <- set_config_value as_Vector user_config "safety_kd" ;;
      position_control_gains <- load_position_control_gains user_config ;;
      hard_position_limits_lower <-
        set_config_value as_Vector user_config "hard_position_limits_lower" ;;
      hard_position_limits_upper <-
        set_config_value as_Vector user_config "hard_position_limits_upper" ;;
      soft_position_limits_lower <-
        load_optional user_config "soft_position_limits_lower"
          (Config.soft_position_limits_lower default_config) ;;
      soft_position_limits_upper <-
        load_optional user_config "soft_position_limits_upper"
          (Config.soft_position_limits_upper default_config) ;;
      home_offset_rad <- set_config_value as_Vector user_config "home_offset_rad" ;;
      initial_position_rad <-
        set_config_value as_Vector user_config "initial_position_rad" ;;
      shutdown_trajectory <- load_shutdown_trajectory user_config ;;
      run_duration_logfiles <- load_run_duration_logfiles user_config ;;
      Load.ret
        (can_ports,
         Config.Build max_current_A has_endstop homing_method calibration
           move_to_position_tolerance_rad safety_kd position_control_gains
           hard_position_limits_lower hard_position_limits_upper
           soft_position_limits_lower soft_position_limits_upper
           home_offset_rad initial_position_rad shutdown_trajectory
           run_duration_logfiles)
  end.

(** *** What a loaded configuration holds *)

Lemma bind_Return {A B} (m : Load.t A) (k : A -> Load.t B) output value :
  Load.bind m k = Load.Return output value ->
  exists output1 a output2,
    m = Load.Return output1 a /\ k a = Load.Return output2 value /\
    output = output1 ++ output2.
Proof.
  unfold Load.bind. destruct m as [o|o a]; [discriminate|].
  destruct (k a) as [o'|o' b] eqn:E; [discriminate|].
  intros [= <- <-]. now exists o, a, o'.
Qed.

Lemma set_config_value_Return {T} (as_T : Node -> option T) user_config name
    output value :
  set_config_value as_T user_config name = Load.Return output value ->
  output = [] /\ as_T (child name user_config) = Some value.
Proof.
  unfold set_config_value. destruct (as_T _); [|discriminate].
  now intros [= <- <-].
Qed.

(** A step of the loader that prints only when it fails, and then one line
    that starts with FATAL. *)
Definition quiet {A} (m : Load.t A) : Prop :=
  match m with
  | Load.Return output _ => output = []
  | Load.Exit output =>
      exists stream text, output = [(stream, ("FATAL: " ++ text)%string)]
  end.

Lemma quiet_ret {A} (a : A) : quiet (Load.ret a).
Proof. reflexivity. Qed.

Lemma quiet_bind {A B} (m : Load.t A) (k : A -> Load.t B) :
  quiet m -> (forall a, quiet (k a)) -> quiet (Load.bind m k).
Proof.
  unfold Load.bind. destruct m as [o|o a]; [easy|]. intros -> Hk.
  specialize (Hk a). now destruct (k a).
Qed.

Lemma quiet_set_config_value {T} (as_T : Node -> option T) user_config name :
  quiet (set_config_value as_T user_config name).
Proof.
  unfold set_config_value. destruct (as_T _); [reflexivity|].
  eexists _, _. reflexivity.
Qed.

Lemma quiet_load_can_ports user_config : quiet (load_can_ports user_config).
Proof.
  unfold load_can_ports. destruct (mapM _ _); [reflexivity|].
  eexists _, _. reflexivity.
Qed.

Lemma quiet_load_calibration user_config : quiet (load_calibration user_config).
Proof.
  unfold load_calibration. destruct (is_defined _); [|reflexivity].
  repeat (apply quiet_bind; [apply quiet_set_config_value|intros ?]).
  reflexivity.
Qed.

Lemma quiet_load_position_control_gains user_config :
  quiet (load_position_control_gains user_config).
Proof.
  unfold load_position_control_gains. destruct (is_defined _); [|reflexivity].
  repeat (apply quiet_bind; [apply quiet_set_config_value|intros ?]).
  reflexivity.
Qed.

Lemma quiet_load_optional user_config name default :
  quiet (load_optional user_config name default).
Proof.
  unfold load_optional.
  destruct (is_defined _); [apply quiet_set_config_value|reflexivity].
Qed.

Lemma quiet_load_trajectory_steps trajectory indices :
  quiet (load_trajectory_steps trajectory indices).
Proof.
  induction indices as [|i rest IH]; [reflexivity|].
  cbn [load_trajectory_steps].
  repeat (apply quiet_bind; [apply quiet_set_config_value|intros ?]).
  apply quiet_bind; [exact IH|]. intros ?. reflexivity.
Qed.

Lemma quiet_load_shutdown_trajectory user_config :
  quiet (load_shutdown_trajectory user_config).
Proof.
  unfold load_shutdown_trajectory. destruct (is_defined _); [|reflexivity].
  destruct (negb _); [eexists _, _; reflexivity|].
  apply quiet_bind; [apply quiet_load_trajectory_steps|]. intros ?. reflexivity.
Qed.

Lemma quiet_load_logfile_names logfiles indices :
  quiet (load_logfile_names logfiles indices).
Proof.
  induction indices as [|i rest IH]; [reflexivity|].
  cbn [load_logfile_names].
  destruct (as_string _); [|eexists _, _; reflexivity].
  apply quiet_bind; [exact IH|]. intros ?. reflexivity.
Qed.

Lemma quiet_load_run_duration_logfiles user_config :
  quiet (load_run_duration_logfiles user_config).
Proof.
  unfold load_run_duration_logfiles. destruct (is_defined _); [|reflexivity].
  destruct (negb _); [eexists _, _; reflexivity|].
  apply quiet_bind; [apply quiet_load_logfile_names|]. intros ?. reflexivity.
Qed.

Lemma quiet_Return {A} (m : Load.t A) output value :
  quiet m -> m = Load.Return output value -> output = [].
Proof. now intros H ->. Qed.

(** The steps of a load that returns. *)
Lemma load_config_Return config_file_name user_config output can_ports config :
  load_file config_file_name = Some user_config ->
  load_config config_file_name = Load.Return output (can_ports, config) ->
  load_can_ports user_config = Load.Return [] can_ports /\
  as_double (child "max_current_A" user_config)
  = Some (Config.max_current_A config) /\
  as_bool (child "has_endstop" user_config) = Some (Config.has_endstop config) /\
  is_defined (child "homing_with_index" user_config) = false /\
  load_homing_method user_config (Config.has_endstop config)
  = Load.Return output (Config.homing_method config) /\
  as_double (child "move_to_position_tolerance_rad" user_config)
  = Some (Config.move_to_position_tolerance_rad config) /\
  load_calibration user_config = Load.Return [] (Config.calibration config) /\
  as_Vector (child "safety_kd" user_config) = Some (Config.safety_kd config) /\
  load_position_control_gains user_config
  = Load.Return [] (Config.position_control_gains config) /\
  as_Vector (child "hard_position_limits_lower" user_config)
  = Some (Config.hard_position_limits_lower config) /\
  as_Vector (child "hard_position_limits_upper" user_config)
  = Some (Config.hard_position_limits_upper config) /\
  load_optional user_config "soft_position_limits_lower"
    (Config.soft_position_limits_lower default_config)
  = Load.Return [] (Config.soft_position_limits_lower config) /\
  load_optional user_config "soft_position_limits_upper"
    (Config.soft_position_limits_upper default_config)
  = Load.Return [] (Config.soft_position_limits_upper config) /\
  as_Vector (child "home_offset_rad" user_config)
  = Some (Config.home_offset_rad config) /\
  as_Vector (child "initial_position_rad" user_config)
  = Some (Config.initial_position_rad config) /\
  load_shutdown_trajectory user_config
  = Load.Return [] (Config.shutdown_trajectory config) /\
  load_run_duration_logfiles user_config
  = Load.Return [] (Config.run_duration_logfiles config).
Proof.
  intros Hfile H. unfold load_config in H. rewrite Hfile in H.
  apply bind_Return in H as (o1 & ports & r1 & E1 & H & ->). cbv beta in H.
  apply bind_Return in H as (o2 & a2 & r2 & E2 & H & ->). cbv beta in H.
  apply bind_Return in H as (o3 & a3 & r3 & E3 & H & ->). cbv beta in H.
  apply bind_Return in H as (o4 & a4 & r4 & E4 & H & ->). cbv beta in H.
  apply bind_Return in H as (o5 & a5 & r5 & E5 & H & ->). cbv beta in H.
  apply bind_Return in H as (o6 & a6 & r6 & E6 & H & ->). cbv beta in H.
  apply bind_Return in H as (o7 & a7 & r7 & E7 & H & ->). cbv beta in H.
  apply bind_Return in H as (o8 & a8 & r8 & E8 & H & ->). cbv beta in H.
  apply bind_Return in H as (o9 & a9 & r9 & E9 & H & ->). cbv beta in H.
  apply bind_Return in H as (o10 & a10 & r10 & E10 & H & ->). cbv beta in H.
  apply bind_Return in H as (o11 & a11 & r11 & E11 & H & ->). cbv beta in H.
  apply bind_Return in H as (o12 & a12 & r12 & E12 & H & ->). cbv beta in H.
  apply bind_Return in H as (o13 & a13 & r13 & E13 & H & ->). cbv beta in H.
  apply bind_Return in H as (o14 & a14 & r14 & E14 & H & ->). cbv beta in H.
  apply bind_Return in H as (o15 & a15 & r15 & E15 & H & ->). cbv beta in H.
  apply bind_Return in H as (o16 & a16 & r16 & E16 & H & ->). cbv beta in H.
  apply bind_Return in H as (o17 & a17 & r17 & E17 & H & ->). cbv beta in H.
  injection H as <- <- <-.
  pose proof (quiet_Return _ _ _ (quiet_load_can_ports _) E1) as ->.
  apply set_config_value_Return in E2 as [-> E2].
  apply set_config_value_Return in E3 as [-> E3].
  assert (E4' : is_defined (child "homing_with_index" user_config) = false
                /\ o4 = []).
  { destruct (is_defined _); [discriminate|]. now injection E4 as <- _. }
  destruct E4' as [E4' ->].
  apply set_config_value_Return in E6 as [-> E6].
  pose proof (quiet_Return _ _ _ (quiet_load_calibration _) E7) as ->.
  apply set_config_value_Return in E8 as [-> E8].
  pose proof (quiet_Return _ _ _ (quiet_load_position_control_gains _) E9) as ->.
  apply set_config_value_Return in E10 as [-> E10].
  apply set_config_value_Return in E11 as [-> E11].
  pose proof (quiet_Return _ _ _ (quiet_load_optional _ _ _) E12) as ->.
  pose proof (quiet_Return _ _ _ (quiet_load_optional _ _ _) E13) as ->.
  apply set_config_value_Return in E14 as [-> E14].
  apply set_config_value_Return in E15 as [-> E15].
  pose proof (quiet_Return _ _ _ (quiet_load_shutdown_trajectory _) E16) as ->.
  pose proof (quiet_Return _ _ _ (quiet_load_run_duration_logfiles _) E17) as ->.
  cbn [app Config.max_current_A Config.has_endstop Config.homing_method
         Config.calibration Config.move_to_position_tolerance_rad
         Config.safety_kd Config.position_control_gains
         Config.hard_position_limits_lower Config.hard_position_limits_upper
         Config.soft_position_limits_lower Config.soft_position_limits_upper
         Config.home_offset_rad Config.initial_position_rad
         Config.shutdown_trajectory Config.run_duration_logfiles].
  rewrite app_nil_r in *.
  repeat split; assumption.
Qed.

(** X17. A configuration file that still holds the obsolete option
    [homing_with_index] is never loaded: [load_config] ends in the exit,
    whatever else the file holds.  When the three parameters read before the
    check are in order, the one line printed is the complaint about the
    obsolete option. *)
Theorem obsolete_option_is_fatal (config_file_name : string)
    (user_config : Node) :
  load_file config_file_name = Some user_config ->
  is_defined (child "homing_with_index" user_config) = true ->
  (exists output, load_config config_file_name = Load.Exit output) /\
  (is_Some (mapM (fun i => as_string (item i (child "can_ports" user_config)))
                 (seq 0 N_MOTOR_BOARDS)) ->
   is_Some (as_double (child "max_current_A" user_config)) ->
   is_Some (as_bool (child "has_endstop" user_config)) ->
   load_config config_file_name = Load.Exit [(Load.Cout, msg_obsolete)]).
Proof.
  intros Hfile Hobs. split.
  - destruct (load_config config_file_name) as [o|o [ports cfg]] eqn:E;
      [now exists o|].
    destruct (load_config_Return _ _ _ _ _ Hfile E) as (_ & _ & _ & H & _).
    congruence.
  - intros [ports Hp] [a Ha] [b Hb].
    unfold load_config, load_can_ports, set_config_value.
    now rewrite Hfile, Hp, Ha, Hb, Hobs.
Qed.

(** A step that may have printed the warning about the missing homing
    method before it returns or fails. *)
Definition announced {A} (m : Load.t A) : Prop :=
  match m with
  | Load.Return output _ =>
      output = [] \/ output = [(Load.Cerr, msg_no_homing_method)]
  | Load.Exit output =>
      exists before stream text,
        output = before ++ [(stream, ("FATAL: " ++ text)%string)] /\
        (before = [] \/ before = [(Load.Cerr, msg_no_homing_method)])
  end.

Lemma quiet_announced {A} (m : Load.t A) : quiet m -> announced m.
Proof.
  destruct m as [o|o a]; cbn; [|now left].
  intros (stream & text & ->). exists [], stream, text. auto.
Qed.

Lemma announced_after_quiet {A B} (m : Load.t A) (k : A -> Load.t B) :
  quiet m -> (forall a, announced (k a)) -> announced (Load.bind m k).
Proof.
  unfold Load.bind. destruct m as [o|o a].
  - intros H _. now apply (quiet_announced (Load.Exit o)).
  - cbn. intros -> Hk. specialize (Hk a). now destruct (k a).
Qed.

Lemma announced_before_quiet {A B} (m : Load.t A) (k : A -> Load.t B) :
  announced m -> (forall a, quiet (k a)) -> announced (Load.bind m k).
Proof.
  unfold Load.bind. destruct m as [o|o a]; [easy|]. cbn.
  intros Ho Hk. specialize (Hk a). destruct (k a) as [o'|o' b]; cbn in *.
  - destruct Hk as (stream & text & ->). now exists o, stream, text.
  - subst o'. now rewrite app_nil_r.
Qed.

Lemma announced_load_homing_method user_config has_endstop :
  announced (load_homing_method user_config has_endstop).
Proof.
  unfold load_homing_method. destruct (is_defined _).
  - apply quiet_announced, quiet_bind; [apply quiet_set_config_value|].
    intros name. destruct (parse_homing_method_name name);
      [eexists _, _; reflexivity|reflexivity].
  - cbn. now right.
Qed.

(** X18. [load_config] never leaves without saying why: when it ends in the
    exit, the last line printed starts with FATAL, and the only line that
    can precede it is the warning about the missing homing method. *)
Theorem load_config_exit_is_announced (config_file_name : string)
    (output : list (Load.Stream * string)) :
  load_config config_file_name = Load.Exit output ->
  exists before stream text,
    output = before ++ [(stream, ("FATAL: " ++ text)%string)] /\
    (before = [] \/ before = [(Load.Cerr, msg_no_homing_method)]).
Proof.
  assert (H : announced (load_config config_file_name)).
  { unfold load_config.
    destruct (load_file config_file_name) as [user_config|];
      [|exists [], Load.Cout; eexists; split; [reflexivity|now left]].
    apply announced_after_quiet; [apply quiet_load_can_ports|intros ports].
    apply announced_after_quiet; [apply quiet_set_config_value|intros a].
    apply announced_after_quiet; [apply quiet_set_config_value|intros b].
    apply announced_after_quiet.
    { destruct (is_defined _); [eexists _, _; reflexivity|reflexivity]. }
    intros _.
    apply announced_before_quiet; [apply announced_load_homing_method|].
    intros method.
    repeat (apply quiet_bind;
            [first [apply quiet_set_config_value
                   |apply quiet_load_calibration
                   |apply quiet_load_position_control_gains
                   |apply quiet_load_optional
                   |apply quiet_load_shutdown_trajectory
                   |apply quiet_load_run_duration_logfiles]
            |intros ?]).
    reflexivity. }
  intros E. now rewrite E in H.
Qed.

(** X19. The homing method of a loaded configuration: the method named in
    the file when the file names one, and nothing is printed; otherwise the
    warning is printed and the method is ENDSTOP_INDEX for a robot with end
    stop and NEXT_INDEX for one without, by the [has_endstop] of the same
    file. *)
Theorem loaded_homing_method (config_file_name : string) (user_config : Node)
    (output : list (Load.Stream * string)) (can_ports : list string)
    (config : Config.t) :
  load_file config_file_name = Some user_config ->
  load_config config_file_name = Load.Return output (can_ports, config) ->
  as_bool (child "has_endstop" user_config) = Some (Config.has_endstop config) /\
  if is_defined (child "homing_method" user_config)
  then output = [] /\
       exists method_name,
         as_string (child "homing_method" user_config) = Some method_name /\
         parse_homing_method_name method_name
         = inr (Config.homing_method config)
  else output = [(Load.Cerr, msg_no_homing_method)] /\
       Config.homing_method config
       = if Config.has_endstop config then ENDSTOP_INDEX else NEXT_INDEX.
Proof.
  intros Hfile E.
  destruct (load_config_Return _ _ _ _ _ Hfile E)
    as (_ & _ & Hb & _ & Hm & _).
  split; [exact Hb|]. unfold load_homing_method in Hm.
  destruct (is_defined (child "homing_method" user_config)).
  - apply bind_Return in Hm as (o1 & name & o2 & E1 & E2 & ->).
    apply set_config_value_Return in E1 as [-> E1].
    destruct (parse_homing_method_name name) as [what|method] eqn:Ep;
      [discriminate|].
    injection E2 as <- <-. split; [reflexivity|]. now exists name.
  - cbn in Hm. now injection Hm as <- <-.
Qed.

(** X20. What is read is what is loaded.  Every parameter that must be
    there is in the loaded configuration with the value that the file
    converts to, the CAN ports one per motor board; the soft position
    limits, the calibration and the position-control gains are those of the
    file when the file has the entry, and the defaults otherwise. *)
Theorem loaded_parameters (config_file_name : string) (user_config : Node)
    (output : list (Load.Stream * string)) (can_ports : list string)
    (config : Config.t) :
  load_file config_file_name = Some user_config ->
  load_config config_file_name = Load.Return output (can_ports, config) ->
  Forall2 (fun i port =>
             as_string (item i (child "can_ports" user_config)) = Some port)
          (seq 0 N_MOTOR_BOARDS) can_ports /\
  as_double (child "max_current_A" user_config)
  = Some (Config.max_current_A config) /\
  as_double (child "move_to_position_tolerance_rad" user_config)
  = Some (Config.move_to_position_tolerance_rad config) /\
  as_Vector (child "safety_kd" user_config) = Some (Config.safety_kd config) /\
  as_Vector (child "hard_position_limits_lower" user_config)
  = Some (Config.hard_position_limits_lower config) /\
  as_Vector (child "hard_position_limits_upper" user_config)
  = Some (Config.hard_position_limits_upper config) /\
  as_Vector (child "home_offset_rad" user_config)
  = Some (Config.home_offset_rad config) /\
  as_Vector (child "initial_position_rad" user_config)
  = Some (Config.initial_position_rad config) /\
  (if is_defined (child "soft_position_limits_lower" user_config)
   then as_Vector (child "soft_position_limits_lower" user_config)
        = Some (Config.soft_position_limits_lower config)
   else Config.soft_position_limits_lower config
        = Config.soft_position_limits_lower default_config) /\
  (if is_defined (child "soft_position_limits_upper" user_config)
   then as_Vector (child "soft_position_limits_upper" user_config)
        = Some (Config.soft_position_limits_upper config)
   else Config.soft_position_limits_upper config
        = Config.soft_position_limits_upper default_config) /\
  (if is_defined (child "calibration" user_config)
   then as_Vector (child "endstop_search_torques_Nm"
                     (child "calibration" user_config))
        = Some (Config.endstop_search_torques_Nm (Config.calibration config)) /\
        as_uint32 (child "move_steps" (child "calibration" user_config))
        = Some (Config.move_steps (Config.calibration config))
   else Config.calibration config = Config.calibration default_config) /\
  (if is_defined (child "position_control_gains" user_config)
   then as_Vector (child "kp" (child "position_control_gains" user_config))
        = Some (Config.kp (Config.position_control_gains config)) /\
        as_Vector (child "kd" (child "position_control_gains" user_config))
        = Some (Config.kd (Config.position_control_gains config))
   else Config.position_control_gains config
        = Config.position_control_gains default_config).
Proof.
  intros Hfile E.
  destruct (load_config_Return _ _ _ _ _ Hfile E)
    as (Hports & Hmax & _ & _ & _ & Htol & Hcal & Hskd & Hgains & Hlo & Hup
        & Hslo & Hsup & Hoff & Hinit & _).
  repeat split; try assumption.
  - unfold load_can_ports in Hports.
    destruct (mapM _ _) as [ports|] eqn:Em; [|discriminate].
    injection Hports as <-. now apply mapM_Some.
  - unfold load_optional in Hslo. destruct (is_defined _).
    + now apply set_config_value_Return in Hslo.
    + now injection Hslo.
  - unfold load_optional in Hsup. destruct (is_defined _).
    + now apply set_config_value_Return in Hsup.
    + now injection Hsup.
  - unfold load_calibration in Hcal. destruct (is_defined _).
    + apply bind_Return in Hcal as (o1 & t & o2 & E1 & Hcal & _).
      apply bind_Return in Hcal as (o3 & m & o4 & E2 & Hcal & _).
      apply set_config_value_Return in E1 as [_ E1].
      apply set_config_value_Return in E2 as [_ E2].
      injection Hcal as _ <-. now split.
    + now injection Hcal.
  - unfold load_position_control_gains in Hgains. destruct (is_defined _).
    + apply bind_Return in Hgains as (o1 & kp & o2 & E1 & Hgains & _).
      apply bind_Return in Hgains as (o3 & kd & o4 & E2 & Hgains & _).
      apply set_config_value_Return in E1 as [_ E1].
      apply set_config_value_Return in E2 as [_ E2].
      injection Hgains as _ <-. now split.
    + now injection Hgains.
Qed.

Lemma load_trajectory_steps_Return trajectory indices output steps :
  load_trajectory_steps trajectory indices = Load.Return output steps ->
  Forall2 (fun i step =>
             as_Vector (child "target_position_rad" (item i trajectory))
             = Some (TrajectoryStep.target_position_rad step) /\
             as_uint32 (child "move_steps" (item i trajectory))
             = Some (TrajectoryStep.move_steps step))
          indices steps.
Proof.
  revert output steps. induction indices as [|i rest IH]; intros output steps;
    cbn [load_trajectory_steps].
  - intros [= _ <-]. constructor.
  - intros H.
    apply bind_Return in H as (o1 & t & o2 & E1 & H & _).
    apply bind_Return in H as (o3 & m & o4 & E2 & H & _).
    apply bind_Return in H as (o5 & more & o6 & E3 & H & _).
    apply set_config_value_Return in E1 as [_ E1].
    apply set_config_value_Return in E2 as [_ E2].
    injection H as _ <-. constructor; [now split|]. now apply (IH o5).
Qed.

Lemma load_logfile_names_Return logfiles indices output names :
  load_logfile_names logfiles indices = Load.Return output names ->
  Forall2 (fun i name => as_string (item i logfiles) = Some name) indices names.
Proof.
  revert output names. induction indices as [|i rest IH]; intros output names;
    cbn [load_logfile_names].
  - intros [= _ <-]. constructor.
  - destruct (as_string (item i logfiles)) as [name|] eqn:En; [|discriminate].
    intros H. apply bind_Return in H as (o1 & more & o2 & E1 & H & _).
    injection H as _ <-. constructor; [exact En|]. now apply (IH o1).
Qed.

(** X21. The lists of a loaded configuration extend those of the default
    configuration: the shutdown trajectory is the default one followed by
    one step per element of the file's list, in order and with the target
    and the step count of that element, and the run-duration log files are
    the default ones followed by the names in the file, in order.  An entry
    that the file does not have leaves the default list as it is; an entry
    that is loaded is a list. *)
Theorem loaded_lists_extend_defaults (config_file_name : string)
    (user_config : Node) (output : list (Load.Stream * string))
    (can_ports : list string) (config : Config.t) :
  load_file config_file_name = Some user_config ->
  load_config config_file_name = Load.Return output (can_ports, config) ->
  let trajectory := child "shutdown_trajectory" user_config in
  let logfiles := child "run_duration_logfiles" user_config in
  (if is_defined trajectory
   then IsSequence trajectory = true /\
        exists steps,
          Config.shutdown_trajectory config
          = Config.shutdown_trajectory default_config ++ steps /\
          Forall2 (fun i step =>
                     as_Vector (child "target_position_rad" (item i trajectory))
                     = Some (TrajectoryStep.target_position_rad step) /\
                     as_uint32 (child "move_steps" (item i trajectory))
                     = Some (TrajectoryStep.move_steps step))
                  (seq 0 (size trajectory)) steps
   else Config.shutdown_trajectory config
        = Config.shutdown_trajectory default_config) /\
  (if is_defined logfiles
   then IsSequence logfiles = true /\
        exists names,
          Config.run_duration_logfiles config
          = Config.run_duration_logfiles default_config ++ names /\
          Forall2 (fun i name => as_string (item i logfiles) = Some name)
                  (seq 0 (size logfiles)) names
   else Config.run_duration_logfiles config
        = Config.run_duration_logfiles default_config).
Proof.
  intros Hfile E. cbv zeta.
  destruct (load_config_Return _ _ _ _ _ Hfile E)
    as (_ & _ & _ & _ & _ & _ & _ & _ & _ & _ & _ & _ & _ & _ & _ & Ht & Hl).
  split.
  - unfold load_shutdown_trajectory in Ht. destruct (is_defined _).
    + destruct (IsSequence _); cbn [negb] in Ht; [|discriminate].
      split; [reflexivity|].
      apply bind_Return in Ht as (o1 & steps & o2 & E1 & Ht & _).
      injection Ht as _ <-. exists steps. split; [reflexivity|].
      now apply (load_trajectory_steps_Return _ _ o1).
    + now injection Ht.
  - unfold load_run_duration_logfiles in Hl. destruct (is_defined _).
    + destruct (IsSequence _); cbn [negb] in Hl; [|discriminate].
      split; [reflexivity|].
      apply bind_Return in Hl as (o1 & names & o2 & E1 & Hl & _).
      injection Hl as _ <-. exists names. split; [reflexivity|].
      now apply (load_logfile_names_Return _ _ o1).
    + now injection Hl.
Qed.

End LoadConfig.

(** ** A test bench

    Two joints on one motor board.  The joints stay at position zero; the
    velocity reading alternates between the two joints, [2^-6] on one and
    zero on the other; the world is the number of torque commands received,
    which is also the time in seconds.  Every file opens but one. *)
Module Bench.

Definition hw : Hardware nat :=
  BuildHardware nat
    (fun _ => [0; 0])
    (fun w => if Nat.even w then [0x1p-6; 0] else [0; 0x1p-6])
    (fun _ => [0; 0])
    (fun _ w => S w)
    (fun _ _ w => w)
    (fun _ _ _ w => (HomingReturnCode.SUCCEEDED, w))
    (fun _ w => (HomingReturnCode.SUCCEEDED, w))
    (fun _ w => w)
    (fun w => uint32_to_double w)
    (fun _ w => w)
    (fun f w => (negb (String.eqb f "/read-only/log"), w)).

(** A [pow] for the exponents the driver uses, exact at 0 and at 1. *)
Definition exact_pow (x y : double) : double :=
  if y =? 3 then x * x * x
  else if y =? 4 then x * x * x * x
  else if y =? 5 then x * x * x * x * x
  else nan.

(** A 32-bit counter. *)
Definition uint32_incr (c : Z) : Z := ((c + 1) mod 2 ^ 32)%Z.

(** Three steps per move; a shutdown trajectory of two waypoints, the first
    out of reach; three log files, the second read-only. *)
Definition config (method : HomingMethod) (search_torques : Vector) : Config.t :=
  Config.Build 1 false method (Config.BuildCalibration search_torques 3)
    0.5 [0.125; 0.125] (Config.BuildGains [1; 1] [0.125; 0.125])
    [-2; -2] [2; 2] [-1; -1] [1; 1] [0; 0] [0; 0]
    [TrajectoryStep.Build [1; 1] 2; TrajectoryStep.Build [0; 0] 2]
    ["/tmp/run.log"; "/read-only/log"; "/tmp/other.log"]%string.

Definition fresh : Driver Z nat := BuildDriver 0%nat false 0%Z [].

(** The running average of the largest absolute velocity over the joints,
    taken over the window the loop keeps. *)
Definition average_of_maximum (l : BlockingLoop) : double :=
  fold_left PrimFloat.add (maxCoeff <$> running_velocities l) 0
  / uint32_to_double (Z.to_nat SIZE_VELOCITY_WINDOW).

(** The driver once it is initialized. *)
Definition ready : Driver Z nat := BuildDriver 0%nat true 0%Z [].

(** Three motor boards: the first has no status yet, the second had an
    encoder error that is gone, the third is too hot; a fourth with a code
    that the driver does not know. *)
Definition get_status (board : nat) (w : nat) : list ErrorCodes.t :=
  match board with
  | 0 => []
  | 1 => [ErrorCodes.ENCODER; ErrorCodes.NONE]
  | 2 => [ErrorCodes.NONE; ErrorCodes.CRIT_TEMP]
  | _ => [ErrorCodes.UNKNOWN]
  end%nat.

(** The first joint turns at [2^-5] without ever slowing down, and the one
    reading that follows the 950th torque command is [2^60]. *)
Definition hw_glitch : Hardware nat :=
  BuildHardware nat
    (get_measured_angles hw)
    (fun w => if (w =? 950)%nat then [0x1p+60; 0] else [0x1p-5; 0])
    (get_measured_torques hw)
    (set_and_send_torques hw) (set_position_control_gains hw)
    (execute_homing hw) (execute_homing_at_current_position hw)
    (pause_motors_of_board hw) (get_current_time_sec hw)
    (sleep_until_sec hw) (open_for_append hw).

(** The same joints read half a turn beyond their hard limits. *)
Definition hw_out_of_range : Hardware nat :=
  BuildHardware nat
    (fun _ => [3; 0])
    (get_measured_velocities hw) (get_measured_torques hw)
    (set_and_send_torques hw) (set_position_control_gains hw)
    (execute_homing hw) (execute_homing_at_current_position hw)
    (pause_motors_of_board hw) (get_current_time_sec hw)
    (sleep_until_sec hw) (open_for_append hw).

End Bench.

(** ** A configuration file on the bench

    A YAML document as a tree with typed leaves; an entry that is not there
    reads as [Undefined], and a conversion fails on a leaf of another
    type. *)
Module BenchFile.

#[local] Unset Elimination Schemes.
Inductive node : Type :=
  | Undefined
  | Str (text : string)
  | Num (x : double)
  | Flag (b : bool)
  | Count (n : nat)
  | Vec (v : Vector)
  | Seq (elements : list node)
  | Map (entries : list (string * node)).
#[local] Set Elimination Schemes.

Fixpoint lookup_key (key : string) (entries : list (string * node)) : node :=
  match entries with
  | [] => Undefined
  | (k, v) :: rest => if String.eqb k key then v else lookup_key key rest
  end.

Definition child (key : string) (n : node) : node :=
  match n with Map entries => lookup_key key entries | _ => Undefined end.
Definition item (i : nat) (n : node) : node :=
  match n with Seq elements => nth i elements Undefined | _ => Undefined end.
Definition is_defined (n : node) : bool :=
  match n with Undefined => false | _ => true end.
Definition IsSequence (n : node) : bool :=
  match n with Seq _ => true | _ => false end.
Definition size (n : node) : nat :=
  match n with Seq elements => length elements | _ => 0 end.
Definition as_string (n : node) : option string :=
  match n with Str text => Some text | _ => None end.
Definition as_double (n : node) : option double :=
  match n with Num x => Some x | _ => None end.
Definition as_bool (n : node) : option bool :=
  match n with Flag b => Some b | _ => None end.
Definition as_uint32 (n : node) : option nat :=
  match n with Count k => Some k | _ => None end.
Definition as_Vector (n : node) : option Vector :=
  match n with Vec v => Some v | _ => None end.

Definition parse_homing_method_name (name : string) : string + HomingMethod :=
  if String.eqb name "none" then inr NONE
  else if String.eqb name "endstop" then inr ENDSTOP
  else inl "Invalid homing method"%string.

(** A file without homing method, soft limits and gains. *)
Definition entries : list (string * node) :=
  [("can_ports", Seq [Str "can0"]);
   ("max_current_A", Num 2);
   ("has_endstop", Flag true);
   ("move_to_position_tolerance_rad", Num 0.5);
   ("calibration",
    Map [("endstop_search_torques_Nm", Vec [0.5; 0.5]);
         ("move_steps", Count 500)]);
   ("safety_kd", Vec [0.25; 0.25]);
   ("hard_position_limits_lower", Vec [-3; -3]);
   ("hard_position_limits_upper", Vec [3; 3]);
   ("home_offset_rad", Vec [1; 1]);
   ("initial_position_rad", Vec [0.5; 0.5]);
   ("shutdown_trajectory",
    Seq [Map [("target_position_rad", Vec [0; 0]); ("move_steps", Count 100)]]);
   ("run_duration_logfiles", Seq [Str "/var/log/run"])]%string.

Definition robot : node := Map entries.

(** The same file with the obsolete option. *)
Definition old : node := Map (("homing_with_index"%string, Flag true) :: entries).

Definition load_file (name : string) : option node :=
  if String.eqb name "robot.yml" then Some robot
  else if String.eqb name "old.yml" then Some old
  else None.

Definition default : Config.t := Bench.config NONE [0; 0].

Definition load (name : string) : Load.t (list string * Config.t) :=
  load_config 1 node load_file child item is_defined IsSequence size
    as_string as_double as_bool as_uint32 as_Vector parse_homing_method_name
    default name.

(** What [robot.yml] loads to. *)
Definition loaded : Config.t :=
  Config.Build 2 true ENDSTOP_INDEX (Config.BuildCalibration [0.5; 0.5] 500)
    0.5 [0.25; 0.25] (Config.BuildGains [1; 1] [0.125; 0.125])
    [-3; -3] [3; 3] [-1; -1] [1; 1] [1; 1] [0.5; 0.5]
    [TrajectoryStep.Build [1; 1] 2; TrajectoryStep.Build [0; 0] 2;
     TrajectoryStep.Build [0; 0] 100]
    ["/tmp/run.log"; "/read-only/log"; "/tmp/other.log"; "/var/log/run"]%string.

End BenchFile.

Lemma isZero_Zero n : isZero (Zero n) = true.
Proof. induction n as [|n IH]; [reflexivity|]. simpl. exact IH. Qed.

Lemma homing_fails_fast_witness :
  exists message s',
    homing 2 Z Bench.uint32_incr nat Bench.hw (Bench.config ENDSTOP_INDEX (Zero 2))
      true 1 9 0 Bench.fresh = Some (false, s') /\
    world s' = world Bench.fresh /\
    action_counter_ s' = action_counter_ Bench.fresh /\
    is_initialized_ s' = is_initialized_ Bench.fresh /\
    trace s'
    = trace Bench.fresh ++ [EvPrint "Start homing."; EvPrint message].
Proof.
  apply (homing_fails_fast 2 Z Bench.uint32_incr nat Bench.hw
           (Bench.config ENDSTOP_INDEX (Zero 2)) true 1 9 0 Bench.fresh).
  right. left. split; reflexivity.
Defined.

(** On the bench each joint moves half of the time: the largest per-joint
    average is [2^-7], below the stop velocity, and the loop stops at the
    minimum of 1000 steps, while the average over the window of the largest
    velocity of the two joints is [2^-6], above the stop velocity. *)
Lemma blocking_move_ignores_average_of_maximum :
  exists l s',
    move_until_blocking_loop 2 Z Bench.uint32_incr nat Bench.hw
      (Bench.config ENDSTOP [0.5; 0.5]) 1 1000 [0.5; 0.5]
      (blocking_loop_init 2, Bench.fresh) = Some (l, s') /\
    step_count l = 1000%Z /\
    window_average l = 0x1p-7 /\
    Bench.average_of_maximum l = 0x1p-6 /\
    (STOP_VELOCITY <? Bench.average_of_maximum l) = true.
Proof.
  eexists _, _. split; [vm_compute; reflexivity|].
  repeat split; vm_compute; reflexivity.
Qed.

Lemma move_until_blocking_stops_witness :
  move_until_blocking_loop 2 Z Bench.uint32_incr nat Bench.hw
    (Bench.config ENDSTOP [0.5; 0.5]) 1 1000 [0.5; 0.5]
    (blocking_loop_init 2, Bench.fresh)
  = Some (blocking_state 2 Z Bench.uint32_incr nat Bench.hw
            (Bench.config ENDSTOP [0.5; 0.5]) 1 [0.5; 0.5] Bench.fresh 1000) /\
  summed_velocities
    (blocking_state 2 Z Bench.uint32_incr nat Bench.hw
       (Bench.config ENDSTOP [0.5; 0.5]) 1 [0.5; 0.5] Bench.fresh 1000).1
  = running_sum 2
      (recorded_velocities 2 Z Bench.uint32_incr nat Bench.hw
         (Bench.config ENDSTOP [0.5; 0.5]) 1 [0.5; 0.5] Bench.fresh) 1000.
Proof.
  split.
  - apply (proj1 (move_until_blocking_stops 2 Z Bench.uint32_incr nat Bench.hw
                    (Bench.config ENDSTOP [0.5; 0.5]) 1 [0.5; 0.5] Bench.fresh)).
    exists 1000%nat. split; [lia|]. split; [reflexivity|]. split.
    + split; [vm_compute; discriminate|vm_compute; reflexivity].
    + intros k Hk [Hc _]. unfold MIN_STEPS_MOVE_TO_END_STOP in Hc.
      rewrite Z.mod_small in Hc by lia. lia.
  - exact (proj1 (proj2 (proj1 (proj2 (proj2 (proj2
             (move_until_blocking_stops 2 Z Bench.uint32_incr nat Bench.hw
                (Bench.config ENDSTOP [0.5; 0.5]) 1 [0.5; 0.5] Bench.fresh))))
             1000%nat))).
Defined.

(** The running sum is not the sum over the window.  With the glitch on the
    bench the reading of [2^60] swallows the running sum when it is added and
    leaves zero when it is taken off 100 iterations later: the loop stops
    after 1050 iterations on a running sum of [2^-5], while every vector in
    the window is [2^-5] on the first joint, 3.125 in all and 0.03125 on
    average, above the stop velocity. *)
Example running_sum_is_not_window_sum :
  exists l s',
    move_until_blocking_loop 2 Z Bench.uint32_incr nat Bench.hw_glitch
      (Bench.config ENDSTOP [0.5; 0.5]) 1 2000 [0.5; 0.5]
      (blocking_loop_init 2, Bench.fresh) = Some (l, s') /\
    step_count l = 1050%Z /\
    summed_velocities l = [0x1p-5; 0] /\
    running_velocities l = replicate 100 [0x1p-5; 0] /\
    fold_left vadd (running_velocities l) (Zero 2) = [3.125; 0] /\
    (STOP_VELOCITY <? 3.125 / uint32_to_double 100) = true.
Proof.
  eexists _, _. split; [vm_compute; reflexivity|].
  repeat split; vm_compute; reflexivity.
Qed.

(** From start 1 towards the goal [2^-60]: at [alpha = 1] the blend is
    exactly 1 and the target formula gives 0, not the goal. *)
Lemma blend_end_misses_goal :
  minimum_jerk Bench.exact_pow 1 = 1 /\
  step_goal Bench.exact_pow [1] [0x1p-60] 1 1 = [0] /\
  (0 =? 0x1p-60) = false.
Proof. repeat split. Qed.

Lemma move_to_position_trajectory_witness :
  (step_goal Bench.exact_pow
     (Observation.position (get_latest_observation Z nat Bench.hw Bench.fresh))
     [1; 1] 2 0 !!! 0%nat
   =? Observation.position
        (get_latest_observation Z nat Bench.hw Bench.fresh) !!! 0%nat) = true.
Proof.
  apply (proj1 (proj2 (proj2
           (move_to_position_trajectory 2 Z Bench.uint32_incr Bench.exact_pow
              nat Bench.hw (Bench.config NONE [0; 0]) 1 [1; 1] 0.5 2
              Bench.fresh))));
    try reflexivity; simpl; lia.
Defined.

(** *** The scenarios of the specification on the bench *)

(** Shutdown with two waypoints, the first of which misses its goal: two
    actions for the first waypoint, none for the second, then the pause, the
    report, and the log files in turn. *)
Example shutdown_scenario :
  trace
    (shutdown 2 1 Z Bench.uint32_incr Bench.exact_pow nat Bench.hw
       (Bench.config NONE [0; 0]) 1 Bench.fresh)
  = [EvSendTorques [-0x1p-8; 0]; EvSleepUntil 0x1.0624dd2f1a9fcp-10;
     EvSendTorques [0.5; 0.49609375]; EvSleepUntil 0x1.004189374bc6ap+0;
     EvPauseMotors 0;
     EvPrint "Failed to reach rest position.  Robot may be blocked.";
     EvPrint "Write run duration log /tmp/run.log";
     EvAppendLine "/tmp/run.log" 2%Z 2%Z;
     EvPrint "Write run duration log /read-only/log";
     EvPrint "Failed to open file /read-only/log for writing.";
     EvPrint "Write run duration log /tmp/other.log";
     EvAppendLine "/tmp/other.log" 2%Z 2%Z].
Proof. vm_compute. reflexivity. Qed.

(** Initialization without homing motion: ready, after two moves of three
    steps each. *)
Example initialize_scenario :
  (fun s => (is_initialized_ s, action_counter_ s,
             sends (trace s), last (trace s)))
    <$> _initialize 2 1 Z Bench.uint32_incr Bench.exact_pow nat Bench.hw
          (Bench.config NONE [0; 0]) false 1 9 0 Bench.fresh
  = Some (true, 6%Z, 6%nat, Some (EvPauseMotors 0)).
Proof. vm_compute. reflexivity. Qed.

(** Initialization with a homing method that fails fast: not ready, and no
    torque command at all. *)
Example initialize_failure_scenario :
  (fun s => (is_initialized_ s, action_counter_ s, trace s))
    <$> _initialize 2 1 Z Bench.uint32_incr Bench.exact_pow nat Bench.hw
          (Bench.config NEXT_INDEX [0; 0]) false 1 9 0 Bench.fresh
  = Some (false, 0%Z,
          [EvSetPositionControlGains [1; 1] [0.125; 0.125];
           EvPrint "Start homing.";
           EvPrint (msg_index_torque_zero);
           EvPauseMotors 0; EvPauseMotors 0]).
Proof. vm_compute. reflexivity. Qed.

(** Homing against the end stop with release, then the initial moves: 1000
    steps of blocking move, 1000 of release and 6 of moves are all counted. *)
Example initialize_counts_homing_actions :
  (fun s => (is_initialized_ s, action_counter_ s))
    <$> _initialize 2 1 Z Bench.uint32_incr Bench.exact_pow nat Bench.hw
          (Bench.config ENDSTOP_RELEASE [0.5; 0.5]) true 1 9 1000 Bench.fresh
  = Some (true, 2006%Z).
Proof. vm_compute. reflexivity. Qed.

(** *** The further properties on the bench *)

Lemma scenario_inside_limits i :
  i < 2 ->
  limits_inactive (Action.Torque 2 [0; 0]) scenario_moving [-1; -1] [1; 1] i.
Proof.
  destruct i as [|[|i]]; intros Hi; [repeat split..|lia].
Qed.

Lemma inside_limits_pass_through_witness :
  Action.position
    (process_desired_action 2 (Action.Torque 2 [0; 0]) scenario_moving 1
       [0.125; 0.125] [1; 1] [0; 0] [-1; -1] [1; 1])
  = Action.position (Action.Torque 2 [0; 0]).
Proof.
  exact (proj1 (inside_limits_pass_through 2 (Action.Torque 2 [0; 0])
                  scenario_moving 1 [0.125; 0.125] [1; 1] [0; 0] [-1; -1]
                  [1; 1] scenario_damping_wf scenario_inside_limits)).
Defined.

(** Custom gains on a joint beyond its upper limit: the defaults come
    back. *)
Lemma custom_gains_wf :
  pipeline_wf 1 (Action.Build [0] [nan] [8] [4]) overshoot_observation
    [0.5] [1] [0.5] [-1] [1].
Proof. repeat split. Qed.

Lemma violated_limit_overrides_command_witness :
  Action.position_kp
    (process_desired_action 1 (Action.Build [0] [nan] [8] [4])
       overshoot_observation 10 [0.5] [1] [0.5] [-1] [1]) !!! 0%nat
  = [1] !!! 0%nat.
Proof.
  exact (proj1 (violated_limit_overrides_command 1
                  (Action.Build [0] [nan] [8] [4]) overshoot_observation 10
                  [0.5] [1] [0.5] [-1] [1] custom_gains_wf 0%nat ltac:(lia)
                  (or_intror eq_refl))).
Defined.

Lemma damping_opposes_motion_witness :
  (Action.torque
     (process_desired_action 2 (Action.Torque 2 [0; 0]) scenario_moving 1
        [0.125; 0.125] [1; 1] [0; 0] [-1; -1] [1; 1]) !!! 0%nat <=? 0) = true.
Proof.
  apply (proj1 (damping_opposes_motion 2 (Action.Torque 2 [0; 0])
                  scenario_moving 1 [0.125; 0.125] [1; 1] [0; 0] [-1; -1]
                  [1; 1] scenario_damping_wf 0%nat ltac:(lia)
                  scenario_inside_limits
                  ltac:(intros [|[|j]] Hj; [reflexivity..|lia])
                  eq_refl eq_refl eq_refl eq_refl));
    reflexivity.
Defined.

(** A torque for the first joint and a target for the second. *)
Lemma mixed_action_wf :
  pipeline_wf 2 (Action.Build [0.5; 0] [nan; 0.25] [nan; nan] [nan; nan])
    scenario_moving [0.125; 0.125] [1; 1] [0; 0] [-1; -1] [1; 1].
Proof. repeat split. Qed.

Lemma no_target_joint_unaffected_witness :
  Action.torque
    (process_desired_action 2
       (Action.Build [0.5; 0] [nan; 0.25] [nan; nan] [nan; nan])
       scenario_moving 1 [0.125; 0.125] [1; 1] [0; 0] [-1; -1] [1; 1])
    !!! 0%nat
  = clamp1 (clamp1 0.5 (- (1)) 1 - 0.125 * 2) (- (1)) 1.
Proof.
  exact (no_target_joint_unaffected 2
           (Action.Build [0.5; 0] [nan; 0.25] [nan; nan] [nan; nan])
           scenario_moving 1 [0.125; 0.125] [1; 1] [0; 0] [-1; -1] [1; 1]
           mixed_action_wf 0%nat ltac:(lia) eq_refl eq_refl eq_refl eq_refl).
Defined.

(** A target far beyond the soft limits of the bench, before
    initialization. *)
Lemma uninitialized_tick_ignores_limits_witness :
  Action.position
    (apply_action_uninitialized 2 Z Bench.uint32_incr nat Bench.hw
       (Bench.config NONE [0; 0]) 1 (Action.Position 2 [5; -5]) Bench.fresh).1
  = [5; -5].
Proof.
  exact (proj2 (uninitialized_tick_ignores_limits 2 Z Bench.uint32_incr nat
                  Bench.hw (Bench.config NONE [0; 0]) 1
                  (Action.Position 2 [5; -5]) Bench.fresh eq_refl)).
Defined.

(** The same target once the robot is initialized: clamped. *)
Example initialized_tick_clamps_target :
  Action.position
    (apply_action_uninitialized 2 Z Bench.uint32_incr nat Bench.hw
       (Bench.config NONE [0; 0]) 1 (Action.Position 2 [5; -5]) Bench.ready).1
  = [1; -1].
Proof. reflexivity. Qed.

Lemma homing_without_motion_witness :
  exists ok s' events,
    homing 2 Z Bench.uint32_incr nat Bench.hw
      (Bench.config CURRENT_POSITION [0; 0]) false 1 9 0 Bench.fresh
    = Some (ok, s') /\
    trace s' = trace Bench.fresh ++ events /\
    sends events = 0%nat.
Proof.
  destruct (homing_without_motion 2 Z Bench.uint32_incr nat Bench.hw
              (Bench.config CURRENT_POSITION [0; 0]) false 1 9 0 Bench.fresh
              eq_refl) as (ok & s' & events & H1 & H2 & H3 & _).
  exists ok, s', events. auto.
Defined.

Lemma index_search_direction_witness :
  index_search_step_sizes 2 (Bench.config NEXT_INDEX [0.5; -0.5]) !!! 0%nat
  = - INDEX_SEARCH_STEP_SIZE_RAD.
Proof.
  exact (proj1 (proj1 (proj2 (proj2
           (index_search_direction 2 Z Bench.uint32_incr nat Bench.hw
              (Bench.config NEXT_INDEX [0.5; -0.5]) false 1 9 0 Bench.fresh
              eq_refl eq_refl)) 0%nat ltac:(lia)) eq_refl)).
Defined.

(** Homing against the end stop with release: the blocking move stops after
    1000 steps, and 1000 more commands release the motors. *)
Lemma homing_at_end_stop_witness :
  let s1 :=
    (blocking_state 2 Z Bench.uint32_incr nat Bench.hw
       (Bench.config ENDSTOP_RELEASE [0.5; 0.5]) 1 [0.5; 0.5]
       (print Z nat "Start homing." Bench.fresh) 1000).2 in
  exists ok s' events,
    homing 2 Z Bench.uint32_incr nat Bench.hw
      (Bench.config ENDSTOP_RELEASE [0.5; 0.5]) true 1 9 1000 Bench.fresh
    = Some (ok, s') /\
    trace s'
    = trace s1 ++ [EvPrint "Reached end stop."] ++ events
      ++ [EvExecuteHomingAtCurrentPosition [0; 0];
          EvPrint "Finished homing."] /\
    sends events = 1000%nat.
Proof.
  cbv zeta.
  pose proof (homing_at_end_stop 2 Z Bench.uint32_incr nat Bench.hw
                (Bench.config ENDSTOP_RELEASE [0.5; 0.5]) true 1 9 1000
                Bench.fresh eq_refl eq_refl eq_refl) as H.
  assert (E : move_until_blocking 2 Z Bench.uint32_incr nat Bench.hw
                (Bench.config ENDSTOP_RELEASE [0.5; 0.5]) 1 1000 [0.5; 0.5]
                (print Z nat "Start homing." Bench.fresh)
              = Some (blocking_state 2 Z Bench.uint32_incr nat Bench.hw
                        (Bench.config ENDSTOP_RELEASE [0.5; 0.5]) 1 [0.5; 0.5]
                        (print Z nat "Start homing." Bench.fresh) 1000).2)
    by (vm_compute; reflexivity).
  cbv zeta in H. cbn [Bench.config Config.calibration Config.homing_method
    Config.endstop_search_torques_Nm] in H.
  rewrite E in H. destruct H as (ok & s' & events & H1 & H2 & H3 & _).
  exists ok, s', events. repeat split; assumption.
Defined.

Lemma bench_readings_wf : readings_wf 2 nat Bench.hw.
Proof.
  intros w. cbn. destruct (Nat.even w); repeat split;
    intros [|[|i]] Hi; try reflexivity; lia.
Qed.

Lemma bench_config_wf method :
  config_wf 2 (Bench.config method [0.5; 0.5]) 1.
Proof.
  repeat split; try (repeat constructor; fail);
    destruct i as [|[|i]]; try reflexivity; lia.
Qed.

Lemma sent_torques_within_limit_witness :
  safe_run 2 Z nat 1 Bench.fresh
    (shutdown 2 1 Z Bench.uint32_incr Bench.exact_pow nat Bench.hw
       (Bench.config ENDSTOP [0.5; 0.5]) 1 Bench.fresh) /\
  safe_run 2 Z nat 1 Bench.fresh
    (blocking_state 2 Z Bench.uint32_incr nat Bench.hw
       (Bench.config ENDSTOP [0.5; 0.5]) 1 [0.5; 0.5]
       (print Z nat "Start homing."
          (set_gains Z nat Bench.hw (Bench.config ENDSTOP [0.5; 0.5])
             Bench.fresh)) 20).2.
Proof.
  split.
  - exact (proj1 (proj2 (proj2 (proj2
             (sent_torques_within_limit 2 1 Z Bench.uint32_incr Bench.exact_pow
                nat Bench.hw (Bench.config ENDSTOP [0.5; 0.5]) true 1 9
                bench_readings_wf (bench_config_wf ENDSTOP))))) Bench.fresh).
  - apply (proj2 (proj2 (proj2 (proj2 (proj2
             (sent_torques_within_limit 2 1 Z Bench.uint32_incr Bench.exact_pow
                nat Bench.hw (Bench.config ENDSTOP [0.5; 0.5]) true 1 9
                bench_readings_wf (bench_config_wf ENDSTOP))))))
             10%nat Bench.fresh).
    vm_compute. reflexivity.
Defined.

(** The loop started on a window full of sevens. *)
Lemma blocking_move_ignores_initial_window_witness :
  summed_velocities
    (Nat.iter 2
       (blocking_step 2 Z Bench.uint32_incr nat Bench.hw
          (Bench.config ENDSTOP [0.5; 0.5]) 1 [0.5; 0.5])
       (BuildBlockingLoop (replicate 100 [7; 7]) (Zero 2) 0, Bench.fresh)).1
  = summed_velocities
      (blocking_state 2 Z Bench.uint32_incr nat Bench.hw
         (Bench.config ENDSTOP [0.5; 0.5]) 1 [0.5; 0.5] Bench.fresh 2).1.
Proof.
  exact (proj1 (proj2 (proj2
           (blocking_move_ignores_initial_window 2 Z Bench.uint32_incr nat
              Bench.hw (Bench.config ENDSTOP [0.5; 0.5]) 1
              (replicate 100 [7; 7]) [0.5; 0.5] Bench.fresh eq_refl)
           2%nat))).
Defined.

(** On the bench the second joint rests on its initial position. *)
Lemma idle_action_at_rest_witness :
  exists applied_action s',
    apply_action 2 Z Bench.uint32_incr nat Bench.hw
      (Bench.config NONE [0.5; 0.5]) 1
      (get_idle_action 2 (Bench.config NONE [0.5; 0.5])) Bench.ready
    = (inr applied_action, s') /\
    Action.position applied_action = [0; 0] /\
    (Action.torque applied_action !!! 1%nat =? 0) = true.
Proof.
  apply (idle_action_at_rest 2 Z Bench.uint32_incr nat Bench.hw
           (Bench.config NONE [0.5; 0.5]) 1 bench_readings_wf
           (bench_config_wf NONE) Bench.ready 1%nat);
    try reflexivity; [lia|].
  intros [|[|j]] Hj; [repeat split..|lia].
Defined.

(** A joint on its upper hard limit is within the limits; a joint that
    reads NaN is not. *)
Example on_the_limit_is_within :
  is_within_hard_position_limits (Bench.config NONE [0; 0])
    (Observation.Build [2; -2] [0; 0] [0; 0]) = true.
Proof. reflexivity. Qed.

Lemma within_hard_position_limits_iff_witness :
  is_within_hard_position_limits (Bench.config NONE [0; 0])
    (Observation.Build [nan; 0] [0; 0] [0; 0]) = false.
Proof.
  exact (proj2 (within_hard_position_limits_iff 2 (Bench.config NONE [0; 0])
                  (Observation.Build [nan; 0] [0; 0] [0; 0])
                  eq_refl eq_refl eq_refl) 0%nat ltac:(lia) eq_refl).
Defined.

(** The report of four boards, within the limits and beyond them; with two
    boards there is nothing to report. *)
Example get_error_scenario :
  get_error 4 Z nat Bench.hw (Bench.config NONE [0; 0]) Bench.get_status
    Bench.ready
  = "[Board 2] Critical Temperature  [Board 3] Unknown Error"%string /\
  get_error 4 Z nat Bench.hw_out_of_range (Bench.config NONE [0; 0])
    Bench.get_status Bench.ready
  = "[Board 2] Critical Temperature  [Board 3] Unknown Error | Position limits exceeded."%string /\
  get_error 2 Z nat Bench.hw_out_of_range (Bench.config NONE [0; 0])
    Bench.get_status Bench.ready
  = "Position limits exceeded."%string /\
  get_error 2 Z nat Bench.hw (Bench.config NONE [0; 0]) Bench.get_status
    Bench.ready
  = ""%string.
Proof. repeat split. Qed.

(** After a failed initialization an action is refused, and after a
    successful one it is applied. *)
Example apply_action_scenario :
  ((fun s => (apply_action 2 Z Bench.uint32_incr nat Bench.hw
                (Bench.config NEXT_INDEX [0; 0]) 1
                (Action.Torque 2 [0; 0]) s).1)
     <$> _initialize 2 1 Z Bench.uint32_incr Bench.exact_pow nat Bench.hw
           (Bench.config NEXT_INDEX [0; 0]) false 1 9 0 Bench.fresh)
  = Some (inl "Robot needs to be initialized before applying actions.  Run the `initialize()` method."%string) /\
  ((fun s => (apply_action 2 Z Bench.uint32_incr nat Bench.hw
                (Bench.config NONE [0; 0]) 1
                (Action.Torque 2 [0; 0]) s).1)
     <$> _initialize 2 1 Z Bench.uint32_incr Bench.exact_pow nat Bench.hw
           (Bench.config NONE [0; 0]) false 1 9 0 Bench.fresh)
  = Some (inr (Action.Build [-0x1p-9; 0] [nan; nan] [nan; nan] [nan; nan])).
Proof. split; vm_compute; reflexivity. Qed.

(** *** Loading the bench files *)

Example load_scenario :
  BenchFile.load "robot.yml"
  = Load.Return [(Load.Cerr, msg_no_homing_method)]
      (["can0"%string], BenchFile.loaded) /\
  BenchFile.load "old.yml" = Load.Exit [(Load.Cout, msg_obsolete)] /\
  BenchFile.load "missing.yml"
  = Load.Exit
      [(Load.Cout,
        "FATAL: Failed to load configuration from 'missing.yml'."%string)].
Proof. repeat split. Qed.

Lemma obsolete_option_is_fatal_witness :
  BenchFile.load "old.yml" = Load.Exit [(Load.Cout, msg_obsolete)].
Proof.
  apply (proj2 (obsolete_option_is_fatal 1 BenchFile.node BenchFile.load_file
                  BenchFile.child BenchFile.item BenchFile.is_defined
                  BenchFile.IsSequence BenchFile.size BenchFile.as_string
                  BenchFile.as_double BenchFile.as_bool BenchFile.as_uint32
                  BenchFile.as_Vector BenchFile.parse_homing_method_name
                  BenchFile.default "old.yml" BenchFile.old eq_refl eq_refl));
    eexists; reflexivity.
Defined.

Lemma load_config_exit_is_announced_witness :
  exists before stream text,
    [(Load.Cout,
      "FATAL: Failed to load configuration from 'missing.yml'."%string)]
    = before ++ [(stream, ("FATAL: " ++ text)%string)] /\
    (before = [] \/ before = [(Load.Cerr, msg_no_homing_method)]).
Proof.
  exact (load_config_exit_is_announced 1 BenchFile.node BenchFile.load_file
           BenchFile.child BenchFile.item BenchFile.is_defined
           BenchFile.IsSequence BenchFile.size BenchFile.as_string
           BenchFile.as_double BenchFile.as_bool BenchFile.as_uint32
           BenchFile.as_Vector BenchFile.parse_homing_method_name
           BenchFile.default "missing.yml" _ eq_refl).
Defined.

Lemma loaded_homing_method_witness :
  Config.homing_method BenchFile.loaded
  = (if Config.has_endstop BenchFile.loaded then ENDSTOP_INDEX
     else NEXT_INDEX).
Proof.
  exact (proj2 (proj2
           (loaded_homing_method 1 BenchFile.node BenchFile.load_file
              BenchFile.child BenchFile.item BenchFile.is_defined
              BenchFile.IsSequence BenchFile.size BenchFile.as_string
              BenchFile.as_double BenchFile.as_bool BenchFile.as_uint32
              BenchFile.as_Vector BenchFile.parse_homing_method_name
              BenchFile.default "robot.yml" BenchFile.robot
              [(Load.Cerr, msg_no_homing_method)] ["can0"%string]
              BenchFile.loaded eq_refl eq_refl))).
Defined.

Lemma loaded_parameters_witness :
  BenchFile.as_double (BenchFile.child "max_current_A" BenchFile.robot)
  = Some (Config.max_current_A BenchFile.loaded).
Proof.
  exact (proj1 (proj2
           (loaded_parameters 1 BenchFile.node BenchFile.load_file
              BenchFile.child BenchFile.item BenchFile.is_defined
              BenchFile.IsSequence BenchFile.size BenchFile.as_string
              BenchFile.as_double BenchFile.as_bool BenchFile.as_uint32
              BenchFile.as_Vector BenchFile.parse_homing_method_name
              BenchFile.default "robot.yml" BenchFile.robot
              [(Load.Cerr, msg_no_homing_method)] ["can0"%string]
              BenchFile.loaded eq_refl eq_refl))).
Defined.

Lemma loaded_lists_extend_defaults_witness :
  exists steps,
    Config.shutdown_trajectory BenchFile.loaded
    = Config.shutdown_trajectory BenchFile.default ++ steps /\
    length steps = 1%nat.
Proof.
  destruct (proj2 (proj1
              (loaded_lists_extend_defaults 1 BenchFile.node
                 BenchFile.load_file BenchFile.child BenchFile.item
                 BenchFile.is_defined BenchFile.IsSequence BenchFile.size
                 BenchFile.as_string BenchFile.as_double BenchFile.as_bool
                 BenchFile.as_uint32 BenchFile.as_Vector
                 BenchFile.parse_homing_method_name BenchFile.default
                 "robot.yml" BenchFile.robot
                 [(Load.Cerr, msg_no_homing_method)] ["can0"%string]
                 BenchFile.loaded eq_refl eq_refl)))
    as (steps & Hs & Hf).
  exists steps. split; [exact Hs|].
  now rewrite <- (Forall2_length _ _ _ Hf).
Defined.
